(** * MiniSat utility layer: [vec], [Options], [MINISAT_ASSERT]

    A shallow embedding of three pieces of the MiniSat sources:

    - [Vec.h]      the resizable array [vec<T,_Size>]           (module [Vec]);
    - [Assert.h] / [Assert.cc]   the assertion macro            (module [Assert]);
    - [Options.cc] command-line and environment option parsing  (module [Options]).

    Machine integers are [Z] with the two's complement wrap-around written
    out, C strings are [string], and every function that can throw, abort or
    exit returns an explicit outcome. *)

From Stdlib Require Import ZArith Lia Bool String Ascii Floats.
From stdpp Require Import base option list strings gmap.

Local Open Scope Z_scope.

(** ** 32-bit [int] arithmetic *)

Module Int.

Definition int_max : Z := 2147483647.
Definition int_min : Z := -2147483648.

(** Reduction of a mathematical integer to the value an [int] holds. *)
Definition wrap (z : Z) : Z := (z + 2147483648) mod 4294967296 - 2147483648.

Definition in_range (z : Z) : Prop := int_min <= z <= int_max.

End Int.

(** ** [Vec.h]: automatically resizable arrays

    [vec<T,_Size>] is modelled at its default instantiation [_Size = int].
    The buffer [data] is either [NULL] ([None]) or a block of slots; a slot
    holds a constructed object ([Some x]) or raw memory ([None]).  Every
    member function is a computation over the object's three fields that
    also records which slots it touches, so that statements about destructor
    calls and out-of-range indices can be made about the code as written
    (C++ leaves such accesses undefined; the model records the index and
    leaves the buffer alone when the index is outside it).

    [assert] is the one of <assert.h> in a build without NDEBUG: a failed
    assertion stops the computation with [AssertFail].
    [MINISAT_ANNOT_CONTIGOUS_CONTAINER] is the empty macro of a build
    without the address sanitizer, so its arguments are not evaluated. *)

Module Vec.
Import Int.

(** Slot accesses, by index into [data]. *)
Inductive access : Type :=
| Dtor (i : Z)    (* data[i].~T()            *)
| Ctor (i : Z)    (* new (&data[i]) T(...)   *)
| Load (i : Z)    (* read of data[i]         *)
| Store (i : Z).  (* data[i] = ...           *)

Definition index_of (a : access) : Z :=
  match a with Dtor i | Ctor i | Load i | Store i => i end.

Record vec (T : Type) : Type := mkVec {
  data : option (list (option T));
  sz : Z;
  cap : Z
}.
Arguments mkVec {T} _ _ _.
Arguments data {T} _.
Arguments sz {T} _.
Arguments cap {T} _.

(** How a member function ends. *)
Inductive res (A : Type) : Type :=
| Ret (a : A)     (* normal return                                  *)
| Throw           (* throw OutOfMemoryException()                   *)
| AssertFail      (* a failed assert(...)                           *)
| Undefined.      (* the value of a slot that holds no object read  *)
Arguments Ret {A} _.
Arguments Throw {A}.
Arguments AssertFail {A}.
Arguments Undefined {A}.

(** What [::realloc] answers: a block of the requested size that keeps the
    old contents, or [NULL] with some value left in [errno]. *)
Inductive realloc_result : Type :=
| ReallocOk
| ReallocNull (errno : Z).

Definition ENOMEM : Z := 12.

(** What [::realloc] does answer when it is asked for a block that is not
    of size 0, as [capacity] asks: the block, or [NULL] with [errno] set to
    [ENOMEM]. *)
Definition realloc_answer (r : realloc_result) : Prop :=
  r = ReallocOk \/ r = ReallocNull ENOMEM.

(** [std::numeric_limits<Size>::max()] for [Size = int]. *)
Definition size_max : Z := int_max.

Definition M (T A : Type) : Type := vec T -> res A * vec T * list access.

Definition outcome {T A} (x : res A * vec T * list access) : res A := x.1.1.
Definition state {T A} (x : res A * vec T * list access) : vec T := x.1.2.
Definition trace {T A} (x : res A * vec T * list access) : list access := x.2.

Definition M_ret {T A} (a : A) : M T A := fun v => (Ret a, v, []).

Definition M_bind {T A B} (f : A -> M T B) (m : M T A) : M T B := fun v =>
  match m v with
  | (Ret a, v', t) => let '(r, v'', t') := f a v' in (r, v'', t ++ t')
  | (Throw, v', t) => (Throw, v', t)
  | (AssertFail, v', t) => (AssertFail, v', t)
  | (Undefined, v', t) => (Undefined, v', t)
  end.

#[export] Instance M_mret {T} : MRet (M T) := fun A => M_ret.
#[export] Instance M_mbind {T} : MBind (M T) := fun A B => M_bind.

(** *** Several vectors

    A member function that is handed another vector by reference
    ([moveTo], [copyTo]) works on two objects, and nothing keeps a caller
    from passing the vector itself.  The vectors of a program are the
    entries of a store, named by their index, and a computation on the
    store records which vector each slot access goes to. *)
Definition H (T A : Type) : Type :=
  list (vec T) -> res A * list (vec T) * list (nat * access).

Definition objects {T A} (x : res A * list (vec T) * list (nat * access)) :
  list (vec T) := x.1.2.

Definition H_ret {T A} (a : A) : H T A := fun h => (Ret a, h, []).

Definition H_bind {T A B} (f : A -> H T B) (m : H T A) : H T B := fun h =>
  match m h with
  | (Ret a, h', t) => let '(r, h'', t') := f a h' in (r, h'', t ++ t')
  | (Throw, h', t) => (Throw, h', t)
  | (AssertFail, h', t) => (AssertFail, h', t)
  | (Undefined, h', t) => (Undefined, h', t)
  end.

#[export] Instance H_mret {T} : MRet (H T) := fun A => H_ret.
#[export] Instance H_mbind {T} : MBind (H T) := fun A B => H_bind.

(** The member function [m] called on the vector [p]. *)
Definition on {T A} (p : nat) (m : M T A) : H T A := fun h =>
  match h !! p with
  | Some v => let '(r, v', t) := m v in (r, <[p := v']> h, (fun a => (p, a)) <$> t)
  | None => (Undefined, h, [])
  end.

Section Members.
Context {T : Type}.

(** [T()], the value a default-constructed element holds. *)
Variable T_default : T.

(** *** Field and slot primitives *)

Definition get_sz : M T Z := fun v => (Ret (sz v), v, []).
Definition get_cap : M T Z := fun v => (Ret (cap v), v, []).
Definition set_sz (n : Z) : M T unit := fun v => (Ret tt, mkVec (data v) n (cap v), []).

Definition assert_ (c : bool) : M T unit := fun v =>
  if c then (Ret tt, v, []) else (AssertFail, v, []).

(** Replace the contents of slot [i], when the buffer has such a slot. *)
Definition slot_set (i : Z) (x : option T) (d : option (list (option T))) :
  option (list (option T)) :=
  if 0 <=? i then (fun buf => <[Z.to_nat i := x]> buf) <$> d else d.

Definition slot_get (i : Z) (d : option (list (option T))) : option T :=
  if 0 <=? i then buf ← d; o ← buf !! Z.to_nat i; o else None.

Definition dtor (i : Z) : M T unit := fun v =>
  (Ret tt, mkVec (slot_set i None (data v)) (sz v) (cap v), [Dtor i]).

Definition ctor (i : Z) (x : T) : M T unit := fun v =>
  (Ret tt, mkVec (slot_set i (Some x) (data v)) (sz v) (cap v), [Ctor i]).

Definition store (i : Z) (x : T) : M T unit := fun v =>
  (Ret tt, mkVec (slot_set i (Some x) (data v)) (sz v) (cap v), [Store i]).

Definition load (i : Z) : M T T := fun v =>
  match slot_get i (data v) with
  | Some x => (Ret x, v, [Load i])
  | None => (Undefined, v, [Load i])
  end.

(** [for (Size i = from; i < from + n; i++) body(i)], the bounds being
    fixed when the loop is entered. *)
Fixpoint for_ (n : nat) (from : Z) (body : Z -> M T unit) : M T unit :=
  match n with
  | O => mret tt
  | S n' => body from ;; for_ n' (from + 1) body
  end.

(** *** Constructor *)

(** [vec() : data(NULL), sz(0), cap(0)] *)
Definition vec_new : vec T := mkVec None 0 0.

(** *** Size operations *)

Definition size : M T Z := get_sz.

(** [for (Size i = 0; i < nelems; i++) sz--, data[sz].~T();] *)
Definition shrink (nelems : Z) : M T unit :=
  s ← get_sz;
  assert_ (nelems <=? s) ;;
  for_ (Z.to_nat nelems) 0 (fun _ =>
    s ← get_sz; set_sz (wrap (s - 1)) ;;
    s' ← get_sz; dtor s').

Definition shrink_ (nelems : Z) : M T unit :=
  s ← get_sz;
  assert_ (nelems <=? s) ;;
  set_sz (wrap (s - nelems)).

(** [static inline Size max(Size x, Size y)] *)
Definition max (x y : Z) : Z := if x >? y then x else y.

(** The increment [add] computed by [capacity(min_cap)]:
    [max((min_cap - cap + 1) & ~1, ((cap >> 1) + 2) & ~1)]. *)
Definition capacity_add (cap min_cap : Z) : Z :=
  max (Z.land (wrap (wrap (min_cap - cap) + 1)) (Z.lnot 1))
      (Z.land (wrap (Z.shiftr cap 1 + 2)) (Z.lnot 1)).

(** [void vec<T,_Size>::capacity(Size min_cap)].  The left operand of [||]
    throws before anything is changed; the right operand first updates
    [cap] and [data] and throws only when [realloc] gave [NULL] and [errno]
    is [ENOMEM]. *)
Definition capacity (r : realloc_result) (min_cap : Z) : M T unit := fun v =>
  if cap v >=? min_cap then (Ret tt, v, [])
  else
    let add := capacity_add (cap v) min_cap in
    if (size_max <=? int_max) && (add >? wrap (size_max - cap v))
    then (Throw, v, [])
    else
      let cap' := wrap (cap v + add) in
      match r with
      | ReallocOk =>
          (Ret tt,
           mkVec (Some (resize (Z.to_nat cap') None (default [] (data v)))) (sz v) cap',
           [])
      | ReallocNull errno =>
          if errno =? ENOMEM
          then (Throw, mkVec None (sz v) cap', [])
          else (Ret tt, mkVec None (sz v) cap', [])
      end.

(** [void growTo(Size size, const T& pad)] *)
Definition growTo_pad (r : realloc_result) (size : Z) (pad : T) : M T unit :=
  s ← get_sz;
  if s >=? size then mret tt
  else
    capacity r size ;;
    for_ (Z.to_nat (size - s)) s (fun i => store i pad) ;;
    set_sz size.

(** [void growTo(Size size)] *)
Definition growTo (r : realloc_result) (size : Z) : M T unit :=
  s ← get_sz;
  if s >=? size then mret tt
  else
    capacity r size ;;
    for_ (Z.to_nat (size - s)) s (fun i => ctor i T_default) ;;
    set_sz size.

(** [void clear(bool dealloc = false)] *)
Definition data_is_null : M T bool := fun v =>
  (Ret (match data v with None => true | Some _ => false end), v, []).

(** [free(data), data = NULL, cap = 0] *)
Definition free_data : M T unit := fun v => (Ret tt, mkVec None (sz v) 0, []).

Definition clear (dealloc : bool) : M T unit :=
  null ← data_is_null;
  if (null : bool) then mret tt
  else
    s ← get_sz;
    for_ (Z.to_nat s) 0 dtor ;;
    set_sz 0 ;;
    if dealloc then free_data else mret tt.

(** [explicit vec(Size size)] and [vec(Size size, const T& pad)] *)
Definition vec_sized (r : realloc_result) (size : Z) : res unit * vec T * list access :=
  growTo r size vec_new.
Definition vec_padded (r : realloc_result) (size : Z) (pad : T) :
    res unit * vec T * list access :=
  growTo_pad r size pad vec_new.

(** [~vec() { clear(true); }] *)
Definition vec_delete : M T unit := clear true.

(** *** Stack interface *)

(** [void push(void)] *)
Definition push_default (r : realloc_result) : M T unit :=
  s ← get_sz; c ← get_cap;
  (if s =? c then capacity r (wrap (s + 1)) else mret tt) ;;
  s ← get_sz; set_sz (wrap (s + 1)) ;;
  ctor s T_default.

(** [void push(const T& elem)] *)
Definition push (r : realloc_result) (elem : T) : M T unit :=
  s ← get_sz; c ← get_cap;
  (if s =? c then capacity r (wrap (s + 1)) else mret tt) ;;
  s ← get_sz; set_sz (wrap (s + 1)) ;;
  ctor s elem.

(** [void push_(const T& elem)] *)
Definition push_ (elem : T) : M T unit :=
  s ← get_sz; c ← get_cap;
  assert_ (s <? c) ;;
  set_sz (wrap (s + 1)) ;;
  store s elem.

(** [void pop(void) { assert(sz > 0); data[sz--].~T(); }]: the subscript is
    the value of [sz] before the decrement. *)
Definition pop : M T unit :=
  s ← get_sz;
  assert_ (s >? 0) ;;
  set_sz (wrap (s - 1)) ;;
  dtor s.

(** [T& last(void) { return data[sz-1]; }] *)
Definition last : M T T := s ← get_sz; load (wrap (s - 1)).

(** *** Vector interface: reads and writes through [operator[]] *)

Definition index_read (i : Z) : M T T := load i.
Definition index_write (i : Z) (x : T) : M T unit := store i x.

(** *** [retain] *)

(** The loop of [retain], [n] iterations from [(i, j)]; it returns the final
    [(i, j)]. *)
Fixpoint retain_loop (pred : T -> bool) (n : nat) (i j : Z) : M T (Z * Z) :=
  match n with
  | O => mret (i, j)
  | S n' =>
      value ← load i;
      if pred value
      then store j value ;; retain_loop pred n' (i + 1) (j + 1)
      else retain_loop pred n' (i + 1) j
  end.

Definition retain (pred : T -> bool) : M T unit :=
  s ← size;
  ij ← retain_loop pred (Z.to_nat s) 0 0;
  shrink (wrap ((ij : Z * Z).1 - ij.2)).

(** *** Duplication *)

Definition get_data : M T (option (list (option T))) := fun v => (Ret (data v), v, []).
Definition set_data (d : option (list (option T))) : M T unit := fun v =>
  (Ret tt, mkVec d (sz v) (cap v), []).
Definition set_cap (c : Z) : M T unit := fun v => (Ret tt, mkVec (data v) (sz v) c, []).

(** [void moveTo(vec<T>& dest) { dest.clear(true); dest.data = data;
    dest.sz = sz; dest.cap = cap; data = NULL; sz = 0; cap = 0; }] called
    on the vector [this] with a reference to the vector [dest], statement
    by statement; [dest] may be [this]. *)
Definition moveTo_ref (this dest : nat) : H T unit :=
  on dest (clear true) ;;
  d ← on this get_data; on dest (set_data d) ;;
  s ← on this get_sz; on dest (set_sz s) ;;
  c ← on this get_cap; on dest (set_cap c) ;;
  on this (set_data None) ;;
  on this (set_sz 0) ;;
  on this (set_cap 0).

(** A [for] loop in a member function that works on two vectors. *)
Fixpoint for_ref (n : nat) (from : Z) (body : Z -> H T unit) : H T unit :=
  match n with
  | O => mret tt
  | S n' => body from ;; for_ref n' (from + 1) body
  end.

(** [void copyTo(vec<T>& copy) const { copy.clear(); copy.growTo(sz);
    for (Size i = 0; i < sz; i++) copy[i] = data[i]; }] called on the
    vector [this] with a reference to the vector [copy], which may be
    [this]: [sz] is read when [growTo] is called and again by the loop,
    whose body does not change it. *)
Definition copyTo_ref (r : realloc_result) (this copy : nat) : H T unit :=
  on copy (clear false) ;;
  s ← on this get_sz; on copy (growTo r s) ;;
  s ← on this get_sz;
  for_ref (Z.to_nat s) 0 (fun i => x ← on this (load i); on copy (store i x)).

(** [moveTo] for a destination that is another vector than the source
    ([moveTo_ref] is the general case): the source and the destination
    afterwards, and the slot accesses, which all go to the destination. *)
Definition moveTo (this dest : vec T) : vec T * vec T * list access :=
  let '(_, _, t) := clear true dest in
  (mkVec None 0 0, mkVec (data this) (sz this) (cap this), t).

(** [copyTo] for a copy that is another vector than the source [this]
    ([copyTo_ref] is the general case), as a computation on the copy; the
    trace is the one of [copy]'s slots. *)
Definition copyTo (r : realloc_result) (this : vec T) : M T unit :=
  clear false ;;
  growTo r (sz this) ;;
  for_ (Z.to_nat (sz this)) 0 (fun i =>
    match slot_get i (data this) with
    | Some x => store i x
    | None => (fun c => (Undefined, c, [])) : M T unit
    end).

End Members.

(** The block [data] points to, when there is one, has [cap] slots. *)
Definition buffer_ok {T} (v : vec T) : Prop :=
  match data v with
  | None => True
  | Some buf => Z.of_nat (length buf) = cap v
  end.

(** The live elements of [v] are [l]: [sz] is their number and the first
    [sz] slots hold them, in order. *)
Definition represents {T} (v : vec T) (l : list T) : Prop :=
  sz v = Z.of_nat (length l) /\ sz v <= int_max /\
  take (length l) (default [] (data v)) = Some <$> l.

(** *** The states a vector can be in

    One call of a public member function on a vector.  [OpCopyFrom r src]
    is [src.copyTo(v)] for a source that is another vector; [moveTo]
    involves two vectors and is a rule of its own in [reachable], where
    [moveTo] and [copyTo] between any two vectors, the same or not, have
    their rules as well. *)
Inductive op (T : Type) : Type :=
| OpShrink (nelems : Z)
| OpShrink_ (nelems : Z)
| OpCapacity (r : realloc_result) (min_cap : Z)
| OpGrowToPad (r : realloc_result) (size : Z) (pad : T)
| OpGrowTo (r : realloc_result) (size : Z)
| OpClear (dealloc : bool)
| OpRetain (pred : T -> bool)
| OpPushDefault (r : realloc_result)
| OpPush (r : realloc_result) (elem : T)
| OpPush_ (elem : T)
| OpPop
| OpIndexWrite (i : Z) (x : T)
| OpCopyFrom (r : realloc_result) (src : vec T).
Arguments OpShrink {T} _.
Arguments OpShrink_ {T} _.
Arguments OpCapacity {T} _ _.
Arguments OpGrowToPad {T} _ _ _.
Arguments OpGrowTo {T} _ _.
Arguments OpClear {T} _.
Arguments OpRetain {T} _.
Arguments OpPushDefault {T} _.
Arguments OpPush {T} _ _.
Arguments OpPush_ {T} _.
Arguments OpPop {T}.
Arguments OpIndexWrite {T} _ _.
Arguments OpCopyFrom {T} _ _.

Definition run {T} (T_default : T) (o : op T) : M T unit :=
  match o with
  | OpShrink n => shrink n
  | OpShrink_ n => shrink_ n
  | OpCapacity r n => capacity r n
  | OpGrowToPad r n pad => growTo_pad r n pad
  | OpGrowTo r n => growTo T_default r n
  | OpClear d => clear d
  | OpRetain pred => retain pred
  | OpPushDefault r => push_default T_default r
  | OpPush r x => push r x
  | OpPush_ x => push_ x
  | OpPop => pop
  | OpIndexWrite i x => index_write i x
  | OpCopyFrom r src => copyTo T_default r src
  end.

(** The states reached from [vec()] by member calls, however a call ends:
    the state a call leaves behind when it throws or stops at an assertion
    is counted as well.  The last two rules are [moveTo] and [copyTo] among
    any vectors reached so far, the two of a call being the same vector or
    not. *)
Inductive reachable {T} (T_default : T) : vec T -> Prop :=
| reach_new : reachable T_default vec_new
| reach_run o v :
    reachable T_default v -> reachable T_default (state (run T_default o v))
| reach_moveTo_this this dest :
    reachable T_default this -> reachable T_default dest ->
    reachable T_default (moveTo this dest).1.1
| reach_moveTo_dest this dest :
    reachable T_default this -> reachable T_default dest ->
    reachable T_default (moveTo this dest).1.2
| reach_moveTo_ref h this dest v :
    (forall w, w ∈ h -> reachable T_default w) ->
    v ∈ objects (moveTo_ref this dest h) -> reachable T_default v
| reach_copyTo_ref r h this copy v :
    (forall w, w ∈ h -> reachable T_default w) ->
    v ∈ objects (copyTo_ref T_default r this copy h) -> reachable T_default v.

(** The invariant of the capacity: an even [int] that is not negative. *)
Definition cap_inv {T} (v : vec T) : Prop :=
  0 <= cap v <= int_max /\ Z.even (cap v) = true.

(** A computation that maintains it, however it ends. *)
Definition keeps {T A} (m : M T A) : Prop :=
  forall v, cap_inv v -> cap_inv (state (m v)).

(** The same of a computation on several vectors. *)
Definition keeps_all {T A} (m : H T A) : Prop :=
  forall h, Forall cap_inv h -> Forall cap_inv (objects (m h)).

(** A vector in the state the member functions keep it in when nothing
    goes wrong: its live elements are [l], [sz <= cap], and the block has
    exactly [cap] slots (none when [data] is [NULL]). *)
Definition well_formed {T} (v : vec T) (l : list T) : Prop :=
  represents v l /\ sz v <= cap v /\ cap v <= int_max /\
  Z.of_nat (length (default [] (data v))) = cap v.

(** The behaviour of [capacity(min_cap)] on a vector with [cap < min_cap]
    as the specification words it: a normal return with the new capacity at
    least [min_cap] and the stored elements kept, or the exception; the
    exception whenever the increment exceeds [size_max - cap], and whenever
    the allocation fails. *)
Definition capacity_as_specified {T} (r : realloc_result) (min_cap : Z) (v : vec T) : Prop :=
  cap v < min_cap ->
  let x := capacity r min_cap v in
  ((outcome x = Ret tt /\ min_cap <= cap (state x) /\
    forall i, 0 <= i < sz v -> slot_get i (data (state x)) = slot_get i (data v))
   \/ outcome x = Throw) /\
  (capacity_add (cap v) min_cap > size_max - cap v -> outcome x = Throw) /\
  (forall errno, r = ReallocNull errno -> outcome x = Throw).

End Vec.

(** ** Output on [stderr]

    One entry per call of [fprintf] or [fputc], with the format string and
    the arguments as the call passes them; [%] conversions are not
    expanded. *)

Module Stdio.

Inductive printf_arg : Type :=
| ArgStr (s : string)     (* %s *)
| ArgInt (z : Z)          (* %d, %ld, PRIi64 *)
| ArgDouble (x : float)   (* %g *)
| ArgChar (c : ascii).    (* %c *)

Inductive output : Type :=
| Fprintf (format : string) (args : list printf_arg)
| Fputc (c : ascii).

(** The characters a C literal writes as backslash-n and backslash-quote. *)
Definition nl : string := String "010"%char EmptyString.
Definition dq : string := String "034"%char EmptyString.

End Stdio.

(** ** [Assert.h], [Assert.cc] *)

Module Assert.
Import Stdio.

(** How the evaluation of an assertion ends; [abort()] does not return. *)
Inductive outcome (S : Type) : Type :=
| Continues (s : S)
| Aborted (stderr : list output).
Arguments Continues {S} _.
Arguments Aborted {S} _.

(** [[noreturn]] void AssertionFailure(assertion, function, file, line,
    fmt = nullptr, ...)]; [ap] are the variable arguments. *)
Definition AssertionFailure {S} (assertion function file : string) (line : Z)
    (fmt : option string) (ap : list printf_arg) : outcome S :=
  Aborted
    ([Fprintf (nl +:+ "~~~ Assertion failed: " +:+ dq +:+ "%s" +:+ dq +:+ " ~~~" +:+ nl)
        [ArgStr assertion]] ++
     match fmt with
     | Some f => [Fprintf f ap; Fputc "010"%char]
     | None => []
     end ++
     [Fprintf ("in function `%s`, file %s, line %ld" +:+ nl)
        [ArgStr function; ArgStr file; ArgInt line]]).

(** The condition [c] of an assertion is an expression of the program: its
    evaluation gives a truth value and may change the program's state.

    [MINISAT_ASSERT_TEST(c)] is [(1)] under NDEBUG and [(!!(c))] otherwise
    (the [__builtin_expect] variant defines [MINISAT_ASSERT_TESTX], which
    nothing uses). *)
Definition MINISAT_ASSERT_TEST {S} (NDEBUG : bool) (c : S -> bool * S) : S -> bool * S :=
  if NDEBUG then fun s => (true, s)
  else fun s => let '(b, s') := c s in (negb (negb b), s').

(** [MINISAT_ASSERT(c, ...)]: [((void)0)] under NDEBUG, otherwise
    [(MINISAT_ASSERT_TEST(c) ? (void)0 : AssertionFailure(#c, __func__,
    __FILE__, __LINE__, ...))]. [c_text] is [#c]. *)
Definition MINISAT_ASSERT {S} (NDEBUG : bool) (c_text : string) (c : S -> bool * S)
    (func file : string) (line : Z) (fmt : option string) (ap : list printf_arg) :
    S -> outcome S :=
  if NDEBUG then fun s => Continues s
  else fun s =>
    let '(b, s') := MINISAT_ASSERT_TEST false c s in
    if b then Continues s'
    else AssertionFailure c_text func file line fmt ap.

End Assert.

(** ** [Options.cc] *)

Module Options.
Import Int Stdio.

(** *** Library functions *)

(** Modelled from the spec: [match] of ParseUtils.h is not among the
    sources and the specification does not describe it; this is the
    function the calls in Options.cc rely on.  [match(in, str)] is true
    when [in] starts with [str], and then advances [in] past it; otherwise
    it is false and leaves [in] where it was.  Here [Some rest] is a match
    that leaves [in] at [rest]. *)
Fixpoint match_ (in_ : string) (str : string) {struct str} : option string :=
  match str with
  | EmptyString => Some in_
  | String c str' =>
      match in_ with
      | String d in' => if Ascii.eqb d c then match_ in' str' else None
      | EmptyString => None
      end
  end.

(** <cctype> in the "C" locale. *)
Definition toupper (c : ascii) : ascii :=
  let n := N_of_ascii c in
  if ((97 <=? n) && (n <=? 122))%N then ascii_of_N (n - 32) else c.

Definition tolower (c : ascii) : ascii :=
  let n := N_of_ascii c in
  if ((65 <=? n) && (n <=? 90))%N then ascii_of_N (n + 32) else c.

Definition isspace (c : ascii) : bool :=
  let n := N_of_ascii c in
  ((n =? 32) || ((9 <=? n) && (n <=? 13)))%N.

Definition isdigit (c : ascii) : bool :=
  let n := N_of_ascii c in ((48 <=? n) && (n <=? 57))%N.

(** The loop [for (p = str; *p != 0; ++p) acc.push_back(f(p[0]))]. *)
Fixpoint push_back_each (f : ascii -> ascii) (p : string) (acc : string) : string :=
  match p with
  | EmptyString => acc
  | String c p' => push_back_each f p' (acc +:+ String (f c) EmptyString)
  end.

(** [strtol(str, &end, 10)] and [strtoll(str, &end, 10)] of the C library:
    white space, an optional sign, decimal digits.  The result is the value,
    brought into the range of the result type when it is outside, and what
    is left of the string at [end]; without a digit after the sign nothing
    is converted, the value is 0 and [end] is [str]. *)
Fixpoint skip_space (s : string) : string :=
  match s with
  | String c s' => if isspace c then skip_space s' else s
  | EmptyString => s
  end.

Fixpoint digits (s : string) (acc : Z) : Z * string :=
  match s with
  | String c s' =>
      if isdigit c then digits s' (10 * acc + (Z.of_N (N_of_ascii c) - 48))
      else (acc, s)
  | EmptyString => (acc, s)
  end.

Definition strto (lo hi : Z) (str : string) : Z * string :=
  let s1 := skip_space str in
  let '(neg, s2) :=
    match s1 with
    | String "-" r => (true, r)
    | String "+" r => (false, r)
    | _ => (false, s1)
    end in
  match s2 with
  | String c _ =>
      if isdigit c then
        let '(n, rest) := digits s2 0 in
        let v := if neg then - n else n in
        (Z.max lo (Z.min hi v), rest)
      else (0, str)
  | EmptyString => (0, str)
  end.

(** [long] and [long long] are 64 bits wide (LP64). *)
Definition long_min : Z := - 2 ^ 63.
Definition long_max : Z := 2 ^ 63 - 1.
Definition strtol : string -> Z * string := strto long_min long_max.
Definition strtoll : string -> Z * string := strto long_min long_max.

Definition INT32_MIN : Z := int_min.
Definition INT32_MAX : Z := int_max.
Definition INT64_MIN : Z := long_min.
Definition INT64_MAX : Z := long_max.
(** [PRIi64] of <cinttypes> where [int64_t] is [long]. *)
Definition PRIi64 : string := "li".

(** *** The option classes *)

(** A [const char*] that the code compares as a pointer: the address it
    holds and the characters found there.  Two string literals with the
    same characters need not have the same address. *)
Record c_str : Type := { c_addr : Z; c_chars : string }.

Record Option_base : Type := {
  name : string;
  description : string;
  category : c_str;
  type_name : c_str
}.

Record DoubleRange : Type := {
  dr_begin : float; dr_end : float;
  begin_inclusive : bool; end_inclusive : bool
}.
Record IntRange : Type := { ir_begin : Z; ir_end : Z }.
Record Int64Range : Type := { lr_begin : Z; lr_end : Z }.

Record DoubleOption : Type :=
  { d_base : Option_base; d_range : DoubleRange; d_value : float }.
Record IntOption : Type :=
  { i_base : Option_base; i_range : IntRange; i_value : Z }.
Record Int64Option : Type :=
  { l_base : Option_base; l_range : Int64Range; l_value : Z }.
(** [const char* value]: [None] is the null pointer. *)
Record StringOption : Type :=
  { s_base : Option_base; s_value : option string }.
Record BoolOption : Type :=
  { b_base : Option_base; b_value : bool }.

(** An object of one of the five classes derived from [Option]. *)
Inductive Option : Type :=
| ODouble (o : DoubleOption)
| OInt (o : IntOption)
| OInt64 (o : Int64Option)
| OString (o : StringOption)
| OBool (o : BoolOption).

Definition base (o : Option) : Option_base :=
  match o with
  | ODouble o => d_base o
  | OInt o => i_base o
  | OInt64 o => l_base o
  | OString o => s_base o
  | OBool o => b_base o
  end.

(** How a function that may call [exit] ends.  [Hang] is a loop that never
    ends. *)
Inductive run (A : Type) : Type :=
| Return (a : A) (err : list output)
| Exit (code : Z) (err : list output)
| Hang (err : list output).
Arguments Return {A} _ _.
Arguments Exit {A} _ _.
Arguments Hang {A} _.

(** The process-wide state behind [Option::getOptionList()],
    [Option::getHelpPrefixString()] and [Option::getUsageString()]. *)
Record globals : Type := {
  OptionList : list Option;
  HelpPrefixString : string;
  UsageString : option string
}.

Section Parsing.

(** [strtod(str, &end)] of the C library: the value and what is left at
    [end]. *)
Variable strtod : string -> float * string.

(** [sort(Option::getOptionList(), Option::OptionLt())]: Sort.h and
    [OptionLt] are not among the sources. *)
Variable sort_options : list Option -> list Option.

(** *** [parseValue] *)

(** The second [fprintf] of a rejected value. *)
Definition for_target (env_name : option string) (n : string) : output :=
  match env_name with
  | Some e => Fprintf (" for environment variable %s." +:+ nl) [ArgStr e]
  | None => Fprintf (" for option " +:+ dq +:+ "%s" +:+ dq +:+ "." +:+ nl) [ArgStr n]
  end.

(** [tmp >= range.end && (!range.end_inclusive || tmp != range.end)] *)
Definition too_large (r : DoubleRange) (tmp : float) : bool :=
  PrimFloat.leb (dr_end r) tmp && (negb (end_inclusive r) || negb (PrimFloat.eqb tmp (dr_end r))).

(** [tmp <= range.begin && (!range.begin_inclusive || tmp != range.begin)] *)
Definition too_small (r : DoubleRange) (tmp : float) : bool :=
  PrimFloat.leb tmp (dr_begin r) && (negb (begin_inclusive r) || negb (PrimFloat.eqb tmp (dr_begin r))).

Definition DoubleOption_parseValue (str : string) (env_name : option string)
    (strict : bool) (o : DoubleOption) : bool * DoubleOption * list output :=
  let '(tmp, end_) := strtod str in
  let prefix := if strict then "WARN" else "ERROR" in
  let reject why :=
    (false, o,
     [Fprintf ("%s! value <%s> is " +:+ why) [ArgStr prefix; ArgStr str];
      for_target env_name (name (d_base o))]) in
  if negb (String.eqb end_ EmptyString) then reject "invalid"
  else if too_large (d_range o) tmp then reject "too large"
  else if too_small (d_range o) tmp then reject "too small"
  else (true, {| d_base := d_base o; d_range := d_range o; d_value := tmp |}, []).

(** [int32_t tmp = strtol(str, &end, 10);]: the [long] is converted to 32
    bits.  [strtol] always sets [end], so only [*end != '\0'] can make the
    first test true. *)
Definition IntOption_parseValue (str : string) (env_name : option string)
    (strict : bool) (o : IntOption) : bool * IntOption * list output :=
  let '(l, end_) := strtol str in
  let tmp := wrap l in
  let prefix := if strict then "WARN" else "ERROR" in
  let reject why :=
    (false, o,
     [Fprintf ("%s! value <%s> is " +:+ why) [ArgStr prefix; ArgStr str];
      for_target env_name (name (i_base o))]) in
  if negb (String.eqb end_ EmptyString) then reject "invalid"
  else if tmp >? ir_end (i_range o) then reject "too large"
  else if tmp <? ir_begin (i_range o) then reject "too small"
  else (true, {| i_base := i_base o; i_range := i_range o; i_value := tmp |}, []).

Definition Int64Option_parseValue (str : string) (env_name : option string)
    (strict : bool) (o : Int64Option) : bool * Int64Option * list output :=
  let '(tmp, end_) := strtoll str in
  let prefix := if strict then "WARN" else "ERROR" in
  let reject why :=
    (false, o,
     [Fprintf ("%s! value <%s> is " +:+ why) [ArgStr prefix; ArgStr str];
      for_target env_name (name (l_base o))]) in
  if negb (String.eqb end_ EmptyString) then reject "invalid"
  else if tmp >? lr_end (l_range o) then reject "too large"
  else if tmp <? lr_begin (l_range o) then reject "too small"
  else (true, {| l_base := l_base o; l_range := l_range o; l_value := tmp |}, []).

Definition StringOption_parseValue (str : string) (env_name : option string)
    (strict : bool) (o : StringOption) : bool * StringOption * list output :=
  (true, {| s_base := s_base o; s_value := Some str |}, []).

Definition true_values : list string := ["true"; "yes"; "on"; "1"].
Definition false_values : list string := ["false"; "no"; "off"; "0"].

(** [std::find(std::begin(a), std::end(a), s) != std::end(a)] *)
Definition found (a : list string) (s : string) : bool :=
  existsb (String.eqb s) a.

Definition BoolOption_parseValue (str : string) (env_name : option string)
    (strict : bool) (o : BoolOption) : bool * BoolOption * list output :=
  let str_lower := push_back_each tolower str EmptyString in
  if found true_values str_lower
  then (true, {| b_base := b_base o; b_value := true |}, [])
  else if found false_values str_lower
  then (true, {| b_base := b_base o; b_value := false |}, [])
  else
    (false, o,
     [Fprintf "%s! value <%s> is invalid for "
        [ArgStr (if strict then "ERROR" else "WARN"); ArgStr str];
      match env_name with
      | Some e => Fprintf ("environment variable %s." +:+ nl) [ArgStr e]
      | None =>
          Fprintf ("option " +:+ dq +:+ "%s" +:+ dq +:+ "." +:+ nl)
            [ArgStr (name (b_base o))]
      end]).

(** The virtual [parseValue(str, env_name, strict)]. *)
Definition parseValue (str : string) (env_name : option string) (strict : bool)
    (o : Option) : bool * Option * list output :=
  match o with
  | ODouble d => let '(b, d', e) := DoubleOption_parseValue str env_name strict d in (b, ODouble d', e)
  | OInt i => let '(b, i', e) := IntOption_parseValue str env_name strict i in (b, OInt i', e)
  | OInt64 l => let '(b, l', e) := Int64Option_parseValue str env_name strict l in (b, OInt64 l', e)
  | OString s => let '(b, s', e) := StringOption_parseValue str env_name strict s in (b, OString s', e)
  | OBool x => let '(b, x', e) := BoolOption_parseValue str env_name strict x in (b, OBool x', e)
  end.

(** *** [Option::parseEnv] *)

Definition env_var_name (n : string) : string :=
  push_back_each (fun c => if Ascii.eqb c "-" then "_"%char else toupper c) n "MINISAT_".

(** [getenv] reads the environment [env]. *)
Definition parseEnv (env : gmap string string) (o : Option) : bool * Option * list output :=
  let env_name := env_var_name (name (base o)) in
  match env !! env_name with
  | Some env_value =>
      let '(ok, o', e) := parseValue env_value (Some env_name) false o in
      if ok then (true, o', e)
      else
        (false, o',
         e ++ [Fprintf "WARN! ignoring environment variable %s=%s"
                 [ArgStr env_name; ArgStr env_value]])
  | None => (false, o, [])
  end.

(** *** [parse] *)

(** [Option::parse]; the call [parseValue(span)] leaves [env_name] and
    [strict] to their defaults, a null pointer and [true]. *)
Definition Option_parse (str : string) (o : Option) : run (bool * Option) :=
  match match_ str "-" with
  | None => Return (false, o) []
  | Some span =>
      match match_ span (name (base o)) with
      | None => Return (false, o) []
      | Some span =>
          match match_ span "=" with
          | None => Return (false, o) []
          | Some span =>
              let '(ok, o', e) := parseValue span None true o in
              if ok then Return (true, o') e else Exit 1 e
          end
      end
  end.

Definition BoolOption_parse (str : string) (o : BoolOption) : run (bool * BoolOption) :=
  match match_ str "-" with
  | None => Return (false, o) []
  | Some span =>
      match match_ span "no-" with
      | Some span =>
          if String.eqb span (name (b_base o))
          then Return (true, {| b_base := b_base o; b_value := false |}) []
          else Return (false, o) []
      | None =>
          match match_ span (name (b_base o)) with
          | None => Return (false, o) []
          | Some span =>
              match match_ span "=" with
              | Some span =>
                  let '(ok, o', e) := BoolOption_parseValue span None true o in
                  if ok then Return (true, o') e else Exit 1 e
              | None =>
                  if String.eqb span EmptyString
                  then Return (true, {| b_base := b_base o; b_value := true |}) []
                  else Return (false, o) []
              end
          end
      end
  end.

(** The virtual [parse(str)]: [BoolOption] overrides it. *)
Definition parse (str : string) (o : Option) : run (bool * Option) :=
  match o with
  | OBool x =>
      match BoolOption_parse str x with
      | Return (b, x') e => Return (b, OBool x') e
      | Exit c e => Exit c e
      | Hang e => Hang e
      end
  | _ => Option_parse str o
  end.

(** *** [help] *)

Definition verbose_help (verbose : bool) (b : Option_base) : list output :=
  if verbose
  then [Fprintf (nl +:+ "        %s" +:+ nl) [ArgStr (description b)]; Fprintf nl []]
  else [].

Definition DoubleOption_help (verbose : bool) (o : DoubleOption) : list output :=
  [Fprintf ("  -%-12s = %-8s %c%4.2g .. %4.2g%c (default: %g)" +:+ nl)
     [ArgStr (name (d_base o)); ArgStr (c_chars (type_name (d_base o)));
      ArgChar (if begin_inclusive (d_range o) then "[" else "(")%char;
      ArgDouble (dr_begin (d_range o)); ArgDouble (dr_end (d_range o));
      ArgChar (if end_inclusive (d_range o) then "]" else ")")%char;
      ArgDouble (d_value o)]] ++
  verbose_help verbose (d_base o).

Definition IntOption_help (verbose : bool) (o : IntOption) : list output :=
  [Fprintf "  -%-12s = %-8s [" [ArgStr (name (i_base o)); ArgStr (c_chars (type_name (i_base o)))];
   (if ir_begin (i_range o) =? INT32_MIN then Fprintf "imin" []
    else Fprintf "%4d" [ArgInt (ir_begin (i_range o))]);
   Fprintf " .. " [];
   (if ir_end (i_range o) =? INT32_MAX then Fprintf "imax" []
    else Fprintf "%4d" [ArgInt (ir_end (i_range o))]);
   Fprintf ("] (default: %d)" +:+ nl) [ArgInt (i_value o)]] ++
  verbose_help verbose (i_base o).

Definition Int64Option_help (verbose : bool) (o : Int64Option) : list output :=
  [Fprintf "  -%-12s = %-8s [" [ArgStr (name (l_base o)); ArgStr (c_chars (type_name (l_base o)))];
   (if lr_begin (l_range o) =? INT64_MIN then Fprintf "imin" []
    else Fprintf ("%4" +:+ PRIi64) [ArgInt (lr_begin (l_range o))]);
   Fprintf " .. " [];
   (if lr_end (l_range o) =? INT64_MAX then Fprintf "imax" []
    else Fprintf ("%4" +:+ PRIi64) [ArgInt (lr_end (l_range o))]);
   Fprintf ("] (default: %" +:+ PRIi64 +:+ ")" +:+ nl) [ArgInt (l_value o)]] ++
  verbose_help verbose (l_base o).

Definition StringOption_help (verbose : bool) (o : StringOption) : list output :=
  [Fprintf ("  -%-10s = %8s" +:+ nl) [ArgStr (name (s_base o));
     ArgStr (c_chars (type_name (s_base o)))]] ++
  verbose_help verbose (s_base o).

(** [for (uint32_t i = 0; i < 32 - strlen(name) * 2; i++) fprintf(stderr, " ");]
    The bound is computed in [size_t]: for a name of more than 16
    characters it wraps to a value no [uint32_t] reaches, and the loop does
    not end ([None]). *)
Definition BoolOption_help (verbose : bool) (o : BoolOption) : option (list output) :=
  let len := Z.of_nat (String.length (name (b_base o))) in
  if 32 - len * 2 <? 0 then None
  else
    Some
      ([Fprintf "  -%s, -no-%s" [ArgStr (name (b_base o)); ArgStr (name (b_base o))]] ++
       replicate (Z.to_nat (32 - len * 2)) (Fprintf " " []) ++
       [Fprintf " " [];
        Fprintf ("(default: %s)" +:+ nl) [ArgStr (if b_value o then "on" else "off")]] ++
       verbose_help verbose (b_base o)).

(** The virtual [help(verbose)]. *)
Definition help (verbose : bool) (o : Option) : option (list output) :=
  match o with
  | ODouble d => Some (DoubleOption_help verbose d)
  | OInt i => Some (IntOption_help verbose i)
  | OInt64 l => Some (Int64Option_help verbose l)
  | OString s => Some (StringOption_help verbose s)
  | OBool b => BoolOption_help verbose b
  end.

(** *** [printUsageAndExit] *)

(** The loop over the sorted options.  [prev_cat] and [prev_type] are
    pointers and start as null pointers ([None]); [cat != prev_cat] and
    [type != prev_type] compare the addresses, not the characters. *)
Fixpoint usage_loop (verbose : bool) (opts : list Option)
    (prev_cat prev_type : option Z) (err : list output) : run unit :=
  match opts with
  | [] => Return tt err
  | o :: opts' =>
      let cat := category (base o) in
      let type := type_name (base o) in
      let header :=
        if negb (bool_decide (Some (c_addr cat) = prev_cat))
        then [Fprintf (nl +:+ "%s OPTIONS:" +:+ nl +:+ nl) [ArgStr (c_chars cat)]]
        else if negb (bool_decide (Some (c_addr type) = prev_type))
        then [Fprintf nl []]
        else [] in
      match help verbose o with
      | None => Hang (err ++ header)
      | Some h =>
          usage_loop verbose opts' (Some (c_addr cat)) (Some (c_addr type))
            (err ++ header ++ h)
      end
  end.

Definition printUsageAndExit {A} (argv : list string) (verbose : bool) (g : globals) : run A :=
  let usage :=
    match UsageString g with
    | Some u => [Fprintf u [ArgStr (default EmptyString (argv !! 0%nat))]]
    | None => []
    end in
  match usage_loop verbose (sort_options (OptionList g)) None None usage with
  | Return _ err =>
      Exit 0
        (err ++
         [Fprintf (nl +:+ "HELP OPTIONS:" +:+ nl +:+ nl) [];
          Fprintf ("  --%shelp        Print help message." +:+ nl) [ArgStr (HelpPrefixString g)];
          Fprintf ("  --%shelp-verb   Print verbose help message." +:+ nl) [ArgStr (HelpPrefixString g)];
          Fprintf nl []])
  | Exit c err => Exit c err
  | Hang err => Hang err
  end.

(** *** [parseOptions] *)

(** [r] after the output [err]. *)
Definition after {A} (err : list output) (r : run A) : run A :=
  match r with
  | Return a e => Return a (err ++ e)
  | Exit c e => Exit c (err ++ e)
  | Hang e => Hang (err ++ e)
  end.


(** [for (k = 0; !parsed_ok && k < Option::getOptionList().size(); k++)
      parsed_ok = Option::getOptionList()[k]->parse(argv[i]);] *)
Fixpoint try_options (arg : string) (opts : list Option) : run (bool * list Option) :=
  match opts with
  | [] => Return (false, []) []
  | o :: rest =>
      match parse arg o with
      | Exit c e => Exit c e
      | Hang e => Hang e
      | Return (true, o') e => Return (true, o' :: rest) e
      | Return (false, o') e =>
          match try_options arg rest with
          | Return (b, rest') e' => Return (b, o' :: rest') (e ++ e')
          | Exit c e' => Exit c (e ++ e')
          | Hang e' => Hang (e ++ e')
          end
      end
  end.

(** [match(str, "--") && match(str, Option::getHelpPrefixString()) &&
    match(str, "help")]: what is left of [str] after the three. *)
Definition help_request (g : globals) (str : string) : option string :=
  match match_ str "--" with
  | None => None
  | Some str1 =>
      match match_ str1 (HelpPrefixString g) with
      | None => None
      | Some str2 => match_ str2 "help"
      end
  end.

(** The loop of [parseOptions] from argument [i] on: [args] are
    [argv[i..argc)], which the loop has not written to, since it writes
    [argv[j]] with [j <= i] only.  It returns the final [j] with the array
    and the options.

    [match(argv[i], "-")] is given the array entry itself, by reference:
    when it matches it has moved [argv[i]] past the ['-'], so the
    [fprintf] that follows prints the flag without it.  (When [strict] is
    false the call is not made, and when it does not match the entry is
    left alone: an entry kept by [argv[j++] = argv[i]] is as it came.) *)
Fixpoint parseOptions_loop (strict : bool) (hp : string) (us : option string)
    (args : list string) (j : nat) (argv : list string) (opts : list Option)
    (err : list output) : run (nat * list string * list Option) :=
  match args with
  | [] => Return (j, argv, opts) err
  | arg :: args' =>
      let g := {| OptionList := opts; HelpPrefixString := hp; UsageString := us |} in
      match help_request g arg with
      | Some str =>
          if String.eqb str EmptyString
          then after err (printUsageAndExit argv false g)
          else
            match match_ str "-verb" with
            | Some _ => after err (printUsageAndExit argv true g)
            | None => parseOptions_loop strict hp us args' j argv opts err
            end
      | None =>
          match try_options arg opts with
          | Exit c e => Exit c (err ++ e)
          | Hang e => Hang (err ++ e)
          | Return (true, opts') e =>
              parseOptions_loop strict hp us args' j argv opts' (err ++ e)
          | Return (false, opts') e =>
              match (if strict then match_ arg "-" else None) with
              | Some flag =>
                  Exit 1
                    (err ++ e ++
                     [Fprintf ("ERROR! Unknown flag " +:+ dq +:+ "%s" +:+ dq +:+
                               ". Use '--%shelp' for help." +:+ nl)
                        [ArgStr flag; ArgStr hp]])
              | None =>
                  parseOptions_loop strict hp us args' (S j) (<[j := arg]> argv) opts' (err ++ e)
              end
          end
      end
  end.

(** [void parseOptions(int& argc, char** argv, bool strict)], [argv]
    holding the [argc] arguments: the new [argc], [argv] as the loop left
    it, and the options.  The loop starts at [i = j = 1] and ends with
    [i = max(1, argc)]; then [argc -= (i - j)]. *)
Definition parseOptions (strict : bool) (argv : list string) (g : globals) :
    run (nat * list string * list Option) :=
  match parseOptions_loop strict (HelpPrefixString g) (UsageString g)
          (drop 1 argv) 1 argv (OptionList g) [] with
  | Return (j, argv', opts) err =>
      Return ((length argv - (Nat.max 1 (length argv) - j))%nat, argv', opts) err
  | Exit code err => Exit code err
  | Hang err => Hang err
  end.

End Parsing.

(** *** The specification's wording *)

(** A string, character by character. *)
Fixpoint map_string (f : ascii -> ascii) (s : string) : string :=
  match s with
  | EmptyString => EmptyString
  | String c s' => String (f c) (map_string f s')
  end.

(** [n] with every ['-'] replaced by ['_'] and every other character
    converted to upper case. *)
Definition upper_snake (n : string) : string :=
  map_string (fun c => if Ascii.eqb c "-" then "_"%char else toupper c) n.

Definition set_bool (o : BoolOption) (b : bool) : BoolOption :=
  {| b_base := b_base o; b_value := b |}.

(** What [parse] does with the value of ["-N=v"]. *)
Definition parsed_value (v : string) (o : BoolOption) : run (bool * BoolOption) :=
  if found true_values (map_string tolower v)
  then Return (true, set_bool o true) []
  else if found false_values (map_string tolower v)
  then Return (true, set_bool o false) []
  else
    Exit 1
      [Fprintf "%s! value <%s> is invalid for " [ArgStr "ERROR"; ArgStr v];
       Fprintf ("option " +:+ dq +:+ "%s" +:+ dq +:+ "." +:+ nl) [ArgStr (name (b_base o))]].

(** What the specification says of [BoolOption::parse] for the option [o]
    named [N]: ["-N"] sets it, ["-no-N"] clears it, ["-N=v"] sets or clears
    it when [v] is, in lower case, one of the true or of the false values,
    and every string of none of the three forms is rejected with the value
    unchanged. *)
Definition BoolOption_parse_as_specified (o : BoolOption) : Prop :=
  forall str,
    (str = "-" +:+ name (b_base o) ->
       BoolOption_parse str o = Return (true, set_bool o true) []) /\
    (str = "-no-" +:+ name (b_base o) ->
       BoolOption_parse str o = Return (true, set_bool o false) []) /\
    (forall v, str = "-" +:+ name (b_base o) +:+ "=" +:+ v ->
       (found true_values (map_string tolower v) = true ->
          BoolOption_parse str o = Return (true, set_bool o true) []) /\
       (found false_values (map_string tolower v) = true ->
          BoolOption_parse str o = Return (true, set_bool o false) [])) /\
    (str <> "-" +:+ name (b_base o) ->
     str <> "-no-" +:+ name (b_base o) ->
     (forall v, str <> "-" +:+ name (b_base o) +:+ "=" +:+ v) ->
       BoolOption_parse str o = Return (false, o) []).

(** *** Values that parse for an option's type *)

Fixpoint all_digits (s : string) : bool :=
  match s with
  | EmptyString => true
  | String c s' => isdigit c && all_digits s'
  end.

(** The number a string of digits denotes, read after the digits that made
    [acc]. *)
Fixpoint digits_value (s : string) (acc : Z) : Z :=
  match s with
  | EmptyString => acc
  | String c s' => digits_value s' (10 * acc + (Z.of_N (N_of_ascii c) - 48))
  end.

(** The integer a string denotes when it is a decimal integer and nothing
    else: white space, an optional sign, then digits, one at least, up to
    the end of the string. *)
Definition decimal (str : string) : option Z :=
  let s1 := skip_space str in
  let '(neg, s2) :=
    match s1 with
    | String "-" r => (true, r)
    | String "+" r => (false, r)
    | _ => (false, s1)
    end in
  match s2 with
  | EmptyString => None
  | String _ _ =>
      if all_digits s2
      then Some (if neg then - digits_value s2 0 else digits_value s2 0)
      else None
  end.

(** [x] lies in the range, each end counted or not as its flag says. *)
Definition in_double_range (r : DoubleRange) (x : float) : bool :=
  (if begin_inclusive r then PrimFloat.leb (dr_begin r) x
   else PrimFloat.ltb (dr_begin r) x) &&
  (if end_inclusive r then PrimFloat.leb x (dr_end r)
   else PrimFloat.ltb x (dr_end r)).

(** The option with the value [str] stands for, when [str] parses for the
    option's type: a decimal integer of the range for [IntOption] and
    [Int64Option]; a number [strtod] reads up to the end of the string, of
    the range, for [DoubleOption]; any string for [StringOption]; one of
    the words for true or for false, in any case of letters, for
    [BoolOption]. *)
Definition parses (strtod : string -> float * string) (str : string) (o : Option) :
    option Option :=
  match o with
  | ODouble d =>
      let '(x, rest) := strtod str in
      if String.eqb rest EmptyString && in_double_range (d_range d) x
      then Some (ODouble {| d_base := d_base d; d_range := d_range d; d_value := x |})
      else None
  | OInt i =>
      z ← decimal str;
      if (ir_begin (i_range i) <=? z) && (z <=? ir_end (i_range i))
      then Some (OInt {| i_base := i_base i; i_range := i_range i; i_value := z |})
      else None
  | OInt64 l =>
      z ← decimal str;
      if (lr_begin (l_range l) <=? z) && (z <=? lr_end (l_range l))
      then Some (OInt64 {| l_base := l_base l; l_range := l_range l; l_value := z |})
      else None
  | OString x => Some (OString {| s_base := s_base x; s_value := Some str |})
  | OBool b =>
      if found true_values (map_string tolower str)
      then Some (OBool (set_bool b true))
      else if found false_values (map_string tolower str)
      then Some (OBool (set_bool b false))
      else None
  end.

(** [str] is a regular input of the option: for an integer option it is
    not the empty string, and if it is a decimal integer the type of the
    value ([int32_t], [int64_t]) can hold it; for a [DoubleOption],
    [strtod] does not read it as a NaN, the ends of the range being no NaN
    either.  Every string is a regular input of the other options. *)
Definition regular (strtod : string -> float * string) (str : string) (o : Option) : Prop :=
  match o with
  | ODouble d =>
      PrimFloat.is_nan (strtod str).1 = false /\
      PrimFloat.is_nan (dr_begin (d_range d)) = false /\
      PrimFloat.is_nan (dr_end (d_range d)) = false
  | OInt _ =>
      str <> EmptyString /\ forall z, decimal str = Some z -> int_min <= z <= int_max
  | OInt64 _ =>
      str <> EmptyString /\ forall z, decimal str = Some z -> long_min <= z <= long_max
  | _ => True
  end.



(** What the specification says of [parseEnv]: it consults the variable
    "MINISAT_" followed by the name in upper snake case and no other; when
    the variable is set and its value parses for the option's type, the
    option's value becomes the parsed value and the result is true;
    otherwise the option is unchanged and the result is false. *)
Definition parseEnv_as_specified (strtod : string -> float * string)
    (env : gmap string string) (o : Option) : Prop :=
  (forall env' : gmap string string,
     env' !! ("MINISAT_" +:+ upper_snake (name (base o))) =
     env !! ("MINISAT_" +:+ upper_snake (name (base o))) ->
     parseEnv strtod env' o = parseEnv strtod env o) /\
  (parseEnv strtod env o).1 =
    match env !! ("MINISAT_" +:+ upper_snake (name (base o))) with
    | Some v =>
        match parses strtod v o with
        | Some o' => (true, o')
        | None => (false, o)
        end
    | None => (false, o)
    end.

(** No option parses [arg]: each [parse] returns false. *)
Definition rejected_by (strtod : string -> float * string) (arg : string)
    (opts : list Option) : Prop :=
  Forall (fun o => exists o' e, parse strtod arg o = Return (false, o') e) opts.




(** *** Properties of options and arguments *)

(** The argument starts with ['-']: [match(argv[i], "-")]. *)
Definition is_flag (arg : string) : bool :=
  bool_decide (is_Some (match_ arg "-")).

(** [o'] is an object of the class of [o] with the name, description,
    category, type name and range of [o]: they differ in the value at
    most. *)
Definition same_declaration (o o' : Option) : Prop :=
  match o, o' with
  | ODouble a, ODouble b => d_base a = d_base b /\ d_range a = d_range b
  | OInt a, OInt b => i_base a = i_base b /\ i_range a = i_range b
  | OInt64 a, OInt64 b => l_base a = l_base b /\ l_range a = l_range b
  | OString a, OString b => s_base a = s_base b
  | OBool a, OBool b => b_base a = b_base b
  | _, _ => False
  end.

(** The value of an [IntOption] or [Int64Option] lies in its range. *)
Definition value_in_range (o : Option) : Prop :=
  match o with
  | OInt a => ir_begin (i_range a) <= i_value a <= ir_end (i_range a)
  | OInt64 a => lr_begin (l_range a) <= l_value a <= lr_end (l_range a)
  | _ => True
  end.

(** A [BoolOption] whose name has more than 16 characters. *)
Definition long_bool_name (o : Option) : bool :=
  match o with
  | OBool b => (16 <? String.length (name (b_base b)))%nat
  | _ => false
  end.

(** The prefix of the diagnostic of a rejected value: ["WARN"] when
    [strict] and ["ERROR"] otherwise in [DoubleOption], [IntOption] and
    [Int64Option], the other way round in [BoolOption]. *)
Definition rejection_prefix (strict : bool) (o : Option) : string :=
  match o with
  | OBool _ => if strict then "ERROR" else "WARN"
  | _ => if strict then "WARN" else "ERROR"
  end.

(** *** Sample objects *)

Module Samples.

Definition literal (a : Z) (s : string) : c_str := {| c_addr := a; c_chars := s |}.

Definition core (n : string) (t : c_str) : Option_base :=
  {| name := n; description := "sample"; category := literal 4096 "CORE";
     type_name := t |}.

(** An [IntOption] "verb" with range [0 .. 10] and value 7. *)
Definition verb : IntOption :=
  {| i_base := core "verb" (literal 4112 "<int32>");
     i_range := {| ir_begin := 0; ir_end := 10 |};
     i_value := 7 |}.

(** A [DoubleOption] "var-decay" with range (0, 1) and value 0.5. *)
Definition var_decay : DoubleOption :=
  {| d_base := core "var-decay" (literal 4128 "<double>");
     d_range := {| dr_begin := 0%float; dr_end := 1%float;
                   begin_inclusive := false; end_inclusive := false |};
     d_value := 0.5%float |}.

Definition pre : BoolOption := {| b_base := core "pre" (literal 4144 "<bool>"); b_value := true |}.

(** A [BoolOption] whose name starts with "no-". *)
Definition no_x : BoolOption := {| b_base := core "no-x" (literal 4144 "<bool>"); b_value := false |}.

(** A C library whose [strtod] reads "nan", and nothing else. *)
Definition strtod_nan (str : string) : float * string :=
  if String.eqb str "nan" then (PrimFloat.nan, EmptyString) else (0%float, str).

Definition no_sort (l : list Option) : list Option := l.


Definition two_options : globals :=
  {| OptionList := [OInt verb; OBool pre];
     HelpPrefixString := EmptyString; UsageString := None |}.

End Samples.

End Options.

(** * Proofs *)

(** ** Facts about 32-bit arithmetic *)

Module IntFacts.
Import Int.

Lemma wrap_in_range z : in_range (wrap z).
Proof.
  unfold in_range, wrap, int_min, int_max.
  pose proof (Z.mod_pos_bound (z + 2147483648) 4294967296). lia.
Qed.

Lemma wrap_small z : in_range z -> wrap z = z.
Proof.
  unfold in_range, wrap, int_min, int_max. intros H.
  rewrite Z.mod_small by lia. lia.
Qed.

Lemma wrap_even z : Z.even (wrap z) = Z.even z.
Proof.
  unfold wrap.
  pose proof (Z.div_mod (z + 2147483648) 4294967296 ltac:(lia)) as E.
  remember ((z + 2147483648) / 4294967296) as q eqn:Hq.
  remember ((z + 2147483648) mod 4294967296) as r eqn:Hr.
  assert (Hz : z = r - 2147483648 + 2 * (2147483648 * q)) by lia.
  clear Hq Hr E. subst z.
  now rewrite Z.even_add_mul_2.
Qed.

(** [x & ~1] clears the lowest bit. *)
Lemma land_lnot_1 x : Z.land x (Z.lnot 1) = 2 * (x / 2).
Proof.
  change 1 with (Z.ones 1) at 1.
  rewrite <- Z.ldiff_land, Z.ldiff_ones_r by lia.
  rewrite Z.shiftl_mul_pow2, Z.shiftr_div_pow2 by lia.
  change (2 ^ 1) with 2. lia.
Qed.

Lemma shiftr_1 x : Z.shiftr x 1 = x / 2.
Proof. rewrite Z.shiftr_div_pow2 by lia. reflexivity. Qed.

End IntFacts.

(** ** Facts about [vec] *)

Module VecFacts.
Import Int IntFacts Vec.

Ltac int_arith :=
  unfold in_range, size_max, int_min, int_max in *;
  Z.div_mod_to_equations; lia.

(** *** The model on small inputs *)

Example push_five :
  (push ReallocOk 10 ;; push ReallocOk 11 ;; push ReallocOk 12 ;;
   push ReallocOk 13 ;; push ReallocOk 14) (vec_new (T:=Z)) =
  (Ret tt,
   mkVec (Some [Some 10; Some 11; Some 12; Some 13; Some 14; None; None; None]) 5 8,
   [Ctor 0; Ctor 1; Ctor 2; Ctor 3; Ctor 4]).
Proof. reflexivity. Qed.

Example capacities_of_push :
  List.map (fun c => c + capacity_add c (c + 1)) [0; 2; 4; 8; 14; 22; 34] =
  [2; 4; 8; 14; 22; 34; 52].
Proof. reflexivity. Qed.

Example retain_even :
  state (retain Z.even (mkVec (Some [Some 10; Some 11; Some 12; Some 13; Some 14]) 5 5)) =
  mkVec (Some [Some 10; Some 12; Some 14; None; None]) 3 5.
Proof. reflexivity. Qed.

Example capacity_out_of_memory :
  capacity (ReallocNull ENOMEM) 3 (mkVec (Some [Some 7; Some 8]) 2 2) =
  (Throw, mkVec None 2 4, []).
Proof. reflexivity. Qed.

(** *** The capacity increment *)

Lemma capacity_add_unfold c m :
  capacity_add c m =
  max (2 * (wrap (wrap (m - c) + 1) / 2)) (2 * (wrap (c / 2 + 2) / 2)).
Proof. unfold capacity_add. now rewrite !land_lnot_1, shiftr_1. Qed.

Lemma capacity_add_even c m : Z.even (capacity_add c m) = true.
Proof.
  rewrite capacity_add_unfold. unfold max.
  destruct (_ >? _); now rewrite Z.even_mul.
Qed.

(** Without overflow in [min_cap - cap + 1] both operands of [max] are the
    mathematical values. *)
Lemma capacity_add_exact c m :
  0 <= c -> c < m -> m <= int_max -> m - c < int_max ->
  capacity_add c m = Z.max (2 * ((m - c + 1) / 2)) (2 * ((c / 2 + 2) / 2)).
Proof.
  intros Hc Hlt Hm Hno. rewrite capacity_add_unfold.
  rewrite (wrap_small (m - c)) by int_arith.
  rewrite (wrap_small (m - c + 1)) by int_arith.
  rewrite (wrap_small (c / 2 + 2)) by int_arith.
  unfold max. destruct (Z.gtb_spec (2 * ((m - c + 1) / 2)) (2 * ((c / 2 + 2) / 2))); lia.
Qed.

Lemma capacity_add_needed c m :
  0 <= c -> c < m -> m <= int_max -> m - c < int_max ->
  m - c <= capacity_add c m.
Proof.
  intros. rewrite capacity_add_exact by assumption. int_arith.
Qed.

Lemma capacity_add_half c m :
  0 <= c <= int_max ->
  2 * ((c / 2 + 2) / 2) <= capacity_add c m.
Proof.
  intros Hc. rewrite capacity_add_unfold.
  rewrite (wrap_small (c / 2 + 2)) by int_arith.
  unfold max. destruct (Z.gtb_spec (2 * (wrap (wrap (m - c) + 1) / 2)) (2 * ((c / 2 + 2) / 2))); lia.
Qed.

Lemma capacity_add_pos c m : 0 <= c <= int_max -> 2 <= capacity_add c m.
Proof.
  intros Hc. pose proof (capacity_add_half c m Hc). int_arith.
Qed.

Lemma capacity_add_in_range c m : 0 <= c <= int_max -> in_range (capacity_add c m).
Proof.
  intros Hc. pose proof (capacity_add_pos c m Hc) as Hpos.
  rewrite capacity_add_unfold in *. unfold max in *.
  pose proof (wrap_in_range (wrap (m - c) + 1)).
  pose proof (wrap_in_range (c / 2 + 2)).
  destruct (_ >? _); int_arith.
Qed.

(** Growing a full vector by one element, as [push] does: the increment is
    half the capacity plus one or two, so the capacity becomes about 3/2 of
    what it was. *)
Lemma capacity_add_push c :
  0 <= c < int_max ->
  capacity_add c (c + 1) = 2 * ((c / 2 + 2) / 2) /\
  3 * c + 1 <= 2 * (c + capacity_add c (c + 1)) <= 3 * c + 4.
Proof.
  intros Hc. rewrite capacity_add_exact by int_arith.
  replace (c + 1 - c + 1) with 2 by lia. change (2 * (2 / 2)) with 2.
  split; int_arith.
Qed.

(** *** [capacity] *)

Section Capacity.
Context {T : Type}.
Implicit Types v : vec T.

Lemma slot_get_resize n (d : option (list (option T))) i :
  match d with Some buf => (length buf <= n)%nat | None => True end ->
  slot_get i (Some (resize n None (default [] d))) = slot_get i d.
Proof.
  intros Hlen. unfold slot_get. destruct (0 <=? i); [|done].
  destruct d as [buf|]; simpl.
  - rewrite resize_ge by done.
    destruct (decide (Z.to_nat i < length buf)%nat) as [Hi|Hi].
    + now rewrite lookup_app_l.
    + rewrite lookup_app_r by lia.
      rewrite (lookup_ge_None_2 buf) by lia. simpl.
      destruct (replicate _ _ !! _) as [o|] eqn:E; [|done].
      apply lookup_replicate in E as [-> _]. done.
  - rewrite resize_nil.
    destruct (replicate _ _ !! _) as [o|] eqn:E; [|done].
    apply lookup_replicate in E as [-> _]. done.
Qed.

Lemma capacity_enough r min_cap v :
  min_cap <= cap v -> capacity r min_cap v = (Ret tt, v, []).
Proof.
  intros H. unfold capacity.
  destruct (Z.geb_spec (cap v) min_cap); [done | lia].
Qed.

(** The three ways [capacity(min_cap)] goes on a vector with
    [0 <= cap < min_cap] whose increment is computed without overflow: the
    overflow test fires and nothing is changed; or the increment is added
    to [cap] and [realloc] called, and then the outcome is read off its
    answer and [errno], as the condition of the [throw] is written. *)
Lemma capacity_grow r min_cap v :
  0 <= cap v <= int_max -> buffer_ok v ->
  cap v < min_cap -> min_cap <= int_max -> min_cap - cap v < int_max ->
  (capacity_add (cap v) min_cap > size_max - cap v ->
     capacity r min_cap v = (Throw, v, [])) /\
  (capacity_add (cap v) min_cap <= size_max - cap v ->
     min_cap <= cap v + capacity_add (cap v) min_cap /\
     match r with
     | ReallocOk =>
         exists v', capacity r min_cap v = (Ret tt, v', []) /\
           cap v' = cap v + capacity_add (cap v) min_cap /\
           sz v' = sz v /\ buffer_ok v' /\
           forall i, slot_get i (data v') = slot_get i (data v)
     | ReallocNull errno =>
         capacity r min_cap v =
           (if errno =? ENOMEM then Throw else Ret tt,
            mkVec None (sz v) (cap v + capacity_add (cap v) min_cap), [])
     end).
Proof.
  intros Hcap Hbuf Hlt Hmax Hno.
  pose proof (capacity_add_needed (cap v) min_cap ltac:(lia) Hlt Hmax Hno) as Hneed.
  pose proof (capacity_add_in_range (cap v) min_cap Hcap) as Hadd.
  unfold capacity.
  destruct (Z.geb_spec (cap v) min_cap) as [?|_]; [lia|].
  rewrite (wrap_small (size_max - cap v)) by int_arith.
  change (size_max <=? int_max) with true. cbn [andb].
  split; intros Hcmp.
  - destruct (Z.gtb_spec (capacity_add (cap v) min_cap) (size_max - cap v)); [done | lia].
  - destruct (Z.gtb_spec (capacity_add (cap v) min_cap) (size_max - cap v)); [lia|].
    rewrite (wrap_small (cap v + _)) by int_arith.
    split; [lia|].
    destruct r as [|errno].
    + eexists. split; [reflexivity|]. cbn [cap sz data].
      repeat split.
      * unfold buffer_ok. cbn [data cap]. rewrite length_resize. lia.
      * intros i. apply slot_get_resize.
        unfold buffer_ok in Hbuf. destruct (data v); [lia | done].
    + now destruct (errno =? ENOMEM).
Qed.

(** C1.  On every vector with [0 <= cap < min_cap <= INT_MAX] but the
    empty one asked for INT_MAX, [capacity(min_cap)] does what the
    specification says: it returns with a capacity of [min_cap] at least
    and every element kept, or it throws, and it throws when the increment
    exceeds [size_max - cap] and when [realloc] fails.  On the empty vector
    asked for INT_MAX it does not: [min_cap - cap + 1] wraps, the increment
    is 2, the overflow test does not fire and the call returns with
    capacity 2. *)
Theorem capacity_as_specified_but_at_int_max :
  (forall r min_cap (v : vec T),
     realloc_answer r -> 0 <= cap v -> buffer_ok v -> min_cap <= int_max ->
     (cap v, min_cap) <> (0, int_max) ->
     capacity_as_specified r min_cap v) /\
  capacity ReallocOk int_max (vec_new (T:=T)) =
    (Ret tt, mkVec (Some [None; None]) 0 2, []) /\
  ~ capacity_as_specified ReallocOk int_max (vec_new (T:=T)).
Proof.
  assert (E : capacity ReallocOk int_max (vec_new (T:=T)) =
              (Ret tt, mkVec (Some [None; None]) 0 2, []))
    by (vm_compute; reflexivity).
  split; [|split; [exact E|]].
  - intros r min_cap v Hr Hcap Hbuf Hmax Hne Hlt.
    assert (Hno : min_cap - cap v < int_max).
    { destruct (Z_lt_le_dec (min_cap - cap v) int_max) as [?|Hge]; [assumption|].
      exfalso. apply Hne. f_equal; lia. }
    destruct (capacity_grow r min_cap v ltac:(lia) Hbuf Hlt Hmax Hno) as [Hover Hfit].
    cbv zeta.
    destruct (Z_gt_le_dec (capacity_add (cap v) min_cap) (size_max - cap v)) as [Hgt|Hle].
    + rewrite (Hover Hgt). unfold outcome. cbn. auto.
    + destruct (Hfit Hle) as [Hneed Hrun].
      destruct Hr as [-> | ->].
      * destruct Hrun as (v' & -> & Hcap' & _ & _ & Hslots).
        unfold outcome, state. cbn [fst snd].
        split; [|split; [lia | discriminate]].
        left. split; [reflexivity|]. split; [lia|]. intros i _. apply Hslots.
      * rewrite Hrun. unfold outcome. cbn. auto.
  - intros H. destruct (H ltac:(cbn; unfold int_max; lia)) as [[(_ & Hcap & _) | Hthrow] _].
    + rewrite E in Hcap. cbn in Hcap. unfold int_max in Hcap. lia.
    + rewrite E in Hthrow. discriminate.
Qed.

End Capacity.

(** The first part of the theorem at a full block of two, asked for room
    for three. *)
Lemma capacity_as_specified_but_at_int_max_witness :
  capacity_as_specified ReallocOk 3 (mkVec (Some [Some 7; Some 8]) 2 2).
Proof.
  apply (proj1 (capacity_as_specified_but_at_int_max (T:=Z))).
  - now left.
  - cbn. lia.
  - reflexivity.
  - unfold int_max. lia.
  - unfold int_max. cbn. congruence.
Defined.

(** *** The capacity stays even *)

Section Invariant.
Context {T : Type} (T_default : T).
Implicit Types v : vec T.

Lemma keeps_bind {A B} (m : M T A) (f : A -> M T B) :
  keeps m -> (forall a, keeps (f a)) -> keeps (m ≫= f).
Proof.
  intros Hm Hf v Hv. specialize (Hm v Hv).
  unfold mbind, M_mbind, M_bind, state in *.
  destruct (m v) as [[[a| | |] v'] t]; cbn in *; try assumption.
  specialize (Hf a v' Hm). unfold state in Hf.
  destruct (f a v') as [[r v''] t']. assumption.
Qed.

Lemma keeps_same_cap {A} (m : M T A) :
  (forall v, cap (state (m v)) = cap v) -> keeps m.
Proof. intros H v Hv. unfold cap_inv in *. now rewrite H. Qed.

Lemma keeps_ret {A} (a : A) : keeps (mret a : M T A).
Proof. now apply keeps_same_cap. Qed.

Lemma keeps_for n from (body : Z -> M T unit) :
  (forall i, keeps (body i)) -> keeps (for_ n from body).
Proof.
  intros Hb. revert from.
  induction n as [|n IH]; intros from; cbn [for_].
  - apply keeps_ret.
  - apply keeps_bind; [apply Hb | intros _; apply IH].
Qed.

Lemma keeps_capacity r min_cap : keeps (capacity (T:=T) r min_cap).
Proof.
  intros v [Hrange Heven]. unfold capacity.
  destruct (cap v >=? min_cap); [now split|].
  change (size_max <=? int_max) with true. cbn [andb].
  rewrite (wrap_small (size_max - cap v)) by int_arith.
  destruct (Z.gtb_spec (capacity_add (cap v) min_cap) (size_max - cap v)) as [Hgt|Hle];
    [now split|].
  pose proof (capacity_add_pos (cap v) min_cap Hrange) as Hpos.
  assert (Hnew : cap_inv (mkVec (T:=T) None 0 (wrap (cap v + capacity_add (cap v) min_cap)))).
  { unfold cap_inv. cbn [cap]. rewrite wrap_small by int_arith. split; [int_arith|].
    now rewrite Z.even_add, Heven, capacity_add_even. }
  destruct r as [|errno]; [|destruct (errno =? ENOMEM)]; exact Hnew.
Qed.

Lemma keeps_free_data : keeps (free_data (T:=T)).
Proof. intros v _. unfold cap_inv, int_max. cbn. split; [lia | reflexivity]. Qed.

Lemma keeps_assert c : keeps (assert_ (T:=T) c).
Proof. apply keeps_same_cap. intros v. unfold assert_. now destruct c. Qed.

Lemma keeps_load i : keeps (load (T:=T) i).
Proof.
  apply keeps_same_cap. intros v. unfold load, state.
  now destruct (slot_get i (data v)).
Qed.

Ltac keeps_step :=
  first
    [ apply keeps_capacity
    | apply keeps_assert
    | apply keeps_load
    | apply keeps_free_data
    | apply keeps_ret
    | apply keeps_bind; [|intros]
    | apply keeps_for; intros
    | match goal with |- keeps (if ?c then _ else _) => destruct c end
    | match goal with |- keeps (match ?c with _ => _ end) => destruct c end
    | now apply keeps_same_cap ].

Lemma keeps_retain_loop pred n i j : keeps (retain_loop (T:=T) pred n i j).
Proof.
  revert i j. induction n as [|n IH]; intros i j; cbn [retain_loop].
  - apply keeps_ret.
  - apply keeps_bind.
    + apply keeps_load.
    + intros value. destruct (pred value); [|apply IH].
      apply keeps_bind; [now apply keeps_same_cap | intros _; apply IH].
Qed.

Lemma keeps_shrink nelems : keeps (shrink (T:=T) nelems).
Proof. unfold shrink. repeat keeps_step. Qed.

Lemma keeps_clear dealloc : keeps (clear (T:=T) dealloc).
Proof. unfold clear. repeat keeps_step. Qed.

Lemma keeps_growTo r size : keeps (growTo T_default r size).
Proof. unfold growTo. repeat keeps_step. Qed.

Lemma keeps_run o : keeps (run T_default o).
Proof.
  destruct o; cbn [run].
  - apply keeps_shrink.
  - unfold shrink_. repeat keeps_step.
  - apply keeps_capacity.
  - unfold growTo_pad. repeat keeps_step.
  - apply keeps_growTo.
  - apply keeps_clear.
  - unfold retain, size. apply keeps_bind; [now apply keeps_same_cap|intros s].
    apply keeps_bind; [apply keeps_retain_loop | intros ij; apply keeps_shrink].
  - unfold push_default. repeat keeps_step.
  - unfold push. repeat keeps_step.
  - unfold push_. repeat keeps_step.
  - unfold pop. repeat keeps_step.
  - now apply keeps_same_cap.
  - unfold copyTo. apply keeps_bind; [apply keeps_clear|intros _].
    apply keeps_bind; [apply keeps_growTo|intros _].
    apply keeps_for. intros i. destruct (slot_get i (data src)); now apply keeps_same_cap.
Qed.

(** Calls on several vectors. *)
Lemma keeps_all_bind_val {A B} (P : A -> Prop) (m : H T A) (f : A -> H T B) :
  (forall h, Forall cap_inv h ->
     Forall cap_inv (objects (m h)) /\ forall a, (m h).1.1 = Ret a -> P a) ->
  (forall a, P a -> keeps_all (f a)) -> keeps_all (m ≫= f).
Proof.
  intros Hm Hf h Hh. destruct (Hm h Hh) as [Hobj Hval].
  unfold mbind, H_mbind, H_bind, objects in *.
  destruct (m h) as [[[a| | |] h'] t]; cbn in *; try assumption.
  specialize (Hf a (Hval a eq_refl) h' Hobj). unfold objects in Hf.
  destruct (f a h') as [[r h''] t']. assumption.
Qed.

Lemma keeps_all_bind {A B} (m : H T A) (f : A -> H T B) :
  keeps_all m -> (forall a, keeps_all (f a)) -> keeps_all (m ≫= f).
Proof.
  intros Hm Hf. apply (keeps_all_bind_val (fun _ => True)); [|auto].
  intros h Hh. split; [now apply Hm | auto].
Qed.

Lemma keeps_all_on {A} p (m : M T A) : keeps m -> keeps_all (on p m).
Proof.
  intros Hm h Hh. unfold on, objects.
  destruct (h !! p) as [v|] eqn:Hp; [|exact Hh].
  specialize (Hm v (proj1 (Forall_lookup _ _) Hh _ _ Hp)). unfold state in Hm.
  destruct (m v) as [[r v'] t]. cbn in *. now apply Forall_insert.
Qed.

Lemma keeps_all_for_ref n from (body : Z -> H T unit) :
  (forall i, keeps_all (body i)) -> keeps_all (for_ref n from body).
Proof.
  intros Hb. revert from.
  induction n as [|n IH]; intros from; cbn [for_ref].
  - intros h Hh. exact Hh.
  - apply keeps_all_bind; [apply Hb | intros _; apply IH].
Qed.

Lemma keeps_moveTo_ref this dest : keeps_all (moveTo_ref (T:=T) this dest).
Proof.
  unfold moveTo_ref.
  apply keeps_all_bind; [apply keeps_all_on, keeps_clear | intros _].
  apply keeps_all_bind; [now apply keeps_all_on, keeps_same_cap | intros d].
  apply keeps_all_bind; [now apply keeps_all_on, keeps_same_cap | intros _].
  apply keeps_all_bind; [now apply keeps_all_on, keeps_same_cap | intros s].
  apply keeps_all_bind; [now apply keeps_all_on, keeps_same_cap | intros _].
  apply (keeps_all_bind_val (fun c => cap_inv (mkVec (T:=T) None 0 c))).
  - intros h Hh.
    split; [apply (keeps_all_on this get_cap); [now apply keeps_same_cap | exact Hh]|].
    intros c. unfold on. destruct (h !! this) as [v|] eqn:Hv; [|discriminate].
    cbn. intros [= <-]. exact (proj1 (Forall_lookup _ _) Hh _ _ Hv).
  - intros c Hc.
    apply keeps_all_bind; [apply keeps_all_on; intros v _; exact Hc | intros _].
    apply keeps_all_bind; [now apply keeps_all_on, keeps_same_cap | intros _].
    apply keeps_all_bind; [now apply keeps_all_on, keeps_same_cap | intros _].
    apply keeps_all_on. intros v _. unfold cap_inv, int_max. cbn.
    split; [lia | reflexivity].
Qed.

Lemma keeps_copyTo_ref r this copy : keeps_all (copyTo_ref T_default r this copy).
Proof.
  unfold copyTo_ref.
  apply keeps_all_bind; [apply keeps_all_on, keeps_clear | intros _].
  apply keeps_all_bind; [now apply keeps_all_on, keeps_same_cap | intros s].
  apply keeps_all_bind; [apply keeps_all_on, keeps_growTo | intros _].
  apply keeps_all_bind; [now apply keeps_all_on, keeps_same_cap | intros s'].
  apply keeps_all_for_ref. intros i.
  apply keeps_all_bind; [apply keeps_all_on, keeps_load | intros x].
  now apply keeps_all_on, keeps_same_cap.
Qed.

Lemma reachable_cap_inv v : reachable T_default v -> cap_inv v.
Proof.
  induction 1 as [|o v _ IH|this dest _ IHt _ IHd|this dest _ IHt _ IHd
                  |h this dest v _ IH Hv|r h this copy v _ IH Hv].
  - unfold cap_inv, int_max. cbn. split; [lia | reflexivity].
  - now apply keeps_run.
  - unfold moveTo. destruct (clear true dest) as [[? ?] ?].
    unfold cap_inv, int_max. cbn. split; [lia | reflexivity].
  - unfold moveTo. destruct (clear true dest) as [[? ?] ?]. exact IHt.
  - apply (proj1 (Forall_forall _ _) (keeps_moveTo_ref this dest h
             (proj2 (Forall_forall _ _) IH)) v Hv).
  - apply (proj1 (Forall_forall _ _) (keeps_copyTo_ref r this copy h
             (proj2 (Forall_forall _ _) IH)) v Hv).
Qed.

(** C9.  In every state a vector can be in, whichever member calls led
    there and however they ended, the capacity is even; it is therefore
    never INT_MAX, and when [push] finds [sz == cap] the [sz+1] it passes
    to [capacity] is at most INT_MAX, so it does not wrap.  The capacity of
    a new vector is 0 and the increment [capacity] adds is always even. *)
Theorem capacity_always_even v :
  reachable T_default v ->
  Z.even (cap v) = true /\
  cap v <> int_max /\
  (sz v = cap v -> sz v + 1 <= int_max /\ wrap (sz v + 1) = sz v + 1) /\
  cap (vec_new (T:=T)) = 0 /\
  (forall c min_cap, Z.even (capacity_add c min_cap) = true).
Proof.
  intros Hreach. destruct (reachable_cap_inv v Hreach) as [Hrange Heven].
  assert (Hne : cap v <> int_max).
  { intros E. rewrite E in Heven. discriminate. }
  split; [exact Heven|]. split; [exact Hne|].
  split; [|split; [reflexivity | intros c m; apply capacity_add_even]].
  intros E. split; [lia|]. apply wrap_small. int_arith.
Qed.

End Invariant.

(** The theorem at the state a [push] on a new vector leaves. *)
Lemma capacity_always_even_witness :
  reachable 0 (state (run 0 (OpPush ReallocOk 1) vec_new)) /\
  Z.even (cap (state (run 0 (OpPush ReallocOk 1) vec_new))) = true.
Proof.
  assert (H : reachable 0 (state (run 0 (OpPush ReallocOk 1) vec_new)))
    by (apply reach_run, reach_new).
  split; [exact H|].
  exact (proj1 (capacity_always_even 0 _ H)).
Defined.

(** *** [pop], [shrink] and [retain] *)

Section Retain.
Context {T : Type}.
Implicit Types (v : vec T) (buf : list (option T)).

Lemma bind_run {A B} (m : M T A) (f : A -> M T B) v a v' t r v'' t' :
  m v = (Ret a, v', t) -> f a v' = (r, v'', t') ->
  (m ≫= f) v = (r, v'', t ++ t').
Proof. intros Hm Hf. unfold mbind, M_mbind, M_bind. now rewrite Hm, Hf. Qed.

Lemma load_slot buf s c i x :
  buf !! i = Some (Some x) ->
  load (Z.of_nat i) (mkVec (Some buf) s c) =
    (Ret x, mkVec (Some buf) s c, [Load (Z.of_nat i)]).
Proof.
  intros H. unfold load, slot_get. cbn [data].
  destruct (Z.leb_spec 0 (Z.of_nat i)); [|lia].
  cbn. now rewrite Nat2Z.id, H.
Qed.

Lemma store_slot buf s c i x :
  store (Z.of_nat i) x (mkVec (Some buf) s c) =
    (Ret tt, mkVec (Some (<[i := Some x]> buf)) s c, [Store (Z.of_nat i)]).
Proof.
  unfold store, slot_set. cbn [data sz cap].
  destruct (Z.leb_spec 0 (Z.of_nat i)); [|lia].
  cbn. now rewrite Nat2Z.id.
Qed.

(** Writing the element just read at the front of the gap. *)
Lemma store_front (pre mid rest : list (option T)) o :
  <[length pre := o]> (pre ++ mid ++ o :: rest) =
    (pre ++ [o]) ++ drop 1 (mid ++ [o]) ++ rest.
Proof.
  rewrite insert_app_r_alt, Nat.sub_diag by lia.
  rewrite <- (app_assoc pre). f_equal.
  destruct mid as [|m mid]; cbn; [done|].
  now rewrite drop_0, <- app_assoc.
Qed.

Lemma retain_loop_spec pred (rest : list T) :
  forall (pre mid tail : list (option T)) s c,
  exists mid' t,
    retain_loop pred (length rest)
      (Z.of_nat (length pre + length mid)) (Z.of_nat (length pre))
      (mkVec (Some (pre ++ mid ++ (Some <$> rest) ++ tail)) s c) =
    (Ret (Z.of_nat (length pre + length mid + length rest),
          Z.of_nat (length pre + length (List.filter pred rest))),
     mkVec (Some ((pre ++ (Some <$> List.filter pred rest)) ++ mid' ++ tail)) s c,
     t) /\
    length mid' = (length mid + length rest - length (List.filter pred rest))%nat.
Proof.
  induction rest as [|x rest IH]; intros pre mid tail s c.
  - exists mid, []. cbn. rewrite !Nat.add_0_r, app_nil_r. split; [done | lia].
  - cbn [length retain_loop].
    assert (Hload : (pre ++ mid ++ (Some <$> x :: rest) ++ tail) !! (length pre + length mid)%nat
                    = Some (Some x)).
    { rewrite (app_assoc pre mid). apply list_lookup_middle. now rewrite length_app. }
    destruct (pred x) eqn:Hp.
    + destruct (IH (pre ++ [Some x]) (drop 1 (mid ++ [Some x])) tail s c)
        as (mid' & t & Hrun & Hlen).
      assert (Hmid : length (drop 1 (mid ++ [Some x])) = length mid).
      { rewrite length_drop, length_app. cbn. lia. }
      rewrite length_app, Hmid in Hrun. cbn [length] in Hrun.
      exists mid'. eexists. split.
      * eapply bind_run; [apply load_slot, Hload|]. rewrite Hp.
        eapply bind_run; [apply store_slot|].
        cbn [fmap list_fmap app]. rewrite store_front.
        replace (Z.of_nat (length pre + length mid) + 1)
          with (Z.of_nat (length pre + 1 + length mid)) by lia.
        replace (Z.of_nat (length pre) + 1) with (Z.of_nat (length pre + 1)) by lia.
        rewrite Hrun. cbn [List.filter]. rewrite Hp. cbn [length fmap list_fmap].
        rewrite <- (app_assoc pre [Some x]). cbn [app].
        do 3 f_equal. f_equal; f_equal; lia.
      * cbn [List.filter]. rewrite Hp. cbn [length]. lia.
    + destruct (IH pre (mid ++ [Some x]) tail s c) as (mid' & t & Hrun & Hlen).
      rewrite length_app in Hrun, Hlen. cbn [length] in Hrun, Hlen.
      exists mid'. eexists. split.
      * eapply bind_run; [apply load_slot, Hload|]. rewrite Hp.
        cbn [fmap list_fmap app].
        replace (Z.of_nat (length pre + length mid) + 1)
          with (Z.of_nat (length pre + (length mid + 1))) by lia.
        replace (pre ++ mid ++ Some x :: (Some <$> rest) ++ tail)
          with (pre ++ (mid ++ [Some x]) ++ (Some <$> rest) ++ tail)
          by now rewrite <- (app_assoc mid).
        rewrite Hrun. cbn [List.filter]. rewrite Hp.
        do 3 f_equal. f_equal. lia.
      * cbn [List.filter]. rewrite Hp. lia.
Qed.

(** The loop of [shrink]: [n] times [sz--, data[sz].~T()]. *)
Lemma shrink_loop_spec n :
  forall from buf s c,
  Z.of_nat n <= s <= int_max ->
  exists buf' t,
    for_ n from (fun _ => s ← get_sz; set_sz (wrap (s - 1)) ;; s' ← get_sz; dtor s')
      (mkVec (Some buf) s c) =
    (Ret tt, mkVec (Some buf') (s - Z.of_nat n) c, t) /\
    length buf' = length buf /\
    take (Z.to_nat (s - Z.of_nat n)) buf' = take (Z.to_nat (s - Z.of_nat n)) buf /\
    Forall (fun a => s - Z.of_nat n <= index_of a < s) t.
Proof.
  induction n as [|n IH]; intros from buf s c Hs.
  - exists buf, []. cbn [for_]. rewrite Z.sub_0_r. now repeat split.
  - destruct (IH (from + 1) (<[Z.to_nat (s - 1) := None]> buf) (s - 1) c ltac:(lia))
      as (buf' & t & Hrun & Hlen & Htake & Hidx).
    replace (s - Z.of_nat (S n)) with (s - 1 - Z.of_nat n) by lia.
    exists buf'. eexists. split; [|split; [|split]].
    + cbn [for_]. eapply bind_run; [|exact Hrun].
      unfold mbind, M_mbind, M_bind, get_sz, set_sz, dtor, slot_set. cbn.
      rewrite wrap_small by int_arith.
      destruct (Z.leb_spec 0 (s - 1)); [|lia]. reflexivity.
    + now rewrite Hlen, length_insert.
    + rewrite Htake. apply take_insert_ge. lia.
    + cbn [app]. constructor; [cbn; lia|].
      eapply Forall_impl; [exact Hidx|]. cbn. intros a. lia.
Qed.

(** [shrink(1)] destroys the last live element. *)
Lemma shrink_1 v :
  0 < sz v <= int_max ->
  shrink 1 v =
    (Ret tt, mkVec (slot_set (sz v - 1) None (data v)) (sz v - 1) (cap v),
     [Dtor (sz v - 1)]).
Proof.
  intros Hs. unfold shrink. change (Z.to_nat 1) with 1%nat. cbn [for_].
  unfold assert_, mbind, M_mbind, M_bind, mret, M_mret, M_ret, get_sz, set_sz, dtor.
  cbn -[wrap]. destruct (Z.leb_spec 1 (sz v)); [|lia]. cbn -[wrap].
  now rewrite wrap_small by int_arith.
Qed.

(** C3, what the code does.  [pop()] on a vector with [sz > 0] decrements
    [sz] by one, but the destructor it runs is the one of the slot at the
    old [sz]: the slot after the last live element, outside [0, sz), and
    outside the block when the vector is full.  The element at [sz - 1] is
    removed without its destructor being run ([shrink(1)] runs it). *)
Theorem pop_destroys_past_the_end v :
  0 < sz v <= int_max ->
  pop v =
    (Ret tt, mkVec (slot_set (sz v) None (data v)) (sz v - 1) (cap v),
     [Dtor (sz v)]) /\
  ~ Forall (fun a => 0 <= index_of a < sz v) (trace (pop v)) /\
  ~ In (Dtor (sz v - 1)) (trace (pop v)) /\
  trace (shrink 1 v) = [Dtor (sz v - 1)].
Proof.
  intros Hs.
  assert (E : pop v =
    (Ret tt, mkVec (slot_set (sz v) None (data v)) (sz v - 1) (cap v), [Dtor (sz v)])).
  { unfold pop, assert_, mbind, M_mbind, M_bind, get_sz, set_sz, dtor.
    cbn -[wrap]. destruct (Z.gtb_spec (sz v) 0); [|lia]. cbn -[wrap].
    now rewrite wrap_small by int_arith. }
  split; [exact E|]. rewrite E, shrink_1 by exact Hs. unfold trace. cbn [snd fst].
  split; [|split; [|reflexivity]].
  - intros H. apply Forall_cons in H as [H _]. cbn in H. lia.
  - intros [H|[]]. injection H. lia.
Qed.

(** C10.  [retain(pred)] on a vector holding [l] returns normally and
    leaves it holding exactly the elements of [l] that satisfy [pred], in
    their order; the size goes down by the number of elements removed and
    the capacity is unchanged. *)
Theorem retain_filter pred v (l : list T) :
  represents v l ->
  exists v' t,
    retain pred v = (Ret tt, v', t) /\
    represents v' (List.filter pred l) /\
    sz v' = sz v - Z.of_nat (length l - length (List.filter pred l)) /\
    cap v' = cap v.
Proof.
  intros (Hsz & Hmax & Htake).
  pose proof (List.filter_length_le pred l) as Hfl.
  destruct v as [[buf|] s c]; cbn [data sz cap default] in *; unfold id in *.
  - (* an allocated block *)
    assert (Hbuf : buf = (Some <$> l) ++ drop (length l) buf).
    { now rewrite <- Htake, take_drop. }
    destruct (retain_loop_spec pred l [] [] (drop (length l) buf) s c)
      as (mid' & t1 & Hloop & Hmid).
    cbn [length app Nat.add] in Hloop, Hmid. rewrite <- Hbuf in Hloop.
    destruct (shrink_loop_spec (length l - length (List.filter pred l)) 0
                ((Some <$> List.filter pred l) ++ mid' ++ drop (length l) buf) s c
                ltac:(lia))
      as (buf' & t2 & Hshr & Hlen & Htk & _).
    eexists. eexists. split; [|split; [|split]].
    + unfold retain, size.
      eapply bind_run; [reflexivity|].
      cbn [sz]. rewrite Hsz at 1. rewrite Nat2Z.id.
      change (Z.of_nat 0) with 0 in Hloop.
      eapply bind_run; [exact Hloop|].
      unfold shrink. eapply bind_run; [reflexivity|].
      cbn [fst snd].
      rewrite wrap_small by int_arith.
      eapply bind_run.
      { unfold assert_. cbn [sz]. rewrite (proj2 (Z.leb_le _ _)) by lia. reflexivity. }
      replace (Z.to_nat (Z.of_nat (length l) - Z.of_nat (length (List.filter pred l))))
        with (length l - length (List.filter pred l))%nat by lia.
      exact Hshr.
    + unfold represents. cbn [data sz cap default]. unfold id.
      split; [lia|]. split; [lia|].
      replace (length (List.filter pred l))
        with (Z.to_nat (s - Z.of_nat (length l - length (List.filter pred l)))) at 1 by lia.
      rewrite Htk.
      replace (Z.to_nat (s - Z.of_nat (length l - length (List.filter pred l))))
        with (length (Some <$> List.filter pred l)) by (rewrite length_fmap; lia).
      apply take_app_length.
    + cbn [sz]. reflexivity.
    + reflexivity.
  - (* data = NULL: the vector is empty *)
    rewrite take_nil in Htake. destruct l as [|x l]; [|discriminate].
    cbn in Hsz. subst s. eexists. eexists.
    split; [vm_compute; reflexivity|].
    split; [|split; reflexivity].
    unfold represents. cbn. split; [reflexivity|]. split; [unfold int_max; lia | reflexivity].
Qed.

End Retain.

(** A full vector of two elements: [pop] runs the destructor of slot 2. *)
Lemma pop_destroys_past_the_end_witness :
  pop (mkVec (Some [Some 7; Some 8]) 2 2) =
    (Ret tt, mkVec (Some [Some 7; Some 8]) 1 2, [Dtor 2]) /\
  ~ Forall (fun a => 0 <= index_of a < 2) (trace (pop (mkVec (Some [Some 7; Some 8]) 2 2))) /\
  ~ In (Dtor 1) (trace (pop (mkVec (Some [Some 7; Some 8]) 2 2))) /\
  trace (shrink 1 (mkVec (Some [Some 7; Some 8]) 2 2)) = [Dtor 1].
Proof.
  apply (pop_destroys_past_the_end (mkVec (Some [Some 7; Some 8]) 2 2)).
  cbn. unfold int_max. lia.
Defined.

(** Five elements, the even ones retained. *)
Lemma retain_filter_witness :
  exists v' t,
    retain Z.even (mkVec (Some [Some 10; Some 11; Some 12; Some 13; Some 14; None]) 5 6) =
      (Ret tt, v', t) /\
    represents v' (List.filter Z.even [10; 11; 12; 13; 14]) /\
    sz v' = 5 - Z.of_nat (length [10; 11; 12; 13; 14] -
                          length (List.filter Z.even [10; 11; 12; 13; 14])) /\
    cap v' = 6.
Proof.
  apply (retain_filter Z.even
           (mkVec (Some [Some 10; Some 11; Some 12; Some 13; Some 14; None]) 5 6)
           [10; 11; 12; 13; 14]).
  unfold represents. cbn. unfold int_max. repeat split; lia.
Defined.

(** C2, the failing input.  On an empty vector, [capacity(INT_MAX)] with a
    [realloc] that succeeds returns normally with capacity 2:
    [min_cap - cap + 1] wraps to INT_MIN, so the increment is the other
    operand of [max], 2, which passes the overflow test. *)
Theorem capacity_int_max_on_empty :
  capacity_add 0 int_max = 2 /\
  capacity ReallocOk int_max (vec_new (T:=Z)) =
    (Ret tt, mkVec (Some [None; None]) 0 2, []).
Proof. split; vm_compute; reflexivity. Qed.


End VecFacts.

(** ** Facts about [MINISAT_ASSERT] *)

Module AssertFacts.
Import Stdio Assert.

Section Macro.
Context {S : Type}.
Variables (c_text func file : string) (line : Z).
Variables (fmt : option string) (ap : list printf_arg).

Lemma AssertionFailure_aborts :
  exists rest,
    AssertionFailure (S:=S) c_text func file line fmt ap =
    Aborted
      (Fprintf (nl +:+ "~~~ Assertion failed: " +:+ dq +:+ "%s" +:+ dq +:+ " ~~~" +:+ nl)
         [ArgStr c_text] :: rest).
Proof. unfold AssertionFailure. cbn [app]. eexists. reflexivity. Qed.

Lemma MINISAT_ASSERT_debug (c : S -> bool * S) s :
  MINISAT_ASSERT false c_text c func file line fmt ap s =
  if (c s).1 then Continues (c s).2
  else AssertionFailure c_text func file line fmt ap.
Proof.
  unfold MINISAT_ASSERT, MINISAT_ASSERT_TEST.
  destruct (c s) as [[|] s']; reflexivity.
Qed.

(** C7.  With NDEBUG, [MINISAT_ASSERT(c, ...)] continues in the state it
    was reached in whatever [c] is: [c] is not evaluated, so neither its
    value nor its effects show, and nothing aborts.  Without NDEBUG it
    evaluates [c] and continues when [c] is true; it ends in
    [AssertionFailure] exactly when [c] is false, and [AssertionFailure]
    first prints the text of the condition to stderr and never returns. *)
Theorem MINISAT_ASSERT_spec (c : S -> bool * S) (s : S) :
  MINISAT_ASSERT true c_text c func file line fmt ap s = Continues s /\
  MINISAT_ASSERT false c_text c func file line fmt ap s =
    (if (c s).1 then Continues (c s).2
     else AssertionFailure c_text func file line fmt ap) /\
  ((exists err, MINISAT_ASSERT false c_text c func file line fmt ap s = Aborted err)
     <-> (c s).1 = false) /\
  (exists rest,
     AssertionFailure (S:=S) c_text func file line fmt ap =
     Aborted
       (Fprintf (nl +:+ "~~~ Assertion failed: " +:+ dq +:+ "%s" +:+ dq +:+ " ~~~" +:+ nl)
          [ArgStr c_text] :: rest)).
Proof.
  split; [reflexivity|].
  split; [apply MINISAT_ASSERT_debug|].
  rewrite MINISAT_ASSERT_debug.
  destruct AssertionFailure_aborts as [rest Hab].
  split; [|now exists rest].
  destruct (c s).1; split.
  - intros [err [=]].
  - discriminate.
  - reflexivity.
  - intros _. rewrite Hab. eauto.
Qed.

End Macro.

End AssertFacts.

(** ** Facts about option parsing *)

Module OptionsFacts.
Import Int Stdio Options.

(** *** Strings *)

Lemma append_cons c s t : String c s +:+ t = String c (s +:+ t).
Proof. reflexivity. Qed.

Lemma append_nil_l t : EmptyString +:+ t = t.
Proof. reflexivity. Qed.

Lemma append_nil_r s : s +:+ EmptyString = s.
Proof. induction s as [|c s IH]; [reflexivity|]. now rewrite append_cons, IH. Qed.

Lemma append_assoc a b c : (a +:+ b) +:+ c = a +:+ (b +:+ c).
Proof. induction a as [|x a IH]; [reflexivity|]. now rewrite !append_cons, IH. Qed.

Lemma push_back_each_map f p acc :
  push_back_each f p acc = acc +:+ map_string f p.
Proof.
  revert acc. induction p as [|c p IH]; intros acc; cbn [push_back_each map_string].
  - now rewrite append_nil_r.
  - now rewrite IH, append_assoc.
Qed.

(** *** [match] *)

Lemma match_append p r : match_ (p +:+ r) p = Some r.
Proof.
  induction p as [|c p IH]; [reflexivity|].
  rewrite append_cons. cbn [match_]. now rewrite Ascii.eqb_refl.
Qed.

Lemma match_Some s p r : match_ s p = Some r <-> s = p +:+ r.
Proof.
  split; [|intros ->; apply match_append].
  revert s. induction p as [|c p IH]; intros s; cbn [match_].
  - now intros [= ->].
  - destruct s as [|d s]; [discriminate|].
    destruct (Ascii.eqb_spec d c) as [->|]; [|discriminate].
    intros H. rewrite append_cons. f_equal. now apply IH.
Qed.

Lemma match_None s p : match_ s p = None <-> forall r, s <> p +:+ r.
Proof.
  split.
  - intros H r E. apply match_Some in E. congruence.
  - intros H. destruct (match_ s p) as [r|] eqn:E; [|reflexivity].
    apply match_Some in E. now destruct (H r).
Qed.

(** *** The model on small inputs *)

Example env_var_name_rnd_init : env_var_name "rnd-init" = "MINISAT_RND_INIT".
Proof. reflexivity. Qed.

Example strtol_examples :
  strtol "  -12ab" = (-12, "ab") /\ strtol "+7" = (7, EmptyString) /\
  strtol "x1" = (0, "x1") /\ strtol "-" = (0, "-") /\
  strtol "99999999999999999999" = (long_max, EmptyString).
Proof. repeat split; vm_compute; reflexivity. Qed.

Example parseOptions_example :
  parseOptions Samples.strtod_nan Samples.no_sort true
    ["minisat"; "-verb=2"; "in.cnf"; "-no-pre"; "out"] Samples.two_options =
  Return
    (3%nat, ["minisat"; "in.cnf"; "out"; "-no-pre"; "out"],
     [OInt {| i_base := i_base Samples.verb; i_range := i_range Samples.verb; i_value := 2 |};
      OBool (set_bool Samples.pre false)])
    [].
Proof. vm_compute. reflexivity. Qed.

(** Without arguments, not even the program's name, [argc] stays 0. *)
Example parseOptions_no_arguments :
  parseOptions Samples.strtod_nan Samples.no_sort true [] Samples.two_options =
  Return (0%nat, [], OptionList Samples.two_options) [].
Proof. reflexivity. Qed.

(** The unknown flag is named without its ['-']. *)
Example parseOptions_unknown_flag :
  parseOptions Samples.strtod_nan Samples.no_sort true ["minisat"; "-frob"]
    Samples.two_options =
  Exit 1
    [Fprintf ("ERROR! Unknown flag " +:+ dq +:+ "%s" +:+ dq +:+
              ". Use '--%shelp' for help." +:+ nl)
       [ArgStr "frob"; ArgStr EmptyString]].
Proof. vm_compute. reflexivity. Qed.

Example decimal_examples :
  decimal "  -12" = Some (-12) /\ decimal "+7" = Some 7 /\ decimal "12ab" = None /\
  decimal EmptyString = None /\ decimal "-" = None /\
  decimal "4294967297" = Some 4294967297.
Proof. repeat split; vm_compute; reflexivity. Qed.

Example parseEnv_example :
  (parseEnv Samples.strtod_nan {[ "MINISAT_VERB" := "3" ]} (OInt Samples.verb)).1 =
  (true, OInt {| i_base := i_base Samples.verb; i_range := i_range Samples.verb; i_value := 3 |}).
Proof. vm_compute. reflexivity. Qed.

(** *** [parseValue] and [parseEnv] *)

Lemma env_var_name_upper_snake n : env_var_name n = "MINISAT_" +:+ upper_snake n.
Proof. unfold env_var_name, upper_snake. apply push_back_each_map. Qed.

Ltac case_if :=
  match goal with
  | |- context [if ?c then _ else _] => destruct c
  end.

Section ParseEnv.
Variable strtod : string -> float * string.

(** A rejected value leaves the option as it was. *)
Lemma parseValue_rejected_unchanged str env_name strict o :
  (parseValue strtod str env_name strict o).1.1 = false ->
  (parseValue strtod str env_name strict o).1.2 = o.
Proof.
  destruct o as [d|i|l|x|b]; unfold parseValue.
  - unfold DoubleOption_parseValue. destruct (strtod str) as [tmp end_].
    repeat case_if; cbn; congruence.
  - unfold IntOption_parseValue. destruct (strtol str) as [tmp end_].
    repeat case_if; cbn; congruence.
  - unfold Int64Option_parseValue. destruct (strtoll str) as [tmp end_].
    repeat case_if; cbn; congruence.
  - cbn. discriminate.
  - unfold BoolOption_parseValue. repeat case_if; cbn; congruence.
Qed.

(** A rejected value is reported by two calls of [fprintf]. *)
Lemma parseValue_rejected_diagnostic str env_name strict o :
  (parseValue strtod str env_name strict o).1.1 = false ->
  length (parseValue strtod str env_name strict o).2 = 2%nat.
Proof.
  destruct o as [d|i|l|x|b]; unfold parseValue.
  - unfold DoubleOption_parseValue. destruct (strtod str) as [tmp end_].
    repeat case_if; cbn; congruence.
  - unfold IntOption_parseValue. destruct (strtol str) as [tmp end_].
    repeat case_if; cbn; congruence.
  - unfold Int64Option_parseValue. destruct (strtoll str) as [tmp end_].
    repeat case_if; cbn; congruence.
  - cbn. discriminate.
  - unfold BoolOption_parseValue. repeat case_if; cbn; congruence.
Qed.

(** [parseEnv] looks up one variable and hands its value to
    [parseValue]. *)
Lemma parseEnv_parseValue (env : gmap string string) (o : Option) :
  env_var_name (name (base o)) = "MINISAT_" +:+ upper_snake (name (base o)) /\
  (forall env' : gmap string string,
     env' !! ("MINISAT_" +:+ upper_snake (name (base o))) =
     env !! ("MINISAT_" +:+ upper_snake (name (base o))) ->
     parseEnv strtod env' o = parseEnv strtod env o) /\
  match env !! ("MINISAT_" +:+ upper_snake (name (base o))) with
  | Some v =>
      if (parseValue strtod v (Some ("MINISAT_" +:+ upper_snake (name (base o)))) false o).1.1
      then
        (parseEnv strtod env o).1 =
        (true,
         (parseValue strtod v (Some ("MINISAT_" +:+ upper_snake (name (base o)))) false o).1.2)
      else (parseEnv strtod env o).1 = (false, o)
  | None => parseEnv strtod env o = (false, o, [])
  end.
Proof.
  split; [apply env_var_name_upper_snake|].
  unfold parseEnv. rewrite env_var_name_upper_snake.
  set (n := "MINISAT_" +:+ upper_snake (name (base o))).
  split; [now intros env' ->|].
  destruct (env !! n) as [v|]; [|reflexivity].
  pose proof (parseValue_rejected_unchanged v (Some n) false o) as Hrej.
  destruct (parseValue strtod v (Some n) false o) as [[ok o'] e].
  cbn [fst snd] in *. destruct ok; [reflexivity|].
  cbn [fst]. now rewrite Hrej.
Qed.

End ParseEnv.

(** *** [BoolOption::parse] *)

Lemma str_lower_map v : push_back_each tolower v EmptyString = map_string tolower v.
Proof. now rewrite push_back_each_map. Qed.

(** *** Which values parse *)

(** Comparisons of floating-point numbers, none of them a NaN. *)
Lemma SFcompare_swap x y : SFcompare y x = option_map CompOpp (SFcompare x y).
Proof.
  destruct x as [sx|sx| |sx mx ex], y as [sy|sy| |sy my ey]; cbn; try reflexivity;
    repeat match goal with s : bool |- _ => destruct s end; cbn; try reflexivity;
    rewrite (Z.compare_antisym ex ey); destruct (ex ?= ey); cbn; try reflexivity;
    f_equal; change (Pos.compare_cont Eq ?a ?b) with (Pos.compare a b);
    now rewrite (Pos.compare_antisym mx my).
Qed.

Lemma not_nan_compare x y :
  PrimFloat.is_nan x = false -> PrimFloat.is_nan y = false ->
  exists c, SFcompare (Prim2SF x) (Prim2SF y) = Some c.
Proof.
  unfold PrimFloat.is_nan. rewrite !FloatAxioms.eqb_spec. unfold SFeqb.
  destruct (Prim2SF x) as [sx|sx| |sx mx ex], (Prim2SF y) as [sy|sy| |sy my ey];
    cbn; try discriminate; intros _ _; now eexists.
Qed.

Lemma range_tests r x :
  PrimFloat.is_nan x = false ->
  PrimFloat.is_nan (dr_begin r) = false -> PrimFloat.is_nan (dr_end r) = false ->
  negb (too_large r x) && negb (too_small r x) = in_double_range r x.
Proof.
  intros Hx Hb He.
  destruct (not_nan_compare x (dr_begin r) Hx Hb) as [cb Hcb].
  destruct (not_nan_compare x (dr_end r) Hx He) as [ce Hce].
  unfold too_large, too_small, in_double_range.
  rewrite !FloatAxioms.leb_spec, ?FloatAxioms.ltb_spec, !FloatAxioms.eqb_spec.
  unfold SFleb, SFltb, SFeqb.
  rewrite (SFcompare_swap (Prim2SF x) (Prim2SF (dr_end r))).
  rewrite (SFcompare_swap (Prim2SF x) (Prim2SF (dr_begin r))).
  rewrite Hcb, Hce.
  destruct cb, ce, (begin_inclusive r), (end_inclusive r); reflexivity.
Qed.

(** [digits] reads what [all_digits] tests and [digits_value] evaluates. *)
Lemma digits_all s : forall acc,
  all_digits s = true -> digits s acc = (digits_value s acc, EmptyString).
Proof.
  induction s as [|c s IH]; intros acc; cbn; [reflexivity|].
  destruct (isdigit c); [|discriminate]. apply IH.
Qed.

Lemma digits_rest s : forall acc,
  all_digits s = false -> (digits s acc).2 <> EmptyString.
Proof.
  induction s as [|c s IH]; intros acc; cbn; [discriminate|].
  destruct (isdigit c); [apply IH | discriminate].
Qed.

(** [strtol] and [strtoll] on a decimal integer, and on another string. *)
Lemma strto_decimal lo hi str :
  match decimal str with
  | Some z => strto lo hi str = (Z.max lo (Z.min hi z), EmptyString)
  | None => str <> EmptyString -> (strto lo hi str).2 <> EmptyString
  end.
Proof.
  unfold decimal, strto.
  destruct (match skip_space str with
            | String "-" r => (true, r)
            | String "+" r => (false, r)
            | _ => (false, skip_space str)
            end) as [neg s2].
  destruct s2 as [|c s2]; [auto|].
  cbn [all_digits]. destruct (isdigit c) eqn:Hc; cbn [andb]; [|auto].
  destruct (all_digits s2) eqn:Hall.
  - rewrite (digits_all (String c s2) 0) by (cbn; now rewrite Hc). reflexivity.
  - intros _.
    pose proof (digits_rest (String c s2) 0 ltac:(cbn; now rewrite Hc)) as Hrest.
    now destruct (digits (String c s2) 0) as [n rest].
Qed.

Section Parses.
Variable strtod : string -> float * string.

(** On a regular input [parseValue] accepts the strings that parse for
    the option's type, stores what they stand for and, for the others,
    leaves the option alone. *)
Lemma parseValue_parses str env strict o :
  regular strtod str o ->
  (parseValue strtod str env strict o).1 =
    match parses strtod str o with
    | Some o' => (true, o')
    | None => (false, o)
    end.
Proof.
  destruct o as [d|i|l|x|b]; cbn [regular parses parseValue].
  - intros (Hx & Hb & He). unfold DoubleOption_parseValue.
    destruct (strtod str) as [tmp rest]. cbn [fst] in Hx.
    rewrite <- (range_tests _ _ Hx Hb He).
    destruct (String.eqb rest EmptyString); cbn [negb andb]; [|reflexivity].
    destruct (too_large _ _); [reflexivity|].
    destruct (too_small _ _); reflexivity.
  - intros [Hne Hfit]. unfold IntOption_parseValue, strtol.
    pose proof (strto_decimal long_min long_max str) as H.
    destruct (decimal str) as [z|]; cbn [mbind option_bind].
    + specialize (Hfit z eq_refl). rewrite H.
      replace (Z.max long_min (Z.min long_max z)) with z
        by (unfold long_min, long_max, int_min, int_max in *; lia).
      rewrite IntFacts.wrap_small by exact Hfit. cbn [String.eqb negb].
      destruct (Z.gtb_spec z (ir_end (i_range i))),
               (Z.ltb_spec z (ir_begin (i_range i))),
               (Z.leb_spec (ir_begin (i_range i)) z),
               (Z.leb_spec z (ir_end (i_range i))); cbn; try reflexivity; lia.
    + specialize (H Hne). destruct (strto long_min long_max str) as [n rest].
      cbn [snd] in H. destruct (String.eqb_spec rest EmptyString); [contradiction|].
      reflexivity.
  - intros [Hne Hfit]. unfold Int64Option_parseValue, strtoll.
    pose proof (strto_decimal long_min long_max str) as H.
    destruct (decimal str) as [z|]; cbn [mbind option_bind].
    + specialize (Hfit z eq_refl). rewrite H.
      replace (Z.max long_min (Z.min long_max z)) with z by lia.
      cbn [String.eqb negb].
      destruct (Z.gtb_spec z (lr_end (l_range l))),
               (Z.ltb_spec z (lr_begin (l_range l))),
               (Z.leb_spec (lr_begin (l_range l)) z),
               (Z.leb_spec z (lr_end (l_range l))); cbn; try reflexivity; lia.
    + specialize (H Hne). destruct (strto long_min long_max str) as [n rest].
      cbn [snd] in H. destruct (String.eqb_spec rest EmptyString); [contradiction|].
      reflexivity.
  - reflexivity.
  - intros _. unfold BoolOption_parseValue. rewrite str_lower_map.
    destruct (found true_values _); [reflexivity|].
    destruct (found false_values _); reflexivity.
Qed.

(** C4.  When the value of the variable is a regular input of the
    option, [parseEnv] does what the specification says: it looks at the
    variable "MINISAT_" followed by
    the name in upper snake case and at no other; a value that parses for
    the option's type is stored and the result is true; otherwise the
    option is unchanged and the result is false.  On the empty string it
    does not: with MINISAT_VERB set to it, an [IntOption] "verb" of range
    [0 .. 10], for which the empty string does not parse, gets the value 0
    and [parseEnv] returns true. *)
Theorem parseEnv_parses_but_empty :
  (forall env o,
     (forall v, env !! ("MINISAT_" +:+ upper_snake (name (base o))) = Some v ->
        regular strtod v o) ->
     parseEnv_as_specified strtod env o) /\
  parses strtod EmptyString (OInt Samples.verb) = None /\
  parseEnv strtod {[ "MINISAT_VERB" := EmptyString ]} (OInt Samples.verb) =
    (true,
     OInt {| i_base := i_base Samples.verb; i_range := i_range Samples.verb; i_value := 0 |},
     []) /\
  ~ parseEnv_as_specified strtod {[ "MINISAT_VERB" := EmptyString ]} (OInt Samples.verb).
Proof.
  split; [|split; [|split]].
  - intros env o Hreg.
    destruct (parseEnv_parseValue strtod env o) as (_ & Hframe & Hrun).
    split; [exact Hframe|].
    destruct (env !! _) as [v|]; [|now rewrite Hrun].
    pose proof (parseValue_parses v
                  (Some ("MINISAT_" +:+ upper_snake (name (base o)))) false o
                  (Hreg v eq_refl)) as Hp.
    destruct (parseValue strtod v _ false o) as [[ok o'] e]. cbn [fst snd] in *.
    destruct ok; rewrite Hrun; destruct (parses strtod v o); congruence.
  - reflexivity.
  - vm_compute. reflexivity.
  - intros [_ H]. vm_compute in H. discriminate.
Qed.

End Parses.

(** The first part of the theorem at MINISAT_VERB=3 and an [IntOption]
    "verb" of range [0 .. 10]. *)
Lemma parseEnv_parses_but_empty_witness :
  parseEnv_as_specified Samples.strtod_nan {[ "MINISAT_VERB" := "3" ]} (OInt Samples.verb).
Proof.
  apply (proj1 (parseEnv_parses_but_empty Samples.strtod_nan)).
  intros v Hv. vm_compute in Hv. injection Hv as <-.
  split; [discriminate|]. intros z Hz. vm_compute in Hz. injection Hz as <-.
  unfold int_min, int_max. lia.
Defined.

(** A name that does not start with "no-" does not start with it after
    ["=v"] is appended. *)
Lemma match_no_append N v :
  match_ N "no-" = None -> match_ (N +:+ "=" +:+ v) "no-" = None.
Proof.
  destruct N as [|a [|b [|c N]]]; rewrite ?append_cons, ?append_nil_l; cbn [match_].
  - reflexivity.
  - now destruct (Ascii.eqb a "n").
  - destruct (Ascii.eqb a "n"); [|reflexivity]. now destruct (Ascii.eqb b "o").
  - destruct (Ascii.eqb a "n"); [|reflexivity].
    destruct (Ascii.eqb b "o"); [|reflexivity].
    now destruct (Ascii.eqb c "-").
Qed.

Lemma match_dash_cons s : match_ ("-" +:+ s) "-" = Some s.
Proof. apply (match_append "-"). Qed.

Lemma BoolOption_parseValue_run v o :
  (let '(ok, o', e) := BoolOption_parseValue v None true o in
   if ok then Return (true, o') e else Exit 1 e) = parsed_value v o.
Proof.
  unfold BoolOption_parseValue, parsed_value. rewrite str_lower_map.
  destruct (found true_values _); [reflexivity|].
  destruct (found false_values _); reflexivity.
Qed.

Section BoolParse.
Variables (str : string) (o : BoolOption).

Lemma BoolOption_parse_negated :
  str = "-no-" +:+ name (b_base o) ->
  BoolOption_parse str o = Return (true, set_bool o false) [].
Proof.
  intros ->. unfold BoolOption_parse.
  change ("-no-" +:+ name (b_base o)) with ("-" +:+ ("no-" +:+ name (b_base o))).
  rewrite match_dash_cons, (match_append "no-").
  now rewrite String.eqb_refl.
Qed.

Lemma BoolOption_parse_plain :
  match_ (name (b_base o)) "no-" = None ->
  str = "-" +:+ name (b_base o) ->
  BoolOption_parse str o = Return (true, set_bool o true) [].
Proof.
  intros Hno ->. unfold BoolOption_parse. rewrite match_dash_cons, Hno.
  rewrite <- (append_nil_r (name (b_base o))) at 1. rewrite match_append.
  reflexivity.
Qed.

Lemma BoolOption_parse_value v :
  match_ (name (b_base o)) "no-" = None ->
  str = "-" +:+ name (b_base o) +:+ "=" +:+ v ->
  BoolOption_parse str o = parsed_value v o.
Proof.
  intros Hno ->. unfold BoolOption_parse. rewrite match_dash_cons.
  rewrite (match_no_append _ v Hno), match_append.
  rewrite (match_append "="). apply BoolOption_parseValue_run.
Qed.

Lemma BoolOption_parse_other :
  str <> "-" +:+ name (b_base o) ->
  str <> "-no-" +:+ name (b_base o) ->
  (forall v, str <> "-" +:+ name (b_base o) +:+ "=" +:+ v) ->
  BoolOption_parse str o = Return (false, o) [].
Proof.
  intros H1 H2 H3. unfold BoolOption_parse.
  destruct (match_ str "-") as [s1|] eqn:E1; [|reflexivity].
  apply match_Some in E1. subst str.
  destruct (match_ s1 "no-") as [s2|] eqn:E2.
  { apply match_Some in E2. subst s1.
    destruct (String.eqb_spec s2 (name (b_base o))) as [->|]; [|reflexivity].
    now destruct H2. }
  destruct (match_ s1 (name (b_base o))) as [s2|] eqn:E3; [|reflexivity].
  apply match_Some in E3. subst s1.
  destruct (match_ s2 "=") as [v|] eqn:E4.
  { apply match_Some in E4. subst s2. now destruct (H3 v). }
  destruct (String.eqb_spec s2 EmptyString) as [->|]; [|reflexivity].
  rewrite append_nil_r in H1. now destruct H1.
Qed.

(** C6 (amended).  For a Boolean option named [N]: ["-no-N"] is accepted
    and clears the value; if [N] does not itself start with "no-", ["-N"]
    is accepted and sets the value, and ["-N=v"] is accepted when [v] in
    lower case is one of "true", "yes", "on", "1" (the value is set) or one
    of "false", "no", "off", "0" (it is cleared), while any other [v] ends
    the process with code 1; every string of none of the three forms is
    rejected with the value unchanged and nothing printed. *)
Theorem BoolOption_parse_spec :
  (str = "-no-" +:+ name (b_base o) ->
     BoolOption_parse str o = Return (true, set_bool o false) []) /\
  (match_ (name (b_base o)) "no-" = None ->
     (str = "-" +:+ name (b_base o) ->
        BoolOption_parse str o = Return (true, set_bool o true) []) /\
     (forall v, str = "-" +:+ name (b_base o) +:+ "=" +:+ v ->
        BoolOption_parse str o = parsed_value v o)) /\
  (str <> "-" +:+ name (b_base o) ->
   str <> "-no-" +:+ name (b_base o) ->
   (forall v, str <> "-" +:+ name (b_base o) +:+ "=" +:+ v) ->
     BoolOption_parse str o = Return (false, o) []).
Proof.
  split; [exact BoolOption_parse_negated|].
  split; [|exact BoolOption_parse_other].
  intros Hno. split; [exact (BoolOption_parse_plain Hno)|].
  intros v. exact (BoolOption_parse_value v Hno).
Qed.

End BoolParse.

Lemma BoolOption_parse_spec_witness :
  BoolOption_parse "-no-pre" Samples.pre = Return (true, set_bool Samples.pre false) [] /\
  BoolOption_parse "-pre" Samples.pre = Return (true, set_bool Samples.pre true) [] /\
  BoolOption_parse "-pre=OFF" Samples.pre = parsed_value "OFF" Samples.pre /\
  BoolOption_parse "pre" Samples.pre = Return (false, Samples.pre) [].
Proof.
  split; [|split; [|split]].
  - now apply (proj1 (BoolOption_parse_spec "-no-pre" Samples.pre)).
  - now apply (proj1 (proj2 (BoolOption_parse_spec "-pre" Samples.pre))).
  - now apply (proj1 (proj2 (BoolOption_parse_spec "-pre=OFF" Samples.pre))).
  - apply (proj2 (proj2 (BoolOption_parse_spec "pre" Samples.pre))); discriminate.
Defined.

(** C6, counterexample.  The option is named "no-x": ["-no-x"], which is
    ["-N"], is taken for the negation of an option "x" and rejected. *)
Lemma BoolOption_parse_as_specified_fails :
  BoolOption_parse "-no-x" Samples.no_x = Return (false, Samples.no_x) [] /\
  ~ BoolOption_parse_as_specified Samples.no_x.
Proof.
  split; [reflexivity|].
  intros H. destruct (H "-no-x") as [H1 _].
  specialize (H1 eq_refl). discriminate H1.
Qed.

(** *** [parseOptions] *)

Section ParseOptions.
Variable strtod : string -> float * string.
Variable sort_options : list Option -> list Option.

(** [parse] returns false only before it has touched anything. *)
Lemma BoolOption_parse_false str x x' e :
  BoolOption_parse str x = Return (false, x') e -> x' = x /\ e = [].
Proof.
  unfold BoolOption_parse.
  destruct (match_ str "-") as [s1|]; [|now intros [= <- <-]].
  destruct (match_ s1 "no-") as [s2|].
  { destruct (String.eqb s2 _); [discriminate | now intros [= <- <-]]. }
  destruct (match_ s1 _) as [s2|]; [|now intros [= <- <-]].
  destruct (match_ s2 "=") as [v|].
  { destruct (BoolOption_parseValue v None true x) as [[[|] x''] e'']; discriminate. }
  destruct (String.eqb s2 _); [discriminate | now intros [= <- <-]].
Qed.

Lemma Option_parse_false str o o' e :
  Option_parse strtod str o = Return (false, o') e -> o' = o /\ e = [].
Proof.
  unfold Option_parse.
  destruct (match_ str "-") as [s1|]; [|now intros [= <- <-]].
  destruct (match_ s1 _) as [s2|]; [|now intros [= <- <-]].
  destruct (match_ s2 "=") as [v|]; [|now intros [= <- <-]].
  destruct (parseValue strtod v None true o) as [[[|] o''] e'']; discriminate.
Qed.

Lemma parse_false str o o' e :
  parse strtod str o = Return (false, o') e -> o' = o /\ e = [].
Proof.
  destruct o as [d|i|l|x|b]; cbn [parse]; try apply Option_parse_false.
  destruct (BoolOption_parse str b) as [[ok b'] e'| |] eqn:E; try discriminate.
  intros [= -> <- <-]. apply BoolOption_parse_false in E as [-> ->]. now split.
Qed.






End ParseOptions.



(** *** [IntOption::parseValue] and [DoubleOption::parseValue] *)

(** What [IntOption::parseValue] accepts: [strtol] stops at the end of the
    string and its result, converted to 32 bits, is in the range. *)
Lemma IntOption_parseValue_accepts str env_name strict o :
  (IntOption_parseValue str env_name strict o).1.1 = true <->
  (strtol str).2 = EmptyString /\
  ir_begin (i_range o) <= wrap (strtol str).1 <= ir_end (i_range o).
Proof.
  unfold IntOption_parseValue. destruct (strtol str) as [l end_]. cbn [fst snd].
  destruct (String.eqb_spec end_ EmptyString) as [->|Hne]; cbn [negb].
  - destruct (Z.gtb_spec (wrap l) (ir_end (i_range o)));
      [cbn; split; [discriminate | lia]|].
    destruct (Z.ltb_spec (wrap l) (ir_begin (i_range o)));
      cbn; split; try discriminate; try lia; auto.
  - cbn. split; [discriminate | now intros [? _]].
Qed.

(** C8, failing inputs.  An [IntOption] with range [0 .. 10] accepts the
    empty string, storing 0: [strtol] converts nothing, leaves [end] at the
    terminator and returns 0.  It accepts "4294967297", storing 1: the
    [long] result 2^32 + 1 is cut to 32 bits before it is compared with
    the range.  A [DoubleOption] with range (0, 1) accepts "nan": no
    comparison with a NaN is true, so neither range test rejects it. *)
Theorem parseValue_accepts_invalid_values :
  IntOption_parseValue EmptyString None true Samples.verb =
    (true, {| i_base := i_base Samples.verb; i_range := i_range Samples.verb; i_value := 0 |}, []) /\
  IntOption_parseValue "4294967297" None true Samples.verb =
    (true, {| i_base := i_base Samples.verb; i_range := i_range Samples.verb; i_value := 1 |}, []) /\
  (DoubleOption_parseValue Samples.strtod_nan "nan" None true Samples.var_decay).1.1 = true /\
  PrimFloat.eqb
    (d_value (DoubleOption_parseValue Samples.strtod_nan "nan" None true Samples.var_decay).1.2)
    (d_value (DoubleOption_parseValue Samples.strtod_nan "nan" None true Samples.var_decay).1.2)
  = false.
Proof. repeat split; vm_compute; reflexivity. Qed.

End OptionsFacts.

(** ** More about [vec]: what the member functions do to the contents *)

Module VecExtra.
Import Int IntFacts Vec VecFacts.

Section Contents.
Context {T : Type}.
Implicit Types (v : vec T) (l : list T) (buf : list (option T)).

Lemma well_formed_inv v l :
  well_formed v l ->
  sz v = Z.of_nat (length l) /\ 0 <= sz v <= cap v /\ cap v <= int_max /\
  Z.of_nat (length (default [] (data v))) = cap v /\
  take (length l) (default [] (data v)) = Some <$> l.
Proof. intros ((Hsz & _ & Htake) & Hle & Hmax & Hlen). repeat split; try done; lia. Qed.

(** A step that touches no slot. *)
Lemma bind_nil {A B} (m : M T A) (f : A -> M T B) v a v' :
  m v = (Ret a, v', []) -> (m ≫= f) v = f a v'.
Proof.
  intros Hm. unfold mbind, M_mbind, M_bind. rewrite Hm.
  now destruct (f a v') as [[r v''] t'].
Qed.

(** [capacity] with a [realloc] that succeeds, when it has to grow and the
    increment passes the overflow test. *)
Lemma capacity_ok v l min_cap :
  well_formed v l ->
  cap v < min_cap -> min_cap <= int_max -> min_cap - cap v < int_max ->
  capacity_add (cap v) min_cap <= size_max - cap v ->
  exists buf1,
    capacity ReallocOk min_cap v =
      (Ret tt, mkVec (Some buf1) (sz v) (cap v + capacity_add (cap v) min_cap), []) /\
    Z.of_nat (length buf1) = cap v + capacity_add (cap v) min_cap /\
    take (length l) buf1 = Some <$> l /\
    min_cap <= cap v + capacity_add (cap v) min_cap.
Proof.
  intros Hwf Hlt Hmax Hno Hfit.
  destruct (well_formed_inv v l Hwf) as (Hsz & Hrange & _ & Hlen & Htake).
  pose proof (capacity_add_needed (cap v) min_cap ltac:(lia) Hlt Hmax Hno) as Hneed.
  pose proof (capacity_add_pos (cap v) min_cap ltac:(lia)) as Hpos.
  eexists. split; [|split; [|split]].
  - unfold capacity.
    destruct (Z.geb_spec (cap v) min_cap) as [?|_]; [lia|].
    rewrite (wrap_small (size_max - cap v)) by int_arith.
    change (size_max <=? int_max) with true. cbn [andb].
    destruct (Z.gtb_spec (capacity_add (cap v) min_cap) (size_max - cap v)); [lia|].
    rewrite (wrap_small (cap v + _)) by int_arith. reflexivity.
  - rewrite length_resize. lia.
  - rewrite resize_ge by lia. rewrite take_app_le by lia. exact Htake.
  - lia.
Qed.

(** The tail of [push]: with room in the block, the element is constructed
    in slot [sz]. *)
Lemma push_room buf s c l x :
  s = Z.of_nat (length l) -> s < Z.of_nat (length buf) -> s < int_max ->
  take (length l) buf = Some <$> l ->
  (s' ← get_sz; set_sz (wrap (s' + 1)) ;; ctor s' x) (mkVec (Some buf) s c) =
    (Ret tt, mkVec (Some (<[length l := Some x]> buf)) (s + 1) c, [Ctor s]) /\
  take (length (l ++ [x])) (<[length l := Some x]> buf) = Some <$> (l ++ [x]).
Proof.
  intros -> Hlt Hmax Htake. split.
  - unfold mbind, M_mbind, M_bind, get_sz, set_sz, ctor, slot_set. cbn -[wrap].
    rewrite wrap_small by int_arith.
    destruct (Z.leb_spec 0 (Z.of_nat (length l))); [|lia].
    cbn. now rewrite Nat2Z.id.
  - rewrite length_app. cbn [length]. rewrite Nat.add_1_r.
    rewrite (take_S_r _ _ (Some x)) by (apply list_lookup_insert_eq; lia).
    rewrite take_insert_ge by lia. now rewrite Htake, fmap_app.
Qed.

(** X1.  [push(elem)] on a well-formed vector holding [l], with a
    [realloc] that succeeds: it returns normally, the vector is well formed
    and holds [l] followed by [elem], the only slot touched is slot [sz],
    where [elem] is constructed, and the capacity is unchanged unless the
    vector was full, in which case it grows by the increment of
    [capacity(sz + 1)]. *)
Theorem push_appends v l x :
  well_formed v l -> 3 * cap v + 4 <= 2 * int_max ->
  exists v',
    push ReallocOk x v = (Ret tt, v', [Ctor (sz v)]) /\
    well_formed v' (l ++ [x]) /\
    cap v' = (if sz v =? cap v then cap v + capacity_add (cap v) (cap v + 1) else cap v).
Proof.
  intros Hwf Hbig.
  destruct (well_formed_inv v l Hwf) as (Hsz & Hrange & Hmax & Hlen & Htake).
  assert (Hstep : exists buf1 c1,
    (if sz v =? cap v then capacity ReallocOk (wrap (sz v + 1)) else mret tt) v =
      (Ret tt, mkVec (Some buf1) (sz v) c1, []) /\
    Z.of_nat (length buf1) = c1 /\ sz v < c1 <= int_max /\
    take (length l) buf1 = Some <$> l /\
    c1 = (if sz v =? cap v then cap v + capacity_add (cap v) (cap v + 1) else cap v)).
  { destruct (Z.eqb_spec (sz v) (cap v)) as [Hfull|Hroom].
    - pose proof (capacity_add_push (cap v) ltac:(int_arith)) as [_ Hgrow].
      destruct (capacity_ok v l (cap v + 1) Hwf ltac:(lia) ltac:(int_arith)
                  ltac:(int_arith) ltac:(int_arith)) as (buf1 & Hcap & Hlen1 & Htake1 & Hge).
      exists buf1, (cap v + capacity_add (cap v) (cap v + 1)).
      rewrite wrap_small by int_arith.
      replace (sz v + 1) with (cap v + 1) by lia.
      repeat split; try done; try lia; int_arith.
    - destruct v as [[buf|] s c]; cbn [data sz cap default] in *; unfold id in *;
        [|cbn in Hlen; lia].
      exists buf, c. repeat split; try done; lia. }
  destruct Hstep as (buf1 & c1 & Hcap & Hlen1 & Hc1 & Htake1 & Hc1eq).
  destruct (push_room buf1 (sz v) c1 l x Hsz ltac:(lia) ltac:(int_arith) Htake1)
    as [Htail Htake2].
  eexists. split; [|split].
  - unfold push.
    rewrite (bind_nil _ _ v (sz v) v eq_refl), (bind_nil _ _ v (cap v) v eq_refl).
    erewrite bind_nil; [exact Htail | exact Hcap].
  - unfold well_formed, represents. cbn [data sz cap default]. unfold id.
    rewrite length_app in Htake2 |- *. rewrite length_insert.
    cbn [length] in Htake2 |- *.
    repeat split; try lia; try int_arith. exact Htake2.
  - exact Hc1eq.
Qed.

End Contents.

(** The theorem at a full vector of two elements. *)
Lemma push_appends_witness :
  exists v',
    push ReallocOk 9 (mkVec (Some [Some 7; Some 8]) 2 2) = (Ret tt, v', [Ctor 2]) /\
    well_formed v' ([7; 8] ++ [9]) /\
    cap v' = (if 2 =? 2 then 2 + capacity_add 2 (2 + 1) else 2).
Proof.
  apply (push_appends (mkVec (Some [Some 7; Some 8]) 2 2) [7; 8] 9).
  - unfold well_formed, represents, int_max. cbn. repeat split; lia.
  - unfold int_max. cbn. lia.
Defined.

Section Edges.
Context {T : Type}.
Implicit Types (v : vec T) (l : list T) (buf : list (option T)).

Lemma bind_throw {A B} (m : M T A) (f : A -> M T B) v v' t :
  m v = (Throw, v', t) -> (m ≫= f) v = (Throw, v', t).
Proof. intros Hm. unfold mbind, M_mbind, M_bind. now rewrite Hm. Qed.

Lemma bind_assert_fail {A B} (m : M T A) (f : A -> M T B) v v' t :
  m v = (AssertFail, v', t) -> (m ≫= f) v = (AssertFail, v', t).
Proof. intros Hm. unfold mbind, M_mbind, M_bind. now rewrite Hm. Qed.

(** X2.  [push(elem)] on a full vector when memory runs out ([realloc]
    gives NULL with [errno == ENOMEM]), or when the increment no longer
    fits below INT_MAX: OutOfMemoryException is thrown, no slot is touched
    and [sz] is unchanged.  If the overflow test fired the vector is as it
    was; if [realloc] failed, [cap] has already been raised and [data] is
    NULL, so the elements the vector held are no longer reachable. *)
Theorem push_out_of_memory v x :
  sz v = cap v -> 0 <= cap v < int_max ->
  push (ReallocNull ENOMEM) x v =
    (Throw,
     (if capacity_add (cap v) (cap v + 1) >? size_max - cap v then v
      else mkVec None (sz v) (cap v + capacity_add (cap v) (cap v + 1))),
     []).
Proof.
  intros Hfull Hcap. unfold push.
  rewrite (bind_nil _ _ v (sz v) v eq_refl), (bind_nil _ _ v (cap v) v eq_refl).
  apply bind_throw.
  destruct (Z.eqb_spec (sz v) (cap v)); [|lia].
  rewrite wrap_small by int_arith. rewrite Hfull at 1.
  pose proof (capacity_add_in_range (cap v) (cap v + 1) ltac:(lia)) as Hadd.
  unfold capacity.
  destruct (Z.geb_spec (cap v) (cap v + 1)) as [?|_]; [lia|].
  rewrite (wrap_small (size_max - cap v)) by int_arith.
  change (size_max <=? int_max) with true. cbn [andb].
  destruct (Z.gtb_spec (capacity_add (cap v) (cap v + 1)) (size_max - cap v)); [reflexivity|].
  rewrite (wrap_small (cap v + _)) by int_arith. reflexivity.
Qed.

(** X3.  [last()] on a well-formed vector that holds [l] followed by [x]
    returns [x], reads slot [sz - 1] only and changes nothing.  On a vector
    with [sz == 0] it reads slot -1, which is no slot of the block. *)
Theorem last_spec v :
  (forall l x, well_formed v (l ++ [x]) ->
     last v = (Ret x, v, [Load (sz v - 1)])) /\
  (sz v = 0 -> last v = (Undefined, v, [Load (-1)])).
Proof.
  split.
  - intros l x Hwf.
    destruct (well_formed_inv v _ Hwf) as (Hsz & Hrange & Hmax & Hlen & Htake).
    rewrite length_app in Hsz, Htake. cbn [length] in Hsz, Htake.
    unfold last. rewrite (bind_nil _ _ v (sz v) v eq_refl).
    rewrite wrap_small by int_arith.
    replace (sz v - 1) with (Z.of_nat (length l)) by lia.
    destruct v as [[buf|] s c]; cbn [data sz cap default] in *; unfold id in *.
    + apply load_slot.
      rewrite <- (lookup_take_lt buf (length l + 1)) by lia.
      rewrite Htake, fmap_app. cbn.
      rewrite lookup_app_r by (rewrite length_fmap; lia).
      now rewrite length_fmap, Nat.sub_diag.
    + rewrite take_nil in Htake. now destruct l.
  - intros Hsz. unfold last. rewrite (bind_nil _ _ v (sz v) v eq_refl).
    rewrite Hsz. reflexivity.
Qed.

(** X22.  [operator[]] on a block of [cap] slots, at an index
    [0 <= i < cap]: a read after a write gives the value written, and the
    write changes no other slot, nor [sz], nor [cap].  Neither compares the
    index with [sz]. *)
Theorem index_write_then_read buf s c i x :
  0 <= i < Z.of_nat (length buf) ->
  (index_write i x ;; index_read i) (mkVec (Some buf) s c) =
    (Ret x, mkVec (Some (<[Z.to_nat i := Some x]> buf)) s c, [Store i; Load i]) /\
  forall j, j <> i ->
    slot_get j (data (state (index_write i x (mkVec (Some buf) s c)))) =
    slot_get j (Some buf).
Proof.
  intros Hi. split.
  - unfold index_write, index_read.
    remember (Z.to_nat i) as n eqn:Hn.
    assert (Hin : i = Z.of_nat n) by lia. clear Hn. subst i.
    change [Store (Z.of_nat n); Load (Z.of_nat n)]
      with ([Store (Z.of_nat n)] ++ [Load (Z.of_nat n)]).
    eapply bind_run; [apply store_slot|].
    apply load_slot. apply list_lookup_insert_eq. lia.
  - intros j Hj. unfold index_write, store, state, slot_set, slot_get. cbn.
    destruct (Z.leb_spec 0 i); [|lia].
    destruct (Z.leb_spec 0 j); [|reflexivity].
    cbn. rewrite list_lookup_insert_ne by lia. reflexivity.
Qed.

(** The loop of [shrink] with the destructor calls it makes, in order. *)
Lemma shrink_loop_exact n :
  forall from (d : option (list (option T))) s c,
  Z.of_nat n <= s <= int_max ->
  exists d',
    for_ n from (fun _ => s ← get_sz; set_sz (wrap (s - 1)) ;; s' ← get_sz; dtor s')
      (mkVec d s c) =
    (Ret tt, mkVec d' (s - Z.of_nat n) c,
     (fun k => Dtor (s - 1 - Z.of_nat k)) <$> seq 0 n) /\
    take (Z.to_nat (s - Z.of_nat n)) (default [] d') =
    take (Z.to_nat (s - Z.of_nat n)) (default [] d).
Proof.
  induction n as [|n IH]; intros from d s c Hs.
  - exists d. cbn [for_ seq fmap list_fmap]. now rewrite Z.sub_0_r.
  - destruct (IH (from + 1) (slot_set (s - 1) None d) (s - 1) c ltac:(lia))
      as (d' & Hrun & Htake).
    replace (s - Z.of_nat (S n)) with (s - 1 - Z.of_nat n) by lia.
    exists d'. split.
    + cbn [for_].
      replace ((fun k => Dtor (s - 1 - Z.of_nat k)) <$> seq 0 (S n))
        with ([Dtor (s - 1)] ++ ((fun k => Dtor (s - 1 - 1 - Z.of_nat k)) <$> seq 0 n)).
      * eapply bind_run; [|exact Hrun].
        unfold mbind, M_mbind, M_bind, get_sz, set_sz, dtor. cbn -[wrap].
        now rewrite wrap_small by int_arith.
      * cbn [seq fmap list_fmap app]. rewrite Z.sub_0_r. f_equal.
        rewrite <- fmap_S_seq, <- list_fmap_compose.
        apply list_fmap_ext. intros _ k _. cbn. f_equal. lia.
    + rewrite Htake. unfold slot_set.
      destruct (Z.leb_spec 0 (s - 1)); [|lia].
      destruct d as [buf|]; cbn; [|reflexivity].
      unfold id. apply take_insert_ge. lia.
Qed.

Lemma shrink_run (d : option (list (option T))) s c nelems :
  0 <= nelems <= s -> s <= int_max ->
  exists d',
    shrink nelems (mkVec d s c) =
      (Ret tt, mkVec d' (s - nelems) c,
       (fun k => Dtor (s - 1 - Z.of_nat k)) <$> seq 0 (Z.to_nat nelems)) /\
    take (Z.to_nat (s - nelems)) (default [] d') =
    take (Z.to_nat (s - nelems)) (default [] d).
Proof.
  intros Hn Hs.
  destruct (shrink_loop_exact (Z.to_nat nelems) 0 d s c ltac:(lia)) as (d' & Hrun & Htk).
  rewrite Z2Nat.id in Hrun, Htk by lia.
  exists d'. split; [|exact Htk].
  unfold shrink. rewrite (bind_nil _ _ (mkVec d s c) s (mkVec d s c) eq_refl).
  erewrite bind_nil; [exact Hrun|].
  unfold assert_. destruct (Z.leb_spec nelems s); [reflexivity | lia].
Qed.

(** X4.  [shrink(nelems)]: with [nelems > sz] the assertion fails and
    nothing is changed; with [nelems <= 0] nothing is done; with
    [0 <= nelems <= sz], on a vector holding [l], the destructors of the
    last [nelems] elements run, from slot [sz - 1] downwards, and the vector
    holds [l] without its last [nelems] elements.  The capacity is
    unchanged. *)
Theorem shrink_destroys_tail v nelems :
  (nelems > sz v -> shrink nelems v = (AssertFail, v, [])) /\
  (nelems <= 0 -> nelems <= sz v -> shrink nelems v = (Ret tt, v, [])) /\
  (forall l, represents v l -> 0 <= nelems <= sz v ->
     exists v',
       shrink nelems v =
         (Ret tt, v',
          (fun k => Dtor (sz v - 1 - Z.of_nat k)) <$> seq 0 (Z.to_nat nelems)) /\
       represents v' (take (length l - Z.to_nat nelems) l) /\
       cap v' = cap v).
Proof.
  split; [|split].
  - intros Hgt. unfold shrink. rewrite (bind_nil _ _ v (sz v) v eq_refl).
    apply bind_assert_fail. unfold assert_.
    destruct (Z.leb_spec nelems (sz v)); [lia | reflexivity].
  - intros Hneg Hle. unfold shrink. rewrite (bind_nil _ _ v (sz v) v eq_refl).
    erewrite bind_nil.
    + replace (Z.to_nat nelems) with 0%nat by lia. reflexivity.
    + unfold assert_. destruct (Z.leb_spec nelems (sz v)); [reflexivity | lia].
  - intros l (Hsz & Hmax & Htake) Hn.
    destruct v as [d s c]; cbn [data sz cap] in *.
    destruct (shrink_run d s c nelems Hn Hmax) as (d' & Hrun & Htk).
    eexists. split; [|split].
    + exact Hrun.
    + unfold represents. cbn [data sz cap].
      rewrite length_take. split; [lia|]. split; [lia|].
      replace ((length l - Z.to_nat nelems) `min` length l)%nat
        with (Z.to_nat (s - nelems)) by lia.
      rewrite Htk, fmap_take, <- Htake, take_take.
      f_equal. lia.
    + reflexivity.
Qed.

(** A loop of destructor calls. *)
Lemma for_dtor n :
  forall from (d : option (list (option T))) s c,
  exists d',
    for_ n from dtor (mkVec d s c) =
      (Ret tt, mkVec d' s c, (fun k => Dtor (from + Z.of_nat k)) <$> seq 0 n) /\
    (d = None <-> d' = None) /\
    length (default [] d') = length (default [] d).
Proof.
  induction n as [|n IH]; intros from d s c.
  - exists d. cbn [for_ seq fmap list_fmap]. now split.
  - destruct (IH (from + 1) (slot_set from None d) s c) as (d' & Hrun & Hnull & Hlen).
    exists d'. split; [|split].
    + cbn [for_].
      replace ((fun k => Dtor (from + Z.of_nat k)) <$> seq 0 (S n))
        with ([Dtor from] ++ ((fun k => Dtor (from + 1 + Z.of_nat k)) <$> seq 0 n)).
      * eapply bind_run; [reflexivity | exact Hrun].
      * cbn [seq fmap list_fmap app]. rewrite Z.add_0_r. f_equal.
        rewrite <- fmap_S_seq, <- list_fmap_compose.
        apply list_fmap_ext. intros _ k _. cbn. f_equal. lia.
    + rewrite <- Hnull. unfold slot_set.
      destruct (0 <=? from); [|reflexivity]. now destruct d.
    + rewrite Hlen. unfold slot_set.
      destruct (0 <=? from); [|reflexivity].
      destruct d as [buf|]; cbn; [|reflexivity]. unfold id. apply length_insert.
Qed.

Lemma clear_run v dealloc :
  (data v = None -> clear dealloc v = (Ret tt, v, [])) /\
  (data v <> None ->
     exists d',
       clear dealloc v =
         (Ret tt,
          mkVec (if dealloc then None else d') 0 (if dealloc then 0 else cap v),
          (fun k => Dtor (Z.of_nat k)) <$> seq 0 (Z.to_nat (sz v))) /\
       d' <> None /\
       length (default [] d') = length (default [] (data v))).
Proof.
  split.
  - intros Hnull.
    assert (Hn : data_is_null v = (Ret true, v, []))
      by (unfold data_is_null; now rewrite Hnull).
    unfold clear. now rewrite (bind_nil _ _ _ _ _ Hn).
  - intros Hdata.
    destruct v as [d s c]; cbn [data sz cap] in *.
    destruct (for_dtor (Z.to_nat s) 0 d s c) as (d' & Hrun & Hnull & Hlen).
    exists d'. split; [|split; [now rewrite <- Hnull | exact Hlen]].
    destruct d as [buf|]; [|done].
    unfold clear.
    rewrite (bind_nil _ _ (mkVec (Some buf) s c) false (mkVec (Some buf) s c) eq_refl).
    rewrite (bind_nil _ _ (mkVec (Some buf) s c) s (mkVec (Some buf) s c) eq_refl).
    rewrite <- (app_nil_r (_ <$> seq 0 (Z.to_nat s))).
    eapply bind_run; [exact Hrun|].
    destruct dealloc; reflexivity.
Qed.

(** X5.  [clear(dealloc)]: when [data] is NULL nothing is done, whatever
    [sz] is.  Otherwise the destructors of slots [0 .. sz-1] run in
    ascending order and [sz] becomes 0; with [dealloc] the block is freed,
    [data] is NULL and [cap] is 0, without it the block and [cap] are
    kept. *)
Theorem clear_spec v dealloc :
  (data v = None -> clear dealloc v = (Ret tt, v, [])) /\
  (data v <> None ->
     exists d',
       clear dealloc v =
         (Ret tt,
          mkVec (if dealloc then None else d') 0 (if dealloc then 0 else cap v),
          (fun k => Dtor (Z.of_nat k)) <$> seq 0 (Z.to_nat (sz v))) /\
       d' <> None).
Proof.
  destruct (clear_run v dealloc) as [Hnull Hblock]. split; [exact Hnull|].
  intros Hdata. destruct (Hblock Hdata) as (d' & Hrun & Hd' & _). now exists d'.
Qed.

End Edges.

(** A write to slot 1 of a block of two slots, in a vector of size 0. *)
Lemma index_write_then_read_witness :
  (index_write 1 9 ;; index_read 1) (mkVec (Some [Some 7; None]) 0 2) =
    (Ret 9, mkVec (Some (<[Z.to_nat 1 := Some 9]> [Some 7; None])) 0 2,
     [Store 1; Load 1]) /\
  forall j, j <> 1 ->
    slot_get j (data (state (index_write 1 9 (mkVec (Some [Some 7; None]) 0 2)))) =
    slot_get j (Some [Some 7; None]).
Proof.
  apply (index_write_then_read [Some 7; None] 0 2 1 9). cbn. lia.
Defined.

(** The theorem at a full vector of two elements. *)
Lemma push_out_of_memory_witness :
  push (ReallocNull ENOMEM) 9 (mkVec (Some [Some 7; Some 8]) 2 2) =
    (Throw, mkVec None 2 4, []).
Proof.
  apply (push_out_of_memory (mkVec (Some [Some 7; Some 8]) 2 2) 9).
  - reflexivity.
  - unfold int_max. cbn. lia.
Defined.

Section Growth.
Context {T : Type}.
Implicit Types (v : vec T) (l : list T) (buf : list (option T)).

(** A loop whose body writes [vals] into consecutive slots from [from]. *)
Lemma for_write (body : Z -> M T unit) (mk : Z -> access) (vals : list T) :
  forall (from : nat) buf s c,
  (from + length vals <= length buf)%nat ->
  (forall k x, vals !! k = Some x -> forall b,
     body (Z.of_nat (from + k)) (mkVec (Some b) s c) =
       (Ret tt, mkVec (Some (<[(from + k)%nat := Some x]> b)) s c,
        [mk (Z.of_nat (from + k))])) ->
  for_ (length vals) (Z.of_nat from) body (mkVec (Some buf) s c) =
    (Ret tt,
     mkVec (Some (take from buf ++ (Some <$> vals) ++ drop (from + length vals) buf)) s c,
     (fun k => mk (Z.of_nat from + Z.of_nat k)) <$> seq 0 (length vals)).
Proof.
  induction vals as [|x vals IH]; intros from buf s c Hlen Hbody.
  - cbn. now rewrite Nat.add_0_r, take_drop.
  - cbn [length for_] in *.
    pose proof (Hbody 0%nat x eq_refl buf) as H0. rewrite Nat.add_0_r in H0.
    replace ((fun k => mk (Z.of_nat from + Z.of_nat k)) <$> seq 0 (S (length vals)))
      with ([mk (Z.of_nat from)] ++
            ((fun k => mk (Z.of_nat (S from) + Z.of_nat k)) <$> seq 0 (length vals))).
    + eapply bind_run; [exact H0|].
      replace (Z.of_nat from + 1) with (Z.of_nat (S from)) by lia.
      rewrite IH.
      * f_equal. f_equal. f_equal.
        rewrite (take_S_r _ _ (Some x)) by (apply list_lookup_insert_eq; lia).
        rewrite take_insert_ge by lia.
        rewrite drop_insert_lt by lia.
        rewrite <- app_assoc. cbn.
        now replace (S (from + length vals)) with (from + S (length vals))%nat by lia.
      * rewrite length_insert. lia.
      * intros k y Hk b. pose proof (Hbody (S k) y Hk b) as HS.
        now replace (from + S k)%nat with (S from + k)%nat in HS by lia.
    + cbn [seq fmap list_fmap app]. rewrite Z.add_0_r. f_equal.
      rewrite <- fmap_S_seq, <- list_fmap_compose.
      apply list_fmap_ext. intros _ k _. cbn. f_equal. lia.
Qed.

(** The common body of [growTo(size, pad)] and [growTo(size)]; [write] is
    the assignment of the one and the placement [new] of the other. *)
Lemma grow_run (write : Z -> T -> M T unit) (mk : Z -> access) x v l size :
  (forall i b s c,
     write (Z.of_nat i) x (mkVec (Some b) s c) =
       (Ret tt, mkVec (Some (<[i := Some x]> b)) s c, [mk (Z.of_nat i)])) ->
  well_formed v l -> size < int_max -> 3 * cap v + 4 <= 2 * int_max ->
  exists v',
    (s ← get_sz;
     if s >=? size then mret tt
     else capacity ReallocOk size ;;
          for_ (Z.to_nat (size - s)) s (fun i => write i x) ;;
          set_sz size) v =
      (Ret tt, v',
       (fun k => mk (sz v + Z.of_nat k)) <$> seq 0 (Z.to_nat (size - sz v))) /\
    well_formed v' (l ++ replicate (Z.to_nat (size - sz v)) x) /\
    cap v' = (if cap v <? size then cap v + capacity_add (cap v) size else cap v) /\
    (size <= sz v -> v' = v).
Proof.
  intros Hw Hwf Hsize Hbig.
  destruct (well_formed_inv v l Hwf) as (Hsz & Hrange & Hmax & Hlen & Htake).
  rewrite (bind_nil _ _ v (sz v) v eq_refl).
  destruct (Z.geb_spec (sz v) size) as [Hge|Hlt].
  { exists v. replace (Z.to_nat (size - sz v)) with 0%nat by lia.
    cbn [replicate seq fmap list_fmap]. rewrite app_nil_r.
    destruct (Z.ltb_spec (cap v) size); [lia|]. done. }
  set (n := Z.to_nat (size - sz v)).
  assert (Hstep : exists buf1 c1,
    capacity ReallocOk size v = (Ret tt, mkVec (Some buf1) (sz v) c1, []) /\
    Z.of_nat (length buf1) = c1 /\ size <= c1 <= int_max /\
    take (length l) buf1 = Some <$> l /\
    c1 = (if cap v <? size then cap v + capacity_add (cap v) size else cap v)).
  { destruct (Z.ltb_spec (cap v) size) as [Hsmall|Henough].
    - assert (Hfit : capacity_add (cap v) size <= size_max - cap v).
      { rewrite capacity_add_exact by int_arith. unfold size_max. int_arith. }
      destruct (capacity_ok v l size Hwf Hsmall ltac:(lia) ltac:(lia) Hfit)
        as (buf1 & Hcap & Hlen1 & Htake1 & Hge).
      exists buf1, (cap v + capacity_add (cap v) size).
      repeat split; try done; try lia. unfold size_max in Hfit. lia.
    - rewrite capacity_enough by lia.
      destruct v as [[buf|] s c]; cbn [data sz cap default] in *; unfold id in *;
        [|cbn in Hlen; lia].
      exists buf, c. repeat split; try done; lia. }
  destruct Hstep as (buf1 & c1 & Hcap & Hlen1 & Hc1 & Htake1 & Hc1eq).
  rewrite (bind_nil _ _ _ _ _ Hcap).
  assert (Hloop := for_write (fun i => write i x) mk (replicate n x) (length l)
                     buf1 (sz v) c1).
  rewrite length_replicate, <- Hsz in Hloop.
  eexists. split; [|split; [|split]].
  - rewrite <- (app_nil_r (_ <$> seq _ _)).
    eapply bind_run; [|reflexivity].
    apply Hloop; [lia|]. intros k y Hk b.
    apply lookup_replicate in Hk as [-> _]. apply Hw.
  - unfold well_formed, represents. cbn [data sz cap default]. unfold id.
    rewrite Htake1, app_assoc, <- fmap_app.
    rewrite !length_app, length_fmap, length_drop, length_app, !length_replicate.
    repeat split; try lia.
    rewrite take_app_length' by (rewrite length_fmap, length_app, length_replicate; lia).
    reflexivity.
  - exact Hc1eq.
  - lia.
Qed.

(** X6.  [growTo(size, pad)] on a well-formed vector holding [l], with a
    [realloc] that succeeds: the vector then holds [l] followed by
    [size - sz] copies of [pad], every one written by an assignment to a
    slot from the old [sz] upwards; the capacity changes only when it was
    below [size].  With [size <= sz] nothing is changed: [growTo] never
    shrinks. *)
Theorem growTo_pad_fills v l size pad :
  well_formed v l -> size < int_max -> 3 * cap v + 4 <= 2 * int_max ->
  exists v',
    growTo_pad ReallocOk size pad v =
      (Ret tt, v',
       (fun k => Store (sz v + Z.of_nat k)) <$> seq 0 (Z.to_nat (size - sz v))) /\
    well_formed v' (l ++ replicate (Z.to_nat (size - sz v)) pad) /\
    cap v' = (if cap v <? size then cap v + capacity_add (cap v) size else cap v) /\
    (size <= sz v -> v' = v).
Proof.
  intros Hwf Hsize Hbig. unfold growTo_pad.
  apply (grow_run store Store pad v l size); try assumption.
  intros i b s c. apply store_slot.
Qed.

Lemma ctor_slot buf s c i (x : T) :
  ctor (Z.of_nat i) x (mkVec (Some buf) s c) =
    (Ret tt, mkVec (Some (<[i := Some x]> buf)) s c, [Ctor (Z.of_nat i)]).
Proof.
  unfold ctor, slot_set. cbn [data sz cap].
  destruct (Z.leb_spec 0 (Z.of_nat i)); [|lia].
  cbn. now rewrite Nat2Z.id.
Qed.

(** X7.  [growTo(size)] does the same with default-constructed elements:
    the new slots, from the old [sz] to [size - 1], are filled by placement
    [new (&data[i]) T()], in ascending order. *)
Theorem growTo_default_constructs (T_default : T) v l size :
  well_formed v l -> size < int_max -> 3 * cap v + 4 <= 2 * int_max ->
  exists v',
    growTo T_default ReallocOk size v =
      (Ret tt, v',
       (fun k => Ctor (sz v + Z.of_nat k)) <$> seq 0 (Z.to_nat (size - sz v))) /\
    well_formed v' (l ++ replicate (Z.to_nat (size - sz v)) T_default) /\
    (size <= sz v -> v' = v).
Proof.
  intros Hwf Hsize Hbig. unfold growTo.
  destruct (grow_run ctor Ctor T_default v l size) as (v' & Hrun & Hwf' & _ & Hsame);
    try assumption.
  - intros i b s c. apply ctor_slot.
  - now exists v'.
Qed.

Lemma slot_get_well_formed v l k x :
  well_formed v l -> l !! k = Some x -> slot_get (Z.of_nat k) (data v) = Some x.
Proof.
  intros Hwf Hk.
  destruct (well_formed_inv v l Hwf) as (_ & _ & _ & _ & Htake).
  pose proof (lookup_lt_Some _ _ _ Hk) as Hlt.
  unfold slot_get. destruct (Z.leb_spec 0 (Z.of_nat k)); [|lia].
  rewrite Nat2Z.id.
  destruct (data v) as [buf|]; cbn [default] in Htake; unfold id in Htake.
  - cbn. rewrite <- (lookup_take_lt buf (length l)) by lia.
    rewrite Htake, list_lookup_fmap, Hk. reflexivity.
  - rewrite take_nil in Htake. destruct l; [cbn in Hlt; lia | done].
Qed.

(** [clear()] on a well-formed vector keeps the block. *)
Lemma clear_keep v l :
  well_formed v l ->
  exists v0,
    clear false v = (Ret tt, v0, (fun k => Dtor (Z.of_nat k)) <$> seq 0 (length l)) /\
    well_formed v0 [] /\ cap v0 = cap v.
Proof.
  intros Hwf.
  destruct (well_formed_inv v l Hwf) as (Hsz & Hrange & Hmax & Hlen & Htake).
  destruct (clear_run v false) as [Hnull Hblock].
  destruct (data v) as [buf|] eqn:Hdata.
  - destruct (Hblock ltac:(done)) as (d' & Hrun & _ & Hlen').
    eexists. split; [|split].
    + rewrite Hrun. now rewrite Hsz, Nat2Z.id.
    + unfold well_formed, represents. cbn [data sz cap length].
      rewrite take_0. repeat split; lia.
    + reflexivity.
  - exists v. cbn in Hlen. assert (l = []) as -> by (destruct l; [done | cbn in Hsz; lia]).
    split; [now apply Hnull | split; [exact Hwf | reflexivity]].
Qed.

(** [copyTo] on a copy that is another vector than the source: the copy
    ends as a well-formed vector holding what the source holds. *)
Lemma copyTo_distinct_copies (T_default : T) (this copy : vec T) l lc :
  well_formed this l -> well_formed copy lc ->
  sz this < int_max -> 3 * cap copy + 4 <= 2 * int_max ->
  exists copy',
    copyTo T_default ReallocOk this copy =
      (Ret tt, copy',
       ((fun k => Dtor (Z.of_nat k)) <$> seq 0 (length lc)) ++
       ((fun k => Ctor (Z.of_nat k)) <$> seq 0 (length l)) ++
       ((fun k => Store (Z.of_nat k)) <$> seq 0 (length l))) /\
    well_formed copy' l.
Proof.
  intros Hthis Hcopy Hsize Hbig.
  destruct (well_formed_inv this l Hthis) as (Hsz & _).
  destruct (clear_keep copy lc Hcopy) as (c0 & Hclear & Hwf0 & Hcap0).
  destruct (well_formed_inv c0 [] Hwf0) as (Hsz0 & _). cbn in Hsz0.
  destruct (grow_run ctor Ctor T_default c0 [] (sz this))
    as (c1 & Hgrow & Hwf1 & _); try assumption; try lia.
  { intros i b s c. apply ctor_slot. }
  rewrite Hsz0, Z.sub_0_r in Hgrow, Hwf1.
  replace (Z.to_nat (sz this)) with (length l) in Hgrow, Hwf1 by lia.
  cbn [app] in Hwf1.
  destruct (well_formed_inv c1 _ Hwf1) as (Hsz1 & Hrange1 & Hmax1 & Hlen1 & Htake1).
  rewrite length_replicate in Hsz1, Htake1.
  assert (Hloop : exists copy',
    for_ (Z.to_nat (sz this)) 0 (fun i =>
      match slot_get i (data this) with
      | Some x => store i x
      | None => (fun c => (Undefined, c, [])) : M T unit
      end) c1 =
      (Ret tt, copy', (fun k => Store (Z.of_nat k)) <$> seq 0 (length l)) /\
    well_formed copy' l).
  { rewrite Hsz, Nat2Z.id.
    destruct c1 as [[buf1|] s1 k1]; cbn [data sz cap default] in *; unfold id in *.
    - eexists. split.
      + apply (for_write _ Store l 0 buf1 s1 k1); [lia|].
        intros k x Hk b. cbn [Nat.add].
        rewrite (slot_get_well_formed this l k x Hthis Hk). apply store_slot.
      + unfold well_formed, represents. cbn [data sz cap default]. unfold id.
        rewrite take_0. cbn [app Nat.add].
        rewrite length_app, length_fmap, length_drop.
        repeat split; try lia.
        rewrite take_app_length' by now rewrite length_fmap. reflexivity.
    - cbn in Hlen1. assert (l = []) as -> by (destruct l; [done | cbn in Hsz1; lia]).
      eexists. split; [reflexivity|]. exact Hwf1. }
  destruct Hloop as (copy' & Hloop & Hwf').
  exists copy'. split; [|exact Hwf'].
  unfold copyTo.
  eapply bind_run; [exact Hclear|].
  eapply bind_run; [|exact Hloop].
  unfold growTo. cbn beta. exact Hgrow.
Qed.

(** X11.  [push_(elem)]: when [sz >= cap] the assertion fails and nothing
    is changed.  On a well-formed vector holding [l] with [sz < cap] the
    element is assigned to slot [sz], the vector holds [l] followed by it,
    and the capacity is what it was: [push_] never allocates. *)
Theorem push__needs_room v x :
  (sz v >= cap v -> push_ x v = (AssertFail, v, [])) /\
  (forall l, well_formed v l -> sz v < cap v ->
     exists v',
       push_ x v = (Ret tt, v', [Store (sz v)]) /\
       well_formed v' (l ++ [x]) /\ cap v' = cap v).
Proof.
  split.
  - intros Hfull. unfold push_.
    rewrite (bind_nil _ _ v (sz v) v eq_refl), (bind_nil _ _ v (cap v) v eq_refl).
    apply bind_assert_fail. unfold assert_.
    destruct (Z.ltb_spec (sz v) (cap v)); [lia | reflexivity].
  - intros l Hwf Hroom.
    destruct (well_formed_inv v l Hwf) as (Hsz & Hrange & Hmax & Hlen & Htake).
    destruct v as [[buf|] s c]; cbn [data sz cap default] in *; unfold id in *;
      [|cbn in Hlen; lia].
    destruct (push_room buf s c l x Hsz ltac:(lia) ltac:(int_arith) Htake) as [_ Htake2].
    subst s.
    set (s := Z.of_nat (length l)) in *.
    eexists. split; [|split].
    + unfold push_.
      rewrite (bind_nil _ _ (mkVec (Some buf) s c) s (mkVec (Some buf) s c) eq_refl).
      rewrite (bind_nil _ _ (mkVec (Some buf) s c) c (mkVec (Some buf) s c) eq_refl).
      erewrite bind_nil;
        [|unfold assert_; destruct (Z.ltb_spec s c); [reflexivity | lia]].
      rewrite (bind_nil _ _ (mkVec (Some buf) s c) tt
                 (mkVec (Some buf) (wrap (s + 1)) c) eq_refl).
      rewrite wrap_small by (subst s; int_arith). apply store_slot.
    + unfold well_formed, represents. cbn [data sz cap default]. unfold id.
      rewrite length_app in Htake2 |- *. rewrite length_insert.
      cbn [length] in Htake2 |- *.
      repeat split; try lia. exact Htake2.
    + reflexivity.
Qed.

(** X12.  The constructor [vec(size, pad)] with a [realloc] that succeeds
    gives a well-formed vector of [size] copies of [pad] (the empty vector
    when [size <= 0]), whose capacity is 0 for [size <= 0] and the
    increment [capacity] computes from 0 otherwise. *)
Theorem vec_padded_replicates size pad :
  size < int_max ->
  exists v : vec T,
    vec_padded ReallocOk size pad =
      (Ret tt, v, (fun k => Store (Z.of_nat k)) <$> seq 0 (Z.to_nat size)) /\
    well_formed v (replicate (Z.to_nat size) pad) /\
    cap v = (if 0 <? size then capacity_add 0 size else 0).
Proof.
  intros Hsize. unfold vec_padded, growTo_pad.
  destruct (grow_run store Store pad vec_new [] size) as (v' & Hrun & Hwf & Hcap & _).
  - intros i b s c. apply store_slot.
  - unfold well_formed, represents, vec_new, int_max. cbn. repeat split; lia.
  - exact Hsize.
  - unfold vec_new, int_max. cbn. lia.
  - exists v'. change (sz vec_new) with 0 in Hrun, Hwf.
    rewrite Z.sub_0_r in Hrun, Hwf. cbn [app cap vec_new] in Hwf, Hcap.
    split; [exact Hrun | split; [exact Hwf|]].
    rewrite Hcap. now destruct (0 <? size).
Qed.

End Growth.

(** The theorems at a vector of two elements grown to five. *)
Lemma growTo_pad_fills_witness :
  exists v',
    growTo_pad ReallocOk 5 0 (mkVec (Some [Some 7; Some 8]) 2 2) =
      (Ret tt, v', (fun k => Store (2 + Z.of_nat k)) <$> seq 0 (Z.to_nat (5 - 2))) /\
    well_formed v' ([7; 8] ++ replicate (Z.to_nat (5 - 2)) 0) /\
    cap v' = (if 2 <? 5 then 2 + capacity_add 2 5 else 2) /\
    (5 <= 2 -> v' = mkVec (Some [Some 7; Some 8]) 2 2).
Proof.
  apply (growTo_pad_fills (mkVec (Some [Some 7; Some 8]) 2 2) [7; 8] 5 0).
  - unfold well_formed, represents, int_max. cbn. repeat split; lia.
  - unfold int_max. lia.
  - unfold int_max. cbn. lia.
Defined.

Lemma growTo_default_constructs_witness :
  exists v',
    growTo 0 ReallocOk 5 (mkVec (Some [Some 7; Some 8]) 2 2) =
      (Ret tt, v', (fun k => Ctor (2 + Z.of_nat k)) <$> seq 0 (Z.to_nat (5 - 2))) /\
    well_formed v' ([7; 8] ++ replicate (Z.to_nat (5 - 2)) 0) /\
    (5 <= 2 -> v' = mkVec (Some [Some 7; Some 8]) 2 2).
Proof.
  apply (growTo_default_constructs 0 (mkVec (Some [Some 7; Some 8]) 2 2) [7; 8] 5).
  - unfold well_formed, represents, int_max. cbn. repeat split; lia.
  - unfold int_max. lia.
  - unfold int_max. cbn. lia.
Defined.

(** The theorem at five copies of 0. *)
Lemma vec_padded_replicates_witness :
  exists v : vec Z,
    vec_padded ReallocOk 5 0 =
      (Ret tt, v, (fun k => Store (Z.of_nat k)) <$> seq 0 (Z.to_nat 5)) /\
    well_formed v (replicate (Z.to_nat 5) 0) /\
    cap v = (if 0 <? 5 then capacity_add 0 5 else 0).
Proof.
  apply (vec_padded_replicates 5 0). unfold int_max. lia.
Defined.

Section Aliasing.
Context {T : Type}.
Implicit Types (v a b : vec T) (h : list (vec T)) (l : list T).

Lemma hbind_run {A B} (m : H T A) (f : A -> H T B) h x h' t r h'' t' :
  m h = (Ret x, h', t) -> f x h' = (r, h'', t') ->
  (m ≫= f) h = (r, h'', t ++ t').
Proof. intros Hm Hf. unfold mbind, H_mbind, H_bind. now rewrite Hm, Hf. Qed.

Lemma on_run {A} p (m : M T A) h v r v' t :
  h !! p = Some v -> m v = (r, v', t) ->
  on p m h = (r, <[p := v']> h, (fun x => (p, x)) <$> t).
Proof. intros Hp Hm. unfold on. now rewrite Hp, Hm. Qed.

(** A call on the one vector [p]. *)
Lemma on_same {A} p (m : M T A) h a r a' t :
  (p < length h)%nat -> m a = (r, a', t) ->
  on p m (<[p := a]> h) = (r, <[p := a']> h, (fun x => (p, x)) <$> t).
Proof.
  intros Hp Hm. rewrite (on_run p m _ a r a' t); [|now apply list_lookup_insert_eq|exact Hm].
  now rewrite list_insert_insert_eq.
Qed.

(** Calls on one of the two vectors [p] and [q]. *)
Lemma on_first {A} p q (m : M T A) h a b r a' t :
  (p < length h)%nat -> m a = (r, a', t) ->
  on p m (<[p := a]> (<[q := b]> h)) =
    (r, <[p := a']> (<[q := b]> h), (fun x => (p, x)) <$> t).
Proof. intros Hp Hm. apply on_same; [now rewrite length_insert | exact Hm]. Qed.

Lemma on_second {A} p q (m : M T A) h a b r b' t :
  p <> q -> (q < length h)%nat -> m b = (r, b', t) ->
  on q m (<[p := a]> (<[q := b]> h)) =
    (r, <[p := a]> (<[q := b']> h), (fun x => (q, x)) <$> t).
Proof.
  intros Hpq Hq Hm.
  rewrite (on_run q m _ b r b' t); [| |exact Hm].
  - now rewrite (list_insert_insert_ne _ q p) by congruence; rewrite list_insert_insert_eq.
  - rewrite list_lookup_insert_ne by exact Hpq. now apply list_lookup_insert_eq.
Qed.

Lemma clear_true_run b :
  clear true b =
    (Ret tt, (if data b is None then b else mkVec None 0 0),
     (if data b is None then []
      else (fun k => Dtor (Z.of_nat k)) <$> seq 0 (Z.to_nat (sz b)))).
Proof.
  destruct (clear_run b true) as [Hnull Hblock].
  destruct (data b) as [buf|] eqn:Hdata.
  - now destruct (Hblock ltac:(done)) as (d' & -> & _).
  - now apply Hnull.
Qed.

(** [moveTo] statement by statement, on two vectors and on one. *)
Lemma moveTo_ref_run h this dest a b :
  h !! this = Some a -> h !! dest = Some b ->
  moveTo_ref this dest h =
    (Ret tt, <[this := vec_new]> (<[dest := a]> h),
     (fun x => (dest, x)) <$>
       (if data b is None then []
        else (fun k => Dtor (Z.of_nat k)) <$> seq 0 (Z.to_nat (sz b)))).
Proof.
  intros Ha Hb.
  pose proof (lookup_lt_Some _ _ _ Ha) as Hthis.
  pose proof (lookup_lt_Some _ _ _ Hb) as Hdest.
  pose proof (clear_true_run b) as Hclear.
  set (tr := if data b is None then [] else _) in *.
  assert (Hrun : exists t,
    moveTo_ref this dest h = (Ret tt, <[this := vec_new]> (<[dest := a]> h), t) /\
    t = (fun x => (dest, x)) <$> tr).
  { unfold moveTo_ref.
    destruct (decide (this = dest)) as [->|Hne].
    - assert (a = b) as -> by congruence.
      rewrite list_insert_insert_eq.
      eexists. split.
      + rewrite <- (list_insert_id h dest b Hb) at 1.
        eapply hbind_run; [apply on_same; [exact Hdest | exact Hclear]|].
        do 8 (eapply hbind_run; [apply on_same; [exact Hdest | reflexivity]|]).
        apply on_same; [exact Hdest | reflexivity].
      + cbn. now rewrite app_nil_r.
    - destruct a as [da sa ca].
      eexists. split.
      + rewrite <- (list_insert_id h dest b Hb) at 1.
        rewrite <- (list_insert_id (<[dest := b]> h) this (mkVec da sa ca)) at 1
          by now rewrite list_lookup_insert_ne.
        eapply hbind_run; [apply on_second; [exact Hne | exact Hdest | exact Hclear]|].
        eapply hbind_run; [apply on_first; [exact Hthis | reflexivity]|].
        eapply hbind_run; [apply on_second; [exact Hne | exact Hdest | reflexivity]|].
        eapply hbind_run; [apply on_first; [exact Hthis | reflexivity]|].
        eapply hbind_run; [apply on_second; [exact Hne | exact Hdest | reflexivity]|].
        eapply hbind_run; [apply on_first; [exact Hthis | reflexivity]|].
        eapply hbind_run; [apply on_second; [exact Hne | exact Hdest | reflexivity]|].
        eapply hbind_run; [apply on_first; [exact Hthis | reflexivity]|].
        eapply hbind_run; [apply on_first; [exact Hthis | reflexivity]|].
        apply on_first; [exact Hthis | reflexivity].
      + cbn. now rewrite app_nil_r. }
  destruct Hrun as (t & Hrun & ->). exact Hrun.
Qed.

(** X8.  [a.moveTo(b)], statement by statement, for any two vectors of
    the program, the same or not: the call returns, the destructors of the
    elements the destination held are the only slot accesses, the source
    ends as the empty vector [vec()] and no third vector is touched.  A
    destination that is another vector ends as the source was: the block
    is handed over.  When the destination is the source itself the
    elements are destroyed and the vector is left empty. *)
Theorem moveTo_ref_spec h this dest a b :
  h !! this = Some a -> h !! dest = Some b ->
  exists h',
    moveTo_ref this dest h =
      (Ret tt, h',
       (fun x => (dest, x)) <$>
         (if data b is None then []
          else (fun k => Dtor (Z.of_nat k)) <$> seq 0 (Z.to_nat (sz b)))) /\
    length h' = length h /\
    h' !! this = Some vec_new /\
    (this <> dest -> h' !! dest = Some a) /\
    (forall p, p <> this -> p <> dest -> h' !! p = h !! p) /\
    (this <> dest -> (moveTo a b).1 = (vec_new, a)).
Proof.
  intros Ha Hb.
  pose proof (lookup_lt_Some _ _ _ Ha) as Hthis.
  pose proof (lookup_lt_Some _ _ _ Hb) as Hdest.
  eexists. split; [apply (moveTo_ref_run h this dest a b Ha Hb)|].
  split; [now rewrite !length_insert|].
  split; [apply list_lookup_insert_eq; now rewrite length_insert|].
  split; [|split].
  - intros Hne. rewrite list_lookup_insert_ne by exact Hne.
    now apply list_lookup_insert_eq.
  - intros p Hp1 Hp2. now rewrite !list_lookup_insert_ne by congruence.
  - intros _. unfold moveTo. rewrite clear_true_run. now destruct a.
Qed.

Lemma growTo_same (T_default : T) r v : growTo T_default r (sz v) v = (Ret tt, v, []).
Proof.
  unfold growTo. rewrite (bind_nil _ _ v (sz v) v eq_refl).
  destruct (Z.geb_spec (sz v) (sz v)); [reflexivity | lia].
Qed.

(** The loop of [copyTo] between two vectors: [from] is the index it has
    come to and [vals] are the elements of the source from there on. *)
Lemma for_ref_copy this copy a (vals : list T) :
  forall (from : nat) buf s c h,
  this <> copy -> (this < length h)%nat -> (copy < length h)%nat ->
  (forall k x, vals !! k = Some x ->
     slot_get (Z.of_nat (from + k)) (data a) = Some x) ->
  (from + length vals <= length buf)%nat ->
  for_ref (length vals) (Z.of_nat from)
    (fun i => x ← on this (load i); on copy (store i x))
    (<[this := a]> (<[copy := mkVec (Some buf) s c]> h)) =
  (Ret tt,
   <[this := a]>
     (<[copy := mkVec (Some (take from buf ++ (Some <$> vals) ++
                             drop (from + length vals) buf)) s c]> h),
   List.flat_map
     (fun k => [(this, Load (Z.of_nat k)); (copy, Store (Z.of_nat k))])
     (seq from (length vals))).
Proof.
  induction vals as [|x vals IH]; intros from buf s c h Hne Hthis Hcopy Hvals Hlen.
  - cbn. now rewrite Nat.add_0_r, take_drop.
  - cbn [length for_ref seq List.flat_map] in *.
    pose proof (Hvals 0%nat x eq_refl) as H0. rewrite Nat.add_0_r in H0.
    eapply hbind_run.
    + change [(this, Load (Z.of_nat from)); (copy, Store (Z.of_nat from))]
        with (((fun y : access => (this, y)) <$> [Load (Z.of_nat from)]) ++
              ((fun y : access => (copy, y)) <$> [Store (Z.of_nat from)])).
      eapply hbind_run.
      * apply on_first; [exact Hthis|]. unfold load. now rewrite H0.
      * apply on_second; [exact Hne | exact Hcopy | apply store_slot].
    + replace (Z.of_nat from + 1) with (Z.of_nat (S from)) by lia.
      rewrite IH; try assumption.
      * f_equal. f_equal. f_equal. f_equal. f_equal.
        rewrite (take_S_r _ _ (Some x)) by (apply list_lookup_insert_eq; lia).
        rewrite take_insert_ge by lia.
        rewrite drop_insert_lt by lia.
        rewrite <- app_assoc. cbn.
        now replace (S (from + length vals)) with (from + S (length vals))%nat by lia.
      * intros k y Hk. pose proof (Hvals (S k) y Hk) as HS.
        now replace (from + S k)%nat with (S from + k)%nat in HS by lia.
      * rewrite length_insert. lia.
Qed.

(** X9.  [a.copyTo(b)] for two well-formed vectors of the program, the
    source holding [l], with a [realloc] that succeeds.  When [b] is
    another vector than [a], [b] ends as a well-formed vector holding [l]
    and nothing else is changed; the elements [b] held are destroyed, [sz]
    elements are default-constructed in [b], and then each is read from
    [a] and assigned.  When [b] is [a] itself, [clear()] comes first and
    nothing is left to copy: the vector ends empty, its elements
    destroyed, its block kept. *)
Theorem copyTo_ref_copies (T_default : T) h this copy a b l lc :
  h !! this = Some a -> h !! copy = Some b ->
  well_formed a l -> well_formed b lc ->
  sz a < int_max -> 3 * cap b + 4 <= 2 * int_max ->
  (this <> copy ->
     exists b',
       copyTo_ref T_default ReallocOk this copy h =
         (Ret tt, <[copy := b']> h,
          ((fun x => (copy, x)) <$> ((fun k => Dtor (Z.of_nat k)) <$> seq 0 (length lc))) ++
          ((fun x => (copy, x)) <$> ((fun k => Ctor (Z.of_nat k)) <$> seq 0 (length l))) ++
          List.flat_map
            (fun k => [(this, Load (Z.of_nat k)); (copy, Store (Z.of_nat k))])
            (seq 0 (length l))) /\
       well_formed b' l) /\
  (this = copy ->
     exists a',
       copyTo_ref T_default ReallocOk this copy h =
         (Ret tt, <[this := a']> h,
          (fun x => (this, x)) <$> ((fun k => Dtor (Z.of_nat k)) <$> seq 0 (length l))) /\
       well_formed a' [] /\ cap a' = cap a).
Proof.
  intros Ha Hb Hwfa Hwfb Hsize Hbig.
  pose proof (lookup_lt_Some _ _ _ Ha) as Hthis.
  pose proof (lookup_lt_Some _ _ _ Hb) as Hcopy.
  destruct (well_formed_inv a l Hwfa) as (Hsz & _).
  split.
  - intros Hne.
    destruct (clear_keep b lc Hwfb) as (c0 & Hclear & Hwf0 & Hcap0).
    destruct (well_formed_inv c0 [] Hwf0) as (Hsz0 & _). cbn in Hsz0.
    destruct (grow_run ctor Ctor T_default c0 [] (sz a))
      as (c1 & Hgrow & Hwf1 & _); try assumption; try lia.
    { intros i buf s c. apply ctor_slot. }
    rewrite Hsz0, Z.sub_0_r in Hgrow, Hwf1.
    replace (Z.to_nat (sz a)) with (length l) in Hgrow, Hwf1 by lia.
    cbn [app] in Hwf1.
    destruct (well_formed_inv c1 _ Hwf1) as (Hsz1 & Hrange1 & Hmax1 & Hlen1 & Htake1).
    rewrite length_replicate in Hsz1, Htake1.
    assert (Hloop : exists b',
      for_ref (Z.to_nat (sz a)) 0
        (fun i => x ← on this (load i); on copy (store i x))
        (<[this := a]> (<[copy := c1]> h)) =
        (Ret tt, <[this := a]> (<[copy := b']> h),
         List.flat_map
           (fun k => [(this, Load (Z.of_nat k)); (copy, Store (Z.of_nat k))])
           (seq 0 (length l))) /\
      well_formed b' l).
    { rewrite Hsz, Nat2Z.id.
      destruct c1 as [[buf1|] s1 k1]; cbn [data sz cap default] in *; unfold id in *.
      - eexists. split.
        + apply (for_ref_copy this copy a l 0 buf1 s1 k1 h Hne Hthis Hcopy); [|lia].
          intros k x Hk. cbn [Nat.add].
          apply (slot_get_well_formed a l k x Hwfa Hk).
        + unfold well_formed, represents. cbn [data sz cap default]. unfold id.
          rewrite take_0. cbn [app Nat.add].
          rewrite length_app, length_fmap, length_drop.
          repeat split; try lia.
          rewrite take_app_length' by now rewrite length_fmap. reflexivity.
      - cbn in Hlen1. assert (l = []) as -> by (destruct l; [done | cbn in Hsz1; lia]).
        eexists. split; [reflexivity|]. exact Hwf1. }
    destruct Hloop as (b' & Hloop & Hwf').
    exists b'. split; [|exact Hwf'].
    rewrite <- (list_insert_id (<[copy := b']> h) this a)
      by now rewrite list_lookup_insert_ne.
    rewrite <- (list_insert_id h copy b Hb) at 1.
    rewrite <- (list_insert_id (<[copy := b]> h) this a) at 1
      by now rewrite list_lookup_insert_ne.
    unfold copyTo_ref.
    eapply hbind_run; [apply on_second; [exact Hne | exact Hcopy | exact Hclear]|].
    change (((fun x : access => (copy, x)) <$>
               ((fun k => Ctor (Z.of_nat k)) <$> seq 0 (length l))) ++
            List.flat_map
              (fun k => [(this, Load (Z.of_nat k)); (copy, Store (Z.of_nat k))])
              (seq 0 (length l)))
      with (((fun x : access => (this, x)) <$> []) ++
            ((fun x : access => (copy, x)) <$>
               ((fun k => Ctor (Z.of_nat k)) <$> seq 0 (length l))) ++
            ((fun x : access => (this, x)) <$> []) ++
            List.flat_map
              (fun k => [(this, Load (Z.of_nat k)); (copy, Store (Z.of_nat k))])
              (seq 0 (length l))).
    eapply hbind_run; [apply on_first; [exact Hthis | reflexivity]|].
    eapply hbind_run; [apply on_second; [exact Hne | exact Hcopy | exact Hgrow]|].
    eapply hbind_run; [apply on_first; [exact Hthis | reflexivity]|].
    exact Hloop.
  - intros <-. assert (b = a) as -> by congruence.
    assert (lc = l) as ->.
    { destruct (well_formed_inv a lc Hwfb) as (Hsz' & _ & _ & _ & Htk').
      destruct (well_formed_inv a l Hwfa) as (_ & _ & _ & _ & Htk).
      assert (Hlen : length lc = length l) by lia.
      rewrite Hlen, Htk in Htk'. apply (inj (fmap Some)) in Htk'. congruence. }
    destruct (clear_keep a l Hwfa) as (c0 & Hclear & Hwf0 & Hcap0).
    destruct (well_formed_inv c0 [] Hwf0) as (Hsz0 & _). cbn in Hsz0.
    exists c0. split; [|split; [exact Hwf0 | exact Hcap0]].
    rewrite <- (list_insert_id h this a Ha) at 1.
    rewrite <- (app_nil_r (_ <$> _)).
    unfold copyTo_ref.
    eapply hbind_run; [apply on_same; [exact Hthis | exact Hclear]|].
    change (@nil (nat * access)) with
      (((fun x : access => (this, x)) <$> []) ++ ((fun x : access => (this, x)) <$> []) ++
       ((fun x : access => (this, x)) <$> []) ++ (@nil (nat * access))).
    eapply hbind_run; [apply on_same; [exact Hthis | reflexivity]|].
    eapply hbind_run; [apply on_same; [exact Hthis | apply growTo_same]|].
    eapply hbind_run; [apply on_same; [exact Hthis | reflexivity]|].
    rewrite Hsz0. reflexivity.
Qed.

(** For a copy that is another vector than the source, [copyTo] is the
    general [copyTo_ref]: the outcome is the same and it is the copy that
    changes. *)
Lemma copyTo_ref_distinct (T_default : T) r h this copy a b :
  this <> copy -> h !! this = Some a -> h !! copy = Some b ->
  (copyTo_ref T_default r this copy h).1 =
    (outcome (copyTo T_default r a b), <[copy := state (copyTo T_default r a b)]> h).
Proof.
  intros Hne Ha Hb.
  pose proof (lookup_lt_Some _ _ _ Ha) as Hthis.
  pose proof (lookup_lt_Some _ _ _ Hb) as Hcopy.
  set (sim := fun (A : Type) (mh : H T A) (m : M T A) => forall b,
    (mh (<[this := a]> (<[copy := b]> h))).1 =
      (outcome (m b), <[this := a]> (<[copy := state (m b)]> h))).
  assert (sim_bind : forall A B (mh : H T A) (m : M T A) (fh : A -> H T B) (f : A -> M T B),
    sim A mh m -> (forall x, sim B (fh x) (f x)) -> sim B (mh ≫= fh) (m ≫= f)).
  { intros A B mh m fh f Hm Hf b0. specialize (Hm b0).
    unfold mbind, H_mbind, H_bind, M_mbind, M_bind, outcome, state in *.
    destruct (mh _) as [[rh hh] th]. destruct (m b0) as [[rm b1] tm].
    cbn [fst snd] in Hm. injection Hm as -> ->.
    destruct rm as [x| | |]; try reflexivity.
    specialize (Hf x b1). unfold outcome, state in Hf.
    destruct (fh x _) as [[rh' hh'] th']. destruct (f x b1) as [[rm' b2] tm'].
    exact Hf. }
  assert (sim_copy : forall A (m : M T A), sim A (on copy m) m).
  { intros A m b0. destruct (m b0) as [[rm b1] tm] eqn:Em.
    now rewrite (on_second this copy m h a b0 rm b1 tm Hne Hcopy Em). }
  assert (sim_read : forall A B (g : M T A) (fh : A -> H T B) (m : M T B) x t,
    g a = (Ret x, a, t) -> sim B (fh x) m -> sim B (on this g ≫= fh) m).
  { intros A B g fh m x t Hg Hf b0. specialize (Hf b0).
    unfold mbind, H_mbind, H_bind.
    rewrite (on_first this copy g h a b0 (Ret x) a t Hthis Hg).
    now destruct (fh x _) as [[rh' hh'] th']. }
  assert (sim_for : forall n from, sim unit
    (for_ref n from (fun i => x ← on this (load i); on copy (store i x)))
    (for_ n from (fun i =>
       match slot_get i (data a) with
       | Some x => store i x
       | None => (fun c => (Undefined, c, [])) : M T unit
       end))).
  { induction n as [|n IH]; intros from; cbn [for_ref for_].
    - intros b0. reflexivity.
    - apply sim_bind; [|intros _; apply IH].
      destruct (slot_get from (data a)) as [x|] eqn:Hslot.
      + apply (sim_read _ _ (load from) _ _ x [Load from]);
          [unfold load; now rewrite Hslot | apply sim_copy].
      + intros b0. unfold mbind, H_mbind, H_bind.
        rewrite (on_first this copy (load from) h a b0 Undefined a [Load from] Hthis);
          [reflexivity | unfold load; now rewrite Hslot]. }
  assert (Hsim : sim unit (copyTo_ref T_default r this copy) (copyTo T_default r a)).
  { unfold copyTo_ref, copyTo.
    apply sim_bind; [apply sim_copy | intros _].
    apply (sim_read _ _ get_sz _ _ (sz a) []); [reflexivity|].
    apply sim_bind; [apply sim_copy | intros _].
    apply (sim_read _ _ get_sz _ _ (sz a) []); [reflexivity|].
    apply sim_for. }
  specialize (Hsim b).
  rewrite (list_insert_id h copy b Hb), (list_insert_id h this a Ha) in Hsim.
  rewrite Hsim.
  now rewrite (list_insert_id _ this a) by now rewrite list_lookup_insert_ne.
Qed.

End Aliasing.

(** A vector of two elements moved to another and copied onto itself. *)
Example moveTo_ref_other :
  moveTo_ref 0 1 [mkVec (Some [Some 7; Some 8]) 2 2; mkVec (Some [Some 1; None]) 1 2] =
    (Ret tt, [vec_new; mkVec (Some [Some 7; Some 8]) 2 2], [(1%nat, Dtor 0)]).
Proof. vm_compute. reflexivity. Qed.

Example copyTo_ref_self :
  copyTo_ref 0 ReallocOk 0 0 [mkVec (Some [Some 7; Some 8]) 2 2] =
    (Ret tt, [mkVec (Some [None; None]) 0 2], [(0%nat, Dtor 0); (0%nat, Dtor 1)]).
Proof. vm_compute. reflexivity. Qed.

(** The theorem at a vector of two elements moved to itself. *)
Lemma moveTo_ref_spec_witness :
  exists h',
    moveTo_ref 0 0 [mkVec (Some [Some 7; Some 8]) 2 2] =
      (Ret tt, h',
       (fun x => (0%nat, x)) <$>
         (if data (mkVec (Some [Some 7; Some 8]) 2 2) is None then []
          else (fun k => Dtor (Z.of_nat k)) <$>
                 seq 0 (Z.to_nat (sz (mkVec (Some [Some 7; Some 8]) 2 2))))) /\
    length h' = length [mkVec (Some [Some 7; Some 8]) 2 2] /\
    h' !! 0%nat = Some vec_new /\
    (0%nat <> 0%nat -> h' !! 0%nat = Some (mkVec (Some [Some 7; Some 8]) 2 2)) /\
    (forall p, p <> 0%nat -> p <> 0%nat ->
       h' !! p = [mkVec (Some [Some 7; Some 8]) 2 2] !! p) /\
    (0%nat <> 0%nat ->
       (moveTo (mkVec (Some [Some 7; Some 8]) 2 2) (mkVec (Some [Some 7; Some 8]) 2 2)).1 =
       (vec_new, mkVec (Some [Some 7; Some 8]) 2 2)).
Proof.
  apply (moveTo_ref_spec [mkVec (Some [Some 7; Some 8]) 2 2] 0 0
           (mkVec (Some [Some 7; Some 8]) 2 2) (mkVec (Some [Some 7; Some 8]) 2 2));
    reflexivity.
Defined.

(** The theorem for a vector of two elements and one of one element. *)
Lemma copyTo_ref_copies_witness :
  (0%nat <> 1%nat ->
     exists b',
       copyTo_ref 0 ReallocOk 0 1
         [mkVec (Some [Some 7; Some 8]) 2 2; mkVec (Some [Some 1; None]) 1 2] =
         (Ret tt,
          <[1%nat := b']> [mkVec (Some [Some 7; Some 8]) 2 2; mkVec (Some [Some 1; None]) 1 2],
          ((fun x => (1%nat, x)) <$> ((fun k => Dtor (Z.of_nat k)) <$> seq 0 (length [1]))) ++
          ((fun x => (1%nat, x)) <$> ((fun k => Ctor (Z.of_nat k)) <$> seq 0 (length [7; 8]))) ++
          List.flat_map
            (fun k => [(0%nat, Load (Z.of_nat k)); (1%nat, Store (Z.of_nat k))])
            (seq 0 (length [7; 8]))) /\
       well_formed b' [7; 8]) /\
  (0%nat = 1%nat ->
     exists a',
       copyTo_ref 0 ReallocOk 0 1
         [mkVec (Some [Some 7; Some 8]) 2 2; mkVec (Some [Some 1; None]) 1 2] =
         (Ret tt,
          <[0%nat := a']> [mkVec (Some [Some 7; Some 8]) 2 2; mkVec (Some [Some 1; None]) 1 2],
          (fun x => (0%nat, x)) <$> ((fun k => Dtor (Z.of_nat k)) <$> seq 0 (length [7; 8]))) /\
       well_formed a' [] /\ cap a' = cap (mkVec (Some [Some 7; Some 8]) 2 2)).
Proof.
  apply (copyTo_ref_copies 0
           [mkVec (Some [Some 7; Some 8]) 2 2; mkVec (Some [Some 1; None]) 1 2] 0 1
           (mkVec (Some [Some 7; Some 8]) 2 2) (mkVec (Some [Some 1; None]) 1 2)
           [7; 8] [1]).
  - reflexivity.
  - reflexivity.
  - unfold well_formed, represents, int_max. cbn. repeat split; lia.
  - unfold well_formed, represents, int_max. cbn. repeat split; lia.
  - unfold int_max. cbn. lia.
  - unfold int_max. cbn. lia.
Defined.

Section Bounds.
Context {T : Type}.
Implicit Types (v : vec T) (l : list T).

(** The loop of [retain] reads and writes below its upper bound only, and
    leaves [sz] alone; when it ends normally [i] is the upper bound and
    [0 <= j <= i]. *)
Lemma retain_loop_bounds pred n :
  forall i j v r v' t,
  0 <= j <= i -> i + Z.of_nat n <= sz v ->
  retain_loop pred n i j v = (r, v', t) ->
  sz v' = sz v /\
  Forall (fun a => 0 <= index_of a < sz v) t /\
  forall ij, r = Ret ij -> ij.1 = i + Z.of_nat n /\ 0 <= ij.2 <= ij.1.
Proof.
  induction n as [|n IH]; intros i j v r v' t Hj Hi E.
  - cbn in E. injection E as <- <- <-.
    split; [reflexivity | split; [constructor|]].
    intros ij [= <-]. cbn. lia.
  - cbn [retain_loop] in E. unfold mbind, M_mbind, M_bind, load in E.
    destruct (slot_get i (data v)) as [x|].
    + destruct (pred x).
      * unfold store in E.
        destruct (retain_loop pred n (i + 1) (j + 1) _) as [[r2 v2] t2] eqn:E2.
        apply IH in E2 as (Hs & Ht & Hr); [|lia|cbn; lia].
        cbn [sz] in Hs, Ht. injection E as <- <- <-.
        split; [exact Hs | split].
        -- repeat constructor; cbn; try lia. exact Ht.
        -- intros ij ->. specialize (Hr ij eq_refl). lia.
      * destruct (retain_loop pred n (i + 1) j v) as [[r2 v2] t2] eqn:E2.
        apply IH in E2 as (Hs & Ht & Hr); [|lia|lia].
        injection E as <- <- <-.
        split; [exact Hs | split].
        -- repeat constructor; cbn; try lia. exact Ht.
        -- intros ij ->. specialize (Hr ij eq_refl). lia.
    + injection E as <- <- <-.
      split; [reflexivity | split; [|discriminate]].
      repeat constructor; cbn; lia.
Qed.

(** X10.  [retain(pred)] on any vector with [0 <= sz <= INT_MAX],
    whatever its slots hold and however the call ends: every slot it reads,
    assigns or destroys has an index in [0, sz). *)
Theorem retain_in_bounds pred v :
  0 <= sz v <= int_max ->
  Forall (fun a => 0 <= index_of a < sz v) (trace (retain pred v)).
Proof.
  intros Hsz. unfold retain, size.
  rewrite (bind_nil _ _ v (sz v) v eq_refl).
  unfold mbind, M_mbind, M_bind.
  destruct (retain_loop pred (Z.to_nat (sz v)) 0 0 v) as [[r v1] t1] eqn:E.
  apply retain_loop_bounds in E as (Hs & Ht & Hr); [|lia|lia].
  unfold trace.
  destruct r as [[i' j']| | |]; try exact Ht.
  destruct (Hr _ eq_refl) as [Hi' Hj']. cbn [fst snd] in *.
  rewrite wrap_small by int_arith.
  destruct v1 as [d1 s1 c1]. cbn [sz] in Hs. subst s1.
  destruct (shrink_run d1 (sz v) c1 (i' - j') ltac:(lia) ltac:(lia)) as (d' & -> & _).
  cbn [snd]. apply Forall_app. split; [exact Ht|].
  apply Forall_fmap, Forall_seq. intros k Hk. cbn. lia.
Qed.

End Bounds.

(** The theorem at a vector of three elements. *)
Lemma retain_in_bounds_witness :
  Forall (fun a => 0 <= index_of a < 3)
    (trace (retain (fun x => 2 <? x) (mkVec (Some [Some 1; Some 5; Some 7; None]) 3 4))).
Proof.
  apply (retain_in_bounds (fun x => 2 <? x) (mkVec (Some [Some 1; Some 5; Some 7; None]) 3 4)).
  unfold int_max. cbn. lia.
Defined.

End VecExtra.

(** ** More of [Options.cc] *)

Module OptionsExtra.
Import Int IntFacts Stdio Options OptionsFacts.

Ltac case_if :=
  match goal with
  | |- context [if ?c then _ else _] => destruct c eqn:?
  end.

Lemma Forall2_refl {A} (R : A -> A -> Prop) l : (forall x, R x x) -> Forall2 R l l.
Proof. intros HR. induction l; constructor; auto. Qed.

Lemma Forall2_trans {A} (R : A -> A -> Prop) l1 l2 l3 :
  (forall a b c, R a b -> R b c -> R a c) ->
  Forall2 R l1 l2 -> Forall2 R l2 l3 -> Forall2 R l1 l3.
Proof.
  intros HR H12. revert l3.
  induction H12 as [|x y l1 l2 Hxy _ IH]; intros l3 H23; inversion H23; subst;
    constructor; eauto.
Qed.

Lemma Forall2_Forall_impl {A} (P : A -> Prop) l l' :
  Forall2 (fun x y => P x -> P y) l l' -> Forall P l -> Forall P l'.
Proof.
  induction 1 as [|x y l l' Hxy _ IH]; intros HP; [constructor|].
  inversion HP; subst. constructor; auto.
Qed.

Lemma is_flag_false arg : is_flag arg = false <-> match_ arg "-" = None.
Proof.
  unfold is_flag. destruct (match_ arg "-") as [r|].
  - split; [|discriminate]. intros H. apply bool_decide_eq_false in H.
    exfalso. apply H. now exists r.
  - split; [reflexivity|]. intros _. apply bool_decide_eq_false. now intros [? ?].
Qed.

Lemma after_Return {A} err (r : run A) a e :
  after err r = Return a e -> exists e', r = Return a e'.
Proof. destruct r; cbn; try discriminate. intros [= <- _]. now eexists. Qed.

Section Parsing.
Variable strtod : string -> float * string.
Variable sort_options : list Option -> list Option.

(** [printUsageAndExit] does not return. *)
Lemma printUsageAndExit_no_return {A} argv verbose g (a : A) err :
  printUsageAndExit sort_options argv verbose g <> Return a err.
Proof. unfold printUsageAndExit. destruct (usage_loop _ _ _ _ _); discriminate. Qed.

(** When [parseOptions] returns, its loop has. *)
Lemma parseOptions_Return strict argv g n argv' opts' err :
  parseOptions strtod sort_options strict argv g = Return (n, argv', opts') err ->
  exists j,
    parseOptions_loop strtod sort_options strict (HelpPrefixString g) (UsageString g)
      (drop 1 argv) 1 argv (OptionList g) [] = Return (j, argv', opts') err /\
    n = (length argv - (Nat.max 1 (length argv) - j))%nat.
Proof.
  unfold parseOptions.
  destruct (parseOptions_loop _ _ _ _ _ _ _ _ _ _) as [[[j a] o] e| |];
    try discriminate.
  intros [= <- <- <- <-]. now exists j.
Qed.

Lemma BoolOption_parseValue_base str env strict x :
  b_base (BoolOption_parseValue str env strict x).1.2 = b_base x.
Proof. unfold BoolOption_parseValue. repeat case_if; reflexivity. Qed.

Lemma BoolOption_parse_base str x ok x' e :
  BoolOption_parse str x = Return (ok, x') e -> b_base x' = b_base x.
Proof.
  unfold BoolOption_parse.
  destruct (match_ str "-") as [s1|]; [|now intros [= _ <- _]].
  destruct (match_ s1 "no-") as [s2|].
  { destruct (String.eqb s2 _); now intros [= _ <- _]. }
  destruct (match_ s1 _) as [s2|]; [|now intros [= _ <- _]].
  destruct (match_ s2 "=") as [v|].
  { pose proof (BoolOption_parseValue_base v None true x) as Hb.
    destruct (BoolOption_parseValue v None true x) as [[[|] x''] e'']; [|discriminate].
    now intros [= _ <- _]. }
  destruct (String.eqb s2 _); now intros [= _ <- _].
Qed.

(** What every way of parsing preserves follows from what [parseValue] and
    the assignment of a truth value preserve. *)
Section Preserved.
Variable R : Option -> Option -> Prop.
Hypothesis R_refl : forall o, R o o.
Hypothesis R_trans : forall a b c, R a b -> R b c -> R a c.
Hypothesis R_bool : forall b b', b_base b' = b_base b -> R (OBool b) (OBool b').
Hypothesis R_parseValue :
  forall str env strict o, R o (parseValue strtod str env strict o).1.2.

Lemma parseEnv_R env o : R o (parseEnv strtod env o).1.2.
Proof.
  unfold parseEnv. destruct (env !! _) as [v|]; [|apply R_refl].
  pose proof (R_parseValue v (Some (env_var_name (name (base o)))) false o) as HR.
  destruct (parseValue strtod v _ false o) as [[[|] o'] e]; exact HR.
Qed.

Lemma Option_parse_R arg o b o' e :
  Option_parse strtod arg o = Return (b, o') e -> R o o'.
Proof.
  unfold Option_parse.
  destruct (match_ arg "-") as [s1|]; [|intros [= _ <- _]; apply R_refl].
  destruct (match_ s1 _) as [s2|]; [|intros [= _ <- _]; apply R_refl].
  destruct (match_ s2 "=") as [v|]; [|intros [= _ <- _]; apply R_refl].
  pose proof (R_parseValue v None true o) as HR.
  destruct (parseValue strtod v None true o) as [[[|] o''] e'']; [|discriminate].
  intros [= _ <- _]. exact HR.
Qed.

Lemma parse_R arg o b o' e : parse strtod arg o = Return (b, o') e -> R o o'.
Proof.
  destruct o as [d|i|l|x|bo]; cbn [parse]; try apply Option_parse_R.
  destruct (BoolOption_parse arg bo) as [[ok b'] e'| |] eqn:E; try discriminate.
  intros [= _ <- _]. apply R_bool. eapply BoolOption_parse_base, E.
Qed.

Lemma try_options_R arg opts :
  forall b opts' e,
  try_options strtod arg opts = Return (b, opts') e -> Forall2 R opts opts'.
Proof.
  induction opts as [|o rest IH]; intros b opts' e; cbn [try_options].
  - intros [= _ <- _]. constructor.
  - destruct (parse strtod arg o) as [[[|] o1] e1| |] eqn:Ep; try discriminate.
    + intros [= _ <- _]. constructor; [eapply parse_R, Ep | now apply Forall2_refl].
    + destruct (try_options strtod arg rest) as [[b2 rest'] e2| |] eqn:Et;
        try discriminate.
      intros [= _ <- _]. constructor; [eapply parse_R, Ep | eapply IH, eq_refl].
Qed.

Lemma parseOptions_loop_R strict hp us args :
  forall j argv opts err j' argv' opts' err',
  parseOptions_loop strtod sort_options strict hp us args j argv opts err =
    Return (j', argv', opts') err' ->
  Forall2 R opts opts'.
Proof.
  induction args as [|arg args IH]; intros j argv opts err j' argv' opts' err';
    cbn [parseOptions_loop].
  - intros [= _ _ <- _]. now apply Forall2_refl.
  - destruct (help_request _ arg) as [str|].
    + destruct (String.eqb str EmptyString).
      { intros H. apply after_Return in H as [e' H].
        now apply printUsageAndExit_no_return in H. }
      destruct (match_ str "-verb").
      { intros H. apply after_Return in H as [e' H].
        now apply printUsageAndExit_no_return in H. }
      apply IH.
    + destruct (try_options strtod arg opts) as [[[|] opts1] e1| |] eqn:Et;
        try discriminate.
      * intros H. eapply Forall2_trans; [exact R_trans | eapply try_options_R, Et |].
        eapply IH, H.
      * destruct (if strict then match_ arg "-" else None); [discriminate|].
        intros H. eapply Forall2_trans; [exact R_trans | eapply try_options_R, Et |].
        eapply IH, H.
Qed.

End Preserved.

Lemma parseValue_same_declaration str env strict o :
  same_declaration o (parseValue strtod str env strict o).1.2.
Proof.
  destruct o as [d|i|l|x|b]; unfold parseValue.
  - unfold DoubleOption_parseValue. destruct (strtod str) as [tmp end_].
    repeat case_if; cbn; auto.
  - unfold IntOption_parseValue. destruct (strtol str) as [tmp end_].
    repeat case_if; cbn; auto.
  - unfold Int64Option_parseValue. destruct (strtoll str) as [tmp end_].
    repeat case_if; cbn; auto.
  - cbn. reflexivity.
  - unfold BoolOption_parseValue. repeat case_if; cbn; auto.
Qed.

Lemma same_declaration_refl o : same_declaration o o.
Proof. destruct o; cbn; auto. Qed.

Lemma same_declaration_trans a b c :
  same_declaration a b -> same_declaration b c -> same_declaration a c.
Proof.
  destruct a, b, c; cbn; try tauto; try (intros [-> ->] [-> ->]; auto); congruence.
Qed.

(** X13.  Parsing changes values only.  [parseValue], [parseEnv] and
    [parse] leave an option of the same class with the same name,
    description, category, type name and range; when [parseOptions]
    returns, the option list has the same options in the same order, each
    with its declaration unchanged. *)
Theorem parsing_keeps_declarations :
  (forall str env strict o,
     same_declaration o (parseValue strtod str env strict o).1.2) /\
  (forall env o, same_declaration o (parseEnv strtod env o).1.2) /\
  (forall arg o b o' e,
     parse strtod arg o = Return (b, o') e -> same_declaration o o') /\
  (forall strict argv g j argv' opts' err,
     parseOptions strtod sort_options strict argv g = Return (j, argv', opts') err ->
     Forall2 same_declaration (OptionList g) opts').
Proof.
  assert (Hb : forall b b', b_base b' = b_base b -> same_declaration (OBool b) (OBool b'))
    by (intros b b' H; cbn; congruence).
  repeat split.
  - apply parseValue_same_declaration.
  - intros env o.
    apply parseEnv_R; auto using same_declaration_refl, parseValue_same_declaration.
  - intros arg o b o' e.
    apply parse_R; auto using same_declaration_refl, parseValue_same_declaration.
  - intros strict argv g j argv' opts' err H.
    apply parseOptions_Return in H as (j0 & H & _). revert H.
    apply parseOptions_loop_R;
      eauto using same_declaration_refl, same_declaration_trans,
        parseValue_same_declaration.
Qed.

Lemma parseValue_value_in_range str env strict o :
  value_in_range o -> value_in_range (parseValue strtod str env strict o).1.2.
Proof.
  destruct o as [d|i|l|x|b]; unfold parseValue; intros Hin.
  - now destruct (DoubleOption_parseValue strtod str env strict d) as [[? ?] ?].
  - unfold IntOption_parseValue. destruct (strtol str) as [tmp end_].
    destruct (negb _); [exact Hin|].
    destruct (Z.gtb_spec (wrap tmp) (ir_end (i_range i))); [exact Hin|].
    destruct (Z.ltb_spec (wrap tmp) (ir_begin (i_range i))); [exact Hin|].
    cbn. lia.
  - unfold Int64Option_parseValue. destruct (strtoll str) as [tmp end_].
    destruct (negb _); [exact Hin|].
    destruct (Z.gtb_spec tmp (lr_end (l_range l))); [exact Hin|].
    destruct (Z.ltb_spec tmp (lr_begin (l_range l))); [exact Hin|].
    cbn. lia.
  - exact I.
  - now destruct (BoolOption_parseValue str env strict b) as [[? ?] ?].
Qed.

(** X14.  The value of an [IntOption] or [Int64Option] that lies in the
    option's range stays there: [parseValue] and [parseEnv] store only
    values of the range, and when all integer options are in range before
    [parseOptions], they are when it returns.  (The constructors do not
    check the default, so the premise is needed.) *)
Theorem integer_values_stay_in_range :
  (forall str env strict o,
     value_in_range o -> value_in_range (parseValue strtod str env strict o).1.2) /\
  (forall env o, value_in_range o -> value_in_range (parseEnv strtod env o).1.2) /\
  (forall strict argv g j argv' opts' err,
     parseOptions strtod sort_options strict argv g = Return (j, argv', opts') err ->
     Forall value_in_range (OptionList g) -> Forall value_in_range opts').
Proof.
  repeat split.
  - apply parseValue_value_in_range.
  - intros env o.
    apply (parseEnv_R (fun o o' => value_in_range o -> value_in_range o')); auto.
    intros; now apply parseValue_value_in_range.
  - intros strict argv g j argv' opts' err H.
    apply parseOptions_Return in H as (j0 & H & _).
    apply Forall2_Forall_impl.
    eapply (parseOptions_loop_R (fun o o' => value_in_range o -> value_in_range o'));
      [| | | |exact H]; cbn; auto.
    intros; now apply parseValue_value_in_range.
Qed.

(** An argument that does not start with ['-'] is no option. *)
Lemma parse_no_flag arg o :
  match_ arg "-" = None -> parse strtod arg o = Return (false, o) [].
Proof.
  intros H. destruct o; cbn [parse]; unfold Option_parse, BoolOption_parse;
    now rewrite H.
Qed.

Lemma try_options_no_flag arg opts :
  match_ arg "-" = None -> try_options strtod arg opts = Return (false, opts) [].
Proof.
  intros H. induction opts as [|o opts IH]; [reflexivity|].
  cbn [try_options]. now rewrite (parse_no_flag arg o H), IH.
Qed.

Lemma help_request_flag g arg str : help_request g arg = Some str -> is_flag arg = true.
Proof.
  unfold help_request, is_flag. destruct arg as [|c arg]; [discriminate|].
  cbn [match_]. destruct (Ascii.eqb c "-"); [|discriminate].
  intros _. apply bool_decide_eq_true. now eexists.
Qed.

(** The loop of [parseOptions] in strict mode: [i] is the index of the
    first argument not yet looked at. *)
Lemma parseOptions_loop_strict hp us args :
  forall (i j : nat) argv opts err j' argv' opts' err',
  length argv = (i + length args)%nat -> (j <= i)%nat -> drop i argv = args ->
  parseOptions_loop strtod sort_options true hp us args j argv opts err =
    Return (j', argv', opts') err' ->
  take j' argv' = take j argv ++ List.filter (fun a => negb (is_flag a)) args /\
  length argv' = length argv /\
  j' = (j + length (List.filter (fun a => negb (is_flag a)) args))%nat.
Proof.
  induction args as [|arg args IH];
    intros i j argv opts err j' argv' opts' err' Hlen Hj Hdrop;
    cbn [parseOptions_loop List.filter].
  - intros [= <- <- _ _]. cbn. rewrite app_nil_r. split; [reflexivity | lia].
  - assert (Hdrop' : drop (S i) argv = args).
    { rewrite <- (Nat.add_1_l i), Nat.add_comm, <- drop_drop, Hdrop. reflexivity. }
    cbn [length] in Hlen.
    destruct (help_request _ arg) as [str|] eqn:Hhelp.
    + rewrite (help_request_flag _ _ _ Hhelp). cbn [negb].
      destruct (String.eqb str EmptyString).
      { intros H. apply after_Return in H as [e' H].
        now apply printUsageAndExit_no_return in H. }
      destruct (match_ str "-verb").
      { intros H. apply after_Return in H as [e' H].
        now apply printUsageAndExit_no_return in H. }
      intros H. apply (IH (S i)) in H; [exact H | lia | lia | exact Hdrop'].
    + destruct (try_options strtod arg opts) as [[[|] opts1] e1| |] eqn:Et;
        try discriminate.
      * destruct (is_flag arg) eqn:Hflag.
        -- cbn [negb]. intros H.
           apply (IH (S i)) in H; [exact H | lia | lia | exact Hdrop'].
        -- apply is_flag_false in Hflag.
           rewrite (try_options_no_flag arg opts Hflag) in Et. discriminate.
      * destruct (match_ arg "-") as [flag|] eqn:Hm; [discriminate|].
        rewrite (proj2 (is_flag_false arg) Hm). cbn [negb].
        intros H. apply (IH (S i)) in H.
        -- destruct H as (Htake & Hlen' & Hj').
           rewrite length_insert in Hlen'.
           rewrite (take_S_r _ _ arg) in Htake by (apply list_lookup_insert_eq; lia).
           rewrite take_insert_ge, <- app_assoc in Htake by lia.
           cbn [length]. split; [exact Htake | split; [exact Hlen' | lia]].
        -- rewrite length_insert. lia.
        -- lia.
        -- rewrite drop_insert_lt by lia. exact Hdrop'.
Qed.

(** X15.  [parseOptions] in strict mode, when it returns: the first
    [argc] entries of [argv] are the program name followed by the arguments
    that do not start with ['-'], in their order; the new [argc] is their
    number; every argument that starts with ['-'] has been consumed by an
    option (or was a help request that changed nothing).  The array keeps
    its length, the entries past the new [argc] being left over. *)
Theorem parseOptions_strict_keeps_positionals a0 rest g j argv' opts' err :
  parseOptions strtod sort_options true (a0 :: rest) g = Return (j, argv', opts') err ->
  take j argv' = a0 :: List.filter (fun a => negb (is_flag a)) rest /\
  length argv' = S (length rest) /\
  j = S (length (List.filter (fun a => negb (is_flag a)) rest)).
Proof.
  intros H. apply parseOptions_Return in H as (j0 & H & Hj).
  cbn [drop] in H. rewrite drop_0 in H.
  apply (parseOptions_loop_strict _ _ _ 1%nat) in H; [| reflexivity | lia |].
  - destruct H as (Htake & Hlen & Hj0). cbn [take app length] in *.
    pose proof (List.filter_length_le (fun a => negb (is_flag a)) rest) as Hle.
    assert (j = j0) as -> by lia. now rewrite take_0 in Htake.
  - cbn [drop]. now rewrite drop_0.
Qed.

(** [usage_loop] stops at the first [BoolOption] with a long name. *)
Lemma usage_loop_result verbose opts :
  forall prev_cat prev_type err,
  if existsb long_bool_name opts
  then exists e, usage_loop verbose opts prev_cat prev_type err = Hang e
  else exists e, usage_loop verbose opts prev_cat prev_type err = Return tt e.
Proof.
  induction opts as [|o opts IH]; intros prev_cat prev_type err;
    cbn [existsb usage_loop].
  - now eexists.
  - destruct o as [d|i|l|x|b]; cbn [long_bool_name orb help]; try apply IH.
    unfold BoolOption_help.
    destruct (Nat.ltb_spec 16 (String.length (name (b_base b))));
      destruct (Z.ltb_spec (32 - Z.of_nat (String.length (name (b_base b))) * 2) 0);
      try lia; cbn [orb].
    + now eexists.
    + apply IH.
Qed.

(** X16.  [printUsageAndExit] never returns.  It ends the program with
    exit code 0, the four lines of the HELP OPTIONS section being the last
    output, unless the sorted option list has a [BoolOption] whose name has
    more than 16 characters: then [BoolOption::help] loops for ever on the
    padding of that option and the program never exits. *)
Theorem printUsageAndExit_exits_or_hangs {A} argv verbose g :
  (forall (a : A) err, printUsageAndExit sort_options argv verbose g <> Return a err) /\
  (existsb long_bool_name (sort_options (OptionList g)) = false ->
     exists pre,
       printUsageAndExit (A:=A) sort_options argv verbose g =
         Exit 0
           (pre ++
            [Fprintf (nl +:+ "HELP OPTIONS:" +:+ nl +:+ nl) [];
             Fprintf ("  --%shelp        Print help message." +:+ nl)
               [ArgStr (HelpPrefixString g)];
             Fprintf ("  --%shelp-verb   Print verbose help message." +:+ nl)
               [ArgStr (HelpPrefixString g)];
             Fprintf nl []])) /\
  (existsb long_bool_name (sort_options (OptionList g)) = true ->
     exists err, printUsageAndExit (A:=A) sort_options argv verbose g = Hang err).
Proof.
  split; [|split].
  - intros a err. apply printUsageAndExit_no_return.
  - intros Hshort. unfold printUsageAndExit.
    set (usage := match UsageString g with Some u => _ | None => _ end).
    pose proof (usage_loop_result verbose (sort_options (OptionList g)) None None usage) as H.
    rewrite Hshort in H. destruct H as [e ->]. now exists e.
  - intros Hlong. unfold printUsageAndExit.
    set (usage := match UsageString g with Some u => _ | None => _ end).
    pose proof (usage_loop_result verbose (sort_options (OptionList g)) None None usage) as H.
    rewrite Hlong in H. destruct H as [e ->]. now exists e.
Qed.

(** X17.  An argument ["--<prefix>help<tail>"] whose [tail] is neither
    empty nor starts with ["-verb"] is dropped without a word, in strict
    mode as well: it is not offered to the options, not reported as an
    unknown flag and not kept in [argv]. *)
Theorem help_like_argument_ignored strict a0 g tail :
  tail <> EmptyString -> match_ tail "-verb" = None ->
  parseOptions strtod sort_options strict
    [a0; "--" +:+ HelpPrefixString g +:+ "help" +:+ tail] g =
  Return (1%nat, [a0; "--" +:+ HelpPrefixString g +:+ "help" +:+ tail], OptionList g) [].
Proof.
  intros Hne Hverb. unfold parseOptions. cbn [drop]. try rewrite drop_0.
  cbn [parseOptions_loop]. unfold help_request. cbn [HelpPrefixString].
  rewrite !match_append, Hverb.
  destruct (String.eqb_spec tail EmptyString); [contradiction | reflexivity].
Qed.

(** X18.  A [StringOption] takes every value: ["-name=value"] is accepted
    for any [value], the empty string included, and stored as it is; and no
    argument whatever makes a [StringOption] end the program. *)
Theorem StringOption_accepts_every_value (o : StringOption) :
  (forall value,
     parse strtod ("-" +:+ name (s_base o) +:+ "=" +:+ value) (OString o) =
       Return (true, OString {| s_base := s_base o; s_value := Some value |}) []) /\
  (forall arg code err, parse strtod arg (OString o) <> Exit code err) /\
  (forall arg err, parse strtod arg (OString o) <> Hang err).
Proof.
  split; [|split].
  - intros value. cbn [parse]. unfold Option_parse. cbn [base].
    now rewrite !match_append.
  - intros arg code err. cbn [parse]. unfold Option_parse.
    repeat (destruct (match_ _ _); [|discriminate]). discriminate.
  - intros arg err. cbn [parse]. unfold Option_parse.
    repeat (destruct (match_ _ _); [|discriminate]). discriminate.
Qed.

Lemma parseValue_rejected_output str env strict o :
  (parseValue strtod str env strict o).1.1 = false ->
  exists format second,
    (parseValue strtod str env strict o).2 =
      [Fprintf format [ArgStr (rejection_prefix strict o); ArgStr str]; second].
Proof.
  destruct o as [d|i|l|x|b]; unfold parseValue, rejection_prefix.
  - unfold DoubleOption_parseValue. destruct (strtod str) as [tmp end_].
    repeat case_if; cbn; try discriminate; intros _; now do 2 eexists.
  - unfold IntOption_parseValue. destruct (strtol str) as [tmp end_].
    repeat case_if; cbn; try discriminate; intros _; now do 2 eexists.
  - unfold Int64Option_parseValue. destruct (strtoll str) as [tmp end_].
    repeat case_if; cbn; try discriminate; intros _; now do 2 eexists.
  - cbn. discriminate.
  - unfold BoolOption_parseValue.
    repeat case_if; cbn; try discriminate; intros _; now do 2 eexists.
Qed.

Lemma parseValue_accepted_output str env strict o :
  (parseValue strtod str env strict o).1.1 = true ->
  (parseValue strtod str env strict o).2 = [].
Proof.
  destruct o as [d|i|l|x|b]; unfold parseValue.
  - unfold DoubleOption_parseValue. destruct (strtod str) as [tmp end_].
    repeat case_if; cbn; congruence.
  - unfold IntOption_parseValue. destruct (strtol str) as [tmp end_].
    repeat case_if; cbn; congruence.
  - unfold Int64Option_parseValue. destruct (strtoll str) as [tmp end_].
    repeat case_if; cbn; congruence.
  - reflexivity.
  - unfold BoolOption_parseValue. repeat case_if; cbn; congruence.
Qed.

(** X19.  A rejected value is reported by two calls of [fprintf], the
    first with the prefix and the value.  The prefix of [DoubleOption],
    [IntOption] and [Int64Option] is "WARN" when [strict] is set and
    "ERROR" when it is not; [BoolOption] has it the other way round.  So a
    numeric option rejected on the command line (strict, followed by
    [exit(1)]) says "WARN!", and one rejected from the environment (not
    strict, the value ignored) says "ERROR!". *)
Theorem rejected_value_prefix str env strict o :
  (parseValue strtod str env strict o).1.1 = false ->
  exists format second,
    (parseValue strtod str env strict o).2 =
      [Fprintf format [ArgStr (rejection_prefix strict o); ArgStr str]; second].
Proof. apply parseValue_rejected_output. Qed.

(** X20.  What [parseEnv] prints: nothing when the variable is not set or
    its value is accepted; for a rejected value the two diagnostics of
    [parseValue] (not strict, naming the variable) and then
    "WARN! ignoring environment variable NAME=VALUE", a line that is not
    ended by a newline. *)
Theorem parseEnv_output env o :
  match env !! env_var_name (name (base o)) with
  | None => (parseEnv strtod env o).2 = []
  | Some v =>
      if (parseValue strtod v (Some (env_var_name (name (base o)))) false o).1.1
      then (parseEnv strtod env o).2 = []
      else
        exists format second,
          (parseEnv strtod env o).2 =
            [Fprintf format [ArgStr (rejection_prefix false o); ArgStr v];
             second;
             Fprintf "WARN! ignoring environment variable %s=%s"
               [ArgStr (env_var_name (name (base o))); ArgStr v]]
  end.
Proof.
  unfold parseEnv. destruct (env !! _) as [v|]; [|reflexivity].
  pose proof (parseValue_rejected_output v (Some (env_var_name (name (base o)))) false o)
    as Hrej.
  pose proof (parseValue_accepted_output v (Some (env_var_name (name (base o)))) false o)
    as Hacc.
  destruct (parseValue strtod v _ false o) as [[[|] o'] e]; cbn [fst snd] in *.
  - now apply Hacc.
  - destruct (Hrej eq_refl) as (format & second & ->). now exists format, second.
Qed.

(** X21.  The first option that accepts an argument gets it: when the
    options before [o] in the list return false for [arg] and [o] accepts
    it, the loop of [parseOptions] over the options stops at [o]; the
    options before are unchanged and silent, and the options after [o] are
    not asked, even if they have the same name. *)
Theorem first_match_wins arg before o o' e after :
  rejected_by strtod arg before ->
  parse strtod arg o = Return (true, o') e ->
  try_options strtod arg (before ++ o :: after) =
    Return (true, before ++ o' :: after) e.
Proof.
  induction 1 as [|o1 before (o1' & e1 & Ho1) _ IH]; intros Ho; cbn [app try_options].
  - now rewrite Ho.
  - rewrite Ho1. apply parse_false in Ho1 as [-> ->]. now rewrite (IH Ho).
Qed.

End Parsing.

(** The theorems at the sample options "verb" and "pre". *)
Lemma parseOptions_strict_keeps_positionals_witness :
  take 3 ["minisat"; "in.cnf"; "out"; "-no-pre"; "out"] =
    "minisat" :: List.filter (fun a => negb (is_flag a)) ["-verb=3"; "in.cnf"; "-no-pre"; "out"] /\
  length ["minisat"; "in.cnf"; "out"; "-no-pre"; "out"] =
    S (length ["-verb=3"; "in.cnf"; "-no-pre"; "out"]) /\
  3%nat = S (length (List.filter (fun a => negb (is_flag a))
                       ["-verb=3"; "in.cnf"; "-no-pre"; "out"])).
Proof.
  eapply (parseOptions_strict_keeps_positionals Samples.strtod_nan Samples.no_sort
            "minisat" ["-verb=3"; "in.cnf"; "-no-pre"; "out"] Samples.two_options).
  vm_compute. reflexivity.
Defined.

Lemma help_like_argument_ignored_witness :
  parseOptions Samples.strtod_nan Samples.no_sort true
    ["minisat"; "--" +:+ HelpPrefixString Samples.two_options +:+ "help" +:+ "me"]
    Samples.two_options =
  Return (1%nat,
          ["minisat"; "--" +:+ HelpPrefixString Samples.two_options +:+ "help" +:+ "me"],
          OptionList Samples.two_options) [].
Proof.
  apply (help_like_argument_ignored Samples.strtod_nan Samples.no_sort true
           "minisat" Samples.two_options "me").
  - discriminate.
  - reflexivity.
Defined.

Lemma rejected_value_prefix_witness :
  exists format second,
    (parseValue Samples.strtod_nan "abc" None true (OInt Samples.verb)).2 =
      [Fprintf format [ArgStr (rejection_prefix true (OInt Samples.verb)); ArgStr "abc"];
       second].
Proof.
  apply (rejected_value_prefix Samples.strtod_nan "abc" None true (OInt Samples.verb)).
  reflexivity.
Defined.

(** Two options of the same name: the first takes the argument. *)
Lemma first_match_wins_witness :
  try_options Samples.strtod_nan "-pre=off"
    ([OInt Samples.verb] ++ OBool Samples.pre :: [OBool Samples.pre]) =
  Return (true,
          [OInt Samples.verb] ++
          OBool {| b_base := b_base Samples.pre; b_value := false |} :: [OBool Samples.pre])
    [].
Proof.
  apply (first_match_wins Samples.strtod_nan "-pre=off" [OInt Samples.verb]
           (OBool Samples.pre)
           (OBool {| b_base := b_base Samples.pre; b_value := false |}) []
           [OBool Samples.pre]).
  - repeat constructor. now exists (OInt Samples.verb), [].
  - reflexivity.
Defined.

End OptionsExtra.
